(** * skill-manager: the scanner, the grouper, the installer, the
      configuration and the command line of [src/index.js], embedded in
      Rocq.

    Strings are JavaScript strings: sequences of UTF-16 code units.  The file
    system is one tree of files and directories that the scanner reads and the
    installer updates.  Paths handed to the file system are kept as their
    lists of segments; the category of a skill is the string the program
    builds with [path.join] (POSIX separator). *)

From Stdlib Require Import String Ascii.
From Stdlib Require Import List NArith Bool Arith Lia Permutation Sorted.
Import ListNotations.
Local Open Scope list_scope.

(** ** JavaScript strings *)

Definition jsstring := list N.

(** An ASCII literal as a JavaScript string. *)
Definition js (s : string) : jsstring :=
  map N_of_ascii (list_ascii_of_string s).

Fixpoint strEqb (a b : jsstring) : bool :=
  match a, b with
  | [], [] => true
  | x :: a', y :: b' => N.eqb x y && strEqb a' b'
  | _, _ => false
  end.

(** Comparison of two strings by code units, as the default comparator of
    [Array.prototype.sort] does. *)
Fixpoint strLeb (a b : jsstring) : bool :=
  match a, b with
  | [], _ => true
  | _ :: _, [] => false
  | x :: a', y :: b' =>
      if N.ltb x y then true
      else if N.eqb x y then strLeb a' b' else false
  end.

Definition isEmpty (s : jsstring) : bool :=
  match s with [] => true | _ :: _ => false end.

(** ECMAScript LineTerminator: LF, CR, LS, PS. *)
Definition isLineTerminator (c : N) : bool :=
  (c =? 10)%N || (c =? 13)%N || (c =? 0x2028)%N || (c =? 0x2029)%N.

(** ECMAScript WhiteSpace: TAB, VT, FF, ZWNBSP and the space separators. *)
Definition isWhiteSpace (c : N) : bool :=
  (c =? 9)%N || (c =? 11)%N || (c =? 12)%N || (c =? 32)%N || (c =? 0xA0)%N
  || (c =? 0x1680)%N || ((0x2000 <=? c)%N && (c <=? 0x200A)%N)
  || (c =? 0x202F)%N || (c =? 0x205F)%N || (c =? 0x3000)%N
  || (c =? 0xFEFF)%N.

(** The class [\s], which is also what [String.prototype.trim] strips. *)
Definition isSpace (c : N) : bool := isWhiteSpace c || isLineTerminator c.

(** The class [.] without the [s] flag. *)
Definition isDot (c : N) : bool := negb (isLineTerminator c).

Fixpoint trimStart (s : jsstring) : jsstring :=
  match s with
  | c :: s' => if isSpace c then trimStart s' else s
  | [] => []
  end.

Definition trimEnd (s : jsstring) : jsstring := rev (trimStart (rev s)).

Definition trim (s : jsstring) : jsstring := trimEnd (trimStart s).

(** [s.substring(0, n)] *)
Definition substring0 (n : nat) (s : jsstring) : jsstring := firstn n s.

(** ** Regular expressions

    The fragment of ECMAScript regular expressions that the two patterns of
    [scanDirectory] use, with the backtracking order of the language: a
    quantifier is greedy and gives characters back one at a time, and the
    leftmost start position that matches wins. *)

Inductive atom :=
| Bol                        (* ^ under the m flag *)
| Eol                        (* $ under the m flag *)
| Chr (c : N)                (* a literal character *)
| OptChr (c : N)             (* c? *)
| StarSet (p : N -> bool)    (* [p]* *)
| CapPlusSet (p : N -> bool) (* ([p]+), the capture group *).

Definition regex := list atom.

Section Greedy.
Context {R : Type}.
Variable p : N -> bool.

(** [p]* followed by [k]: the longest run first, then shorter ones. *)
Fixpoint greedyStar (k : option N -> jsstring -> option R)
    (prev : option N) (s : jsstring) : option R :=
  match s with
  | c :: s' =>
      if p c then
        match greedyStar k (Some c) s' with
        | Some r => Some r
        | None => k prev s
        end
      else k prev s
  | [] => k prev s
  end.

(** As [greedyStar], remembering in [acc] (reversed) what was consumed. *)
Fixpoint greedyStarCap (k : jsstring -> option N -> jsstring -> option R)
    (acc : jsstring) (prev : option N) (s : jsstring) : option R :=
  match s with
  | c :: s' =>
      if p c then
        match greedyStarCap k (c :: acc) (Some c) s' with
        | Some r => Some r
        | None => k (rev acc) prev s
        end
      else k (rev acc) prev s
  | [] => k (rev acc) prev s
  end.

Definition greedyPlusCap (k : jsstring -> option N -> jsstring -> option R)
    (prev : option N) (s : jsstring) : option R :=
  match s with
  | c :: s' => if p c then greedyStarCap k [c] (Some c) s' else None
  | [] => None
  end.
End Greedy.

Definition atLineStart (prev : option N) : bool :=
  match prev with None => true | Some c => isLineTerminator c end.

Definition atLineEnd (s : jsstring) : bool :=
  match s with [] => true | c :: _ => isLineTerminator c end.

(** Match [r] at the current position; [prev] is the character before it
    and [cap] the text of the capture group so far.  The result is the
    capture group of the first match in backtracking order. *)
Fixpoint matchHere (r : regex) (cap : option jsstring)
    (prev : option N) (s : jsstring) : option (option jsstring) :=
  match r with
  | [] => Some cap
  | Bol :: r' => if atLineStart prev then matchHere r' cap prev s else None
  | Eol :: r' => if atLineEnd s then matchHere r' cap prev s else None
  | Chr c :: r' =>
      match s with
      | d :: s' => if N.eqb c d then matchHere r' cap (Some d) s' else None
      | [] => None
      end
  | OptChr c :: r' =>
      match s with
      | d :: s' =>
          if N.eqb c d then
            match matchHere r' cap (Some d) s' with
            | Some m => Some m
            | None => matchHere r' cap prev s
            end
          else matchHere r' cap prev s
      | [] => matchHere r' cap prev s
      end
  | StarSet p :: r' => greedyStar p (matchHere r' cap) prev s
  | CapPlusSet p :: r' =>
      greedyPlusCap p (fun g => matchHere r' (Some g)) prev s
  end.

Fixpoint searchFrom (r : regex) (prev : option N) (s : jsstring)
    : option (option jsstring) :=
  match matchHere r None prev s with
  | Some m => Some m
  | None =>
      match s with
      | [] => None
      | c :: s' => searchFrom r (Some c) s'
      end
  end.

(** [content.match(re)[1]] for a pattern without the g flag: [None] when
    there is no match. *)
Definition matchGroup1 (r : regex) (content : jsstring) : option jsstring :=
  match searchFrom r None content with
  | Some (Some g) => Some g
  | _ => None
  end.

(** [/^#?\s*KEY:\s*(.+)$/m] *)
Definition fieldPattern (key : jsstring) : regex :=
  [Bol; OptChr 35%N; StarSet isSpace] ++ map Chr key
    ++ [Chr 58%N; StarSet isSpace; CapPlusSet isDot; Eol].

Definition namePattern : regex := fieldPattern (js "name").
Definition descPattern : regex := fieldPattern (js "description").

(** ** The metadata of a descriptor *)

(** [nameMatch ? nameMatch[1].trim() : entry.name] *)
Definition extractDisplayName (content entryName : jsstring) : jsstring :=
  match matchGroup1 namePattern content with
  | Some g => trim g
  | None => entryName
  end.

(** [descMatch ? descMatch[1].trim() : 'No description'] *)
Definition extractDescription (content : jsstring) : jsstring :=
  match matchGroup1 descPattern content with
  | Some g => trim g
  | None => js "No description"
  end.

(** The truncation of lines 83-85. *)
Definition truncateDescription (description : jsstring) : jsstring :=
  if 50 <? length description
  then substring0 47 description ++ js "..."
  else description.

(** ** The file system *)

#[local] Set Warnings "-register-all".

(** A file whose content is [None] cannot be read; a directory whose flag is
    [false] cannot be listed.  Entries are kept in listing order. *)
Inductive node :=
| File (content : option jsstring)
| Dir (listable : bool) (entries : list (jsstring * node)).

Definition fspath := list jsstring.

Inductive errno := ENOENT | ENOTDIR | EACCES | EISDIR | EEXIST | EINVAL.

(** A file-system exception: Node reports the code and, for a failure
    that comes with one, the path; [epath] is empty for an error that names
    no path. *)
Record fserror := mkError { code : errno; epath : fspath }.

Definition entries_t := list (jsstring * node).

Fixpoint lookupEntry (x : jsstring) (es : entries_t) : option node :=
  match es with
  | [] => None
  | (y, c) :: es' => if strEqb x y then Some c else lookupEntry x es'
  end.

Definition isDirectory (n : node) : bool :=
  match n with Dir _ _ => true | File _ => false end.

(** [fs.readFile(p, 'utf-8')] on the node at [p].  A file that cannot be
    opened gives EACCES with its path; a directory is opened, and the read
    fails with EISDIR, an error that names no path. *)
Definition readFile (p : fspath) (n : node) : fserror + jsstring :=
  match n with
  | File (Some content) => inr content
  | File None => inl (mkError EACCES p)
  | Dir _ _ => inl (mkError EISDIR [])
  end.

(** ** The scanner *)

Record SkillRecord := mkSkill {
  name : jsstring;
  displayName : jsstring;
  description : jsstring;
  category : jsstring;
  path : fspath
}.

Definition DESCRIPTOR : jsstring := js "skill.md".

(** [path.join(category, entry.name)] for a category made of directory
    names and one more directory name: the two joined by the separator. *)
Definition pathJoin (a b : jsstring) : jsstring := a ++ js "/" ++ b.

(** The array [skills] that every call shares, and what [console.error]
    printed: the directory of the call that caught, and the exception. *)
Record scanState := mkScan {
  found : list SkillRecord;
  errlog : list (fspath * fserror)
}.

Definition pushSkill (r : SkillRecord) (st : scanState) : scanState :=
  mkScan (found st ++ [r]) (errlog st).

Definition logScanError (dirPath : fspath) (e : fserror) (st : scanState)
    : scanState :=
  mkScan (found st) (errlog st ++ [(dirPath, e)]).

(** The object pushed at lines 87-93. *)
Definition skillOf (entryName content category : jsstring) (fullPath : fspath)
    : SkillRecord :=
  mkSkill entryName
          (extractDisplayName content entryName)
          (truncateDescription (extractDescription content))
          category
          fullPath.

(** [scanDirectory(dirPath, category, skills)]; [d] is the node at
    [dirPath].  [fs.readdir] throws on a file (ENOTDIR) and on a directory
    that cannot be listed (EACCES).  An exception, from [readdir] or inside
    the loop, goes to the [catch] of the same call, which logs and returns
    the shared array. *)
Fixpoint scanDirectory (d : node) (dirPath : fspath) (category : jsstring)
    (st : scanState) : scanState :=
  match d with
  | File _ => logScanError dirPath (mkError ENOTDIR dirPath) st
  | Dir false _ => logScanError dirPath (mkError EACCES dirPath) st
  | Dir true entries =>
      (fix loop (es : entries_t) (st : scanState) {struct es} : scanState :=
         match es with
         | [] => st
         | (entryName, child) :: rest =>
             let fullPath := dirPath ++ [entryName] in
             match child with
             | File _ => loop rest st
             | Dir _ centries =>
                 let skillMdPath := fullPath ++ [DESCRIPTOR] in
                 match lookupEntry DESCRIPTOR centries with
                 | Some md =>
                     match readFile skillMdPath md with
                     | inr content =>
                         loop rest
                           (pushSkill
                              (skillOf entryName content category fullPath) st)
                     | inl e => logScanError dirPath e st
                     end
                 | None =>
                     let newCategory :=
                       if isEmpty category then entryName
                       else pathJoin category entryName in
                     loop rest (scanDirectory child fullPath newCategory st)
                 end
             end
         end) entries st
  end.

(** The loop of [scanDirectory] over the entries of a listed directory. *)
Definition scanEntries (dirPath : fspath) (category : jsstring)
    : entries_t -> scanState -> scanState :=
  fix loop (es : entries_t) (st : scanState) {struct es} : scanState :=
    match es with
    | [] => st
    | (entryName, child) :: rest =>
        let fullPath := dirPath ++ [entryName] in
        match child with
        | File _ => loop rest st
        | Dir _ centries =>
            let skillMdPath := fullPath ++ [DESCRIPTOR] in
            match lookupEntry DESCRIPTOR centries with
            | Some md =>
                match readFile skillMdPath md with
                | inr content =>
                    loop rest
                      (pushSkill
                         (skillOf entryName content category fullPath) st)
                | inl e => logScanError dirPath e st
                end
            | None =>
                let newCategory :=
                  if isEmpty category then entryName
                  else pathJoin category entryName in
                loop rest (scanDirectory child fullPath newCategory st)
            end
        end
    end.

Definition emptyScan : scanState := mkScan [] [].

(** [scanSkills(repositoryPath)]: the defaults [category = ''] and
    [skills = []] of [scanDirectory]. *)
Definition scanRun (repo : node) (repositoryPath : fspath) : scanState :=
  scanDirectory repo repositoryPath [] emptyScan.

Definition scanSkills (repo : node) (repositoryPath : fspath)
    : list SkillRecord :=
  found (scanRun repo repositoryPath).

(** ** The grouper (lines 172-196 of [main]) *)

(** The own properties of [skillsByCategory], in insertion order. *)
Definition jsobject := list (jsstring * list SkillRecord).

(** The property names that [{}] inherits from [Object.prototype]; each of
    them holds a function or an object, which is truthy and is no array. *)
Definition objectPrototypeKeys : list jsstring :=
  map js
    ["constructor"; "__defineGetter__"; "__defineSetter__"; "hasOwnProperty";
     "__lookupGetter__"; "__lookupSetter__"; "isPrototypeOf";
     "propertyIsEnumerable"; "toString"; "valueOf"; "__proto__";
     "toLocaleString"]%string.

Fixpoint lookupOwn (k : jsstring) (o : jsobject) : option (list SkillRecord) :=
  match o with
  | [] => None
  | (k', v) :: o' => if strEqb k k' then Some v else lookupOwn k o'
  end.

Fixpoint setOwn (k : jsstring) (v : list SkillRecord) (o : jsobject)
    : jsobject :=
  match o with
  | [] => [(k, v)]
  | (k', v') :: o' =>
      if strEqb k k' then (k', v) :: o' else (k', v') :: setOwn k v o'
  end.

Inductive propValue :=
| OwnArray (a : list SkillRecord)
| Inherited
| Undefined.

(** [skillsByCategory[k]]: the own property, else the prototype chain. *)
Definition getProp (o : jsobject) (k : jsstring) : propValue :=
  match lookupOwn k o with
  | Some a => OwnArray a
  | None =>
      if existsb (strEqb k) objectPrototypeKeys then Inherited else Undefined
  end.

(** [TypeError: skillsByCategory[category].push is not a function].  The
    JavaScript error names no key; [key] records, for the proofs only, the
    property that was read. *)
Inductive typeError := PushIsNotAFunction (key : jsstring).

Definition UNCATEGORIZED : jsstring := js "Uncategorized".

(** [skill.category || 'Uncategorized'] *)
Definition labelOf (skill : SkillRecord) : jsstring :=
  if isEmpty (category skill) then UNCATEGORIZED else category skill.

(** The loop of lines 173-179. *)
Fixpoint groupSkills (availableSkills : list SkillRecord) (o : jsobject)
    : typeError + jsobject :=
  match availableSkills with
  | [] => inr o
  | skill :: rest =>
      let category := labelOf skill in
      let o1 :=
        match getProp o category with
        | Undefined => setOwn category [] o
        | _ => o
        end in
      match getProp o1 category with
      | OwnArray a => groupSkills rest (setOwn category (a ++ [skill]) o1)
      | _ => inl (PushIsNotAFunction category)
      end
  end.

Fixpoint insertKey (k : jsstring) (l : list jsstring) : list jsstring :=
  match l with
  | [] => [k]
  | h :: t => if strLeb k h then k :: l else h :: insertKey k t
  end.

(** [Object.keys(o).sort()].  [Object.keys] lists integer-like keys before
    the others; the sort that follows makes the listing order immaterial
    (see [sortKeys_Permutation_eq]). *)
Definition sortKeys (l : list jsstring) : list jsstring :=
  fold_right insertKey [] l.

Definition sortedCategories (o : jsobject) : list jsstring :=
  sortKeys (map fst o).

(** An entry of [choices]: a separator carrying the category label, or a
    skill (the [value]; [name] and [short] are formatted from it). *)
Inductive choice :=
| Separator (label : jsstring)
| SkillChoice (value : SkillRecord).

Definition skillsIn (o : jsobject) (category : jsstring) : list SkillRecord :=
  match lookupOwn category o with Some a => a | None => [] end.

(** The loop of lines 185-196. *)
Definition buildChoices (o : jsobject) : list choice :=
  flat_map
    (fun category => Separator category :: map SkillChoice (skillsIn o category))
    (sortedCategories o).

Definition groupForDisplay (availableSkills : list SkillRecord)
    : typeError + list choice :=
  match groupSkills availableSkills [] with
  | inl e => inl e
  | inr o => inr (buildChoices o)
  end.

(** ** File-system operations of the installer *)

Fixpoint isPrefix (p q : fspath) : bool :=
  match p, q with
  | [], _ => true
  | _ :: _, [] => false
  | x :: p', y :: q' => strEqb x y && isPrefix p' q'
  end.

(** Neither path lies on the other: the two name disjoint subtrees. *)
Definition apart (p q : fspath) : bool :=
  negb (isPrefix p q) && negb (isPrefix q p).

Fixpoint lookupPath (p : fspath) (fs : node) : option node :=
  match p with
  | [] => Some fs
  | x :: p' =>
      match fs with
      | Dir _ es =>
          match lookupEntry x es with
          | Some c => lookupPath p' c
          | None => None
          end
      | File _ => None
      end
  end.

(** [fs.pathExists(p)] *)
Definition pathExists (p : fspath) (fs : node) : bool :=
  match lookupPath p fs with Some _ => true | None => false end.

Definition hasEntry (x : jsstring) (es : entries_t) : bool :=
  match lookupEntry x es with Some _ => true | None => false end.

(** Unlink the name [x]. *)
Definition dropEntry (x : jsstring) (es : entries_t) : entries_t :=
  filter (fun e => negb (strEqb x (fst e))) es.

(** Apply [f] to the child that the name [x] resolves to. *)
Fixpoint alterEntry (x : jsstring) (f : node -> node) (es : entries_t)
    : entries_t :=
  match es with
  | [] => []
  | (y, c) :: es' =>
      if strEqb x y then (y, f c) :: es' else (y, c) :: alterEntry x f es'
  end.

(** Bind [x] to [t]: in place when the name exists, as a new entry
    otherwise. *)
Definition addEntry (x : jsstring) (t : node) (es : entries_t) : entries_t :=
  if hasEntry x es then alterEntry x (fun _ => t) es else es ++ [(x, t)].

(** [fs.remove(p)]: the whole subtree goes; nothing happens when the path
    does not exist. *)
Fixpoint removePath (p : fspath) (fs : node) : node :=
  match p with
  | [] => fs
  | x :: p' =>
      match fs with
      | File _ => fs
      | Dir l es =>
          match p' with
          | [] => Dir l (dropEntry x es)
          | _ :: _ => Dir l (alterEntry x (removePath p') es)
          end
      end
  end.

(** A chain of fresh directories. *)
Fixpoint mkdirs (p : fspath) : node :=
  match p with
  | [] => Dir true []
  | x :: p' => Dir true [(x, mkdirs p')]
  end.

(** [mkdir -p]: [None] when a file is in the way. *)
Fixpoint ensureDirAt (p : fspath) (fs : node) : option node :=
  match fs with
  | File _ => None
  | Dir l es =>
      match p with
      | [] => Some fs
      | x :: p' =>
          match lookupEntry x es with
          | Some c =>
              match ensureDirAt p' c with
              | Some c' => Some (Dir l (alterEntry x (fun _ => c') es))
              | None => None
              end
          | None => Some (Dir l (es ++ [(x, mkdirs p')]))
          end
      end
  end.

(** Put the tree [t] at [p], whose parent directory exists. *)
Fixpoint placeAt (p : fspath) (t : node) (fs : node) : node :=
  match p with
  | [] => fs
  | x :: p' =>
      match fs with
      | File _ => fs
      | Dir l es =>
          match p' with
          | [] => Dir l (addEntry x t es)
          | _ :: _ => Dir l (alterEntry x (placeAt p' t) es)
          end
      end
  end.

(** The path, inside [n], of the first file that cannot be read or
    directory that cannot be listed. *)
Fixpoint firstUnreadable (n : node) : option fspath :=
  match n with
  | File (Some _) => None
  | File None => Some []
  | Dir false _ => Some []
  | Dir true es =>
      (fix scan (es : entries_t) : option fspath :=
         match es with
         | [] => None
         | (x, c) :: es' =>
             match firstUnreadable c with
             | Some q => Some (x :: q)
             | None => scan es'
             end
         end) es
  end.

(** ** The installer *)

Inductive message :=
| MsgInstalling (count : nat) (targetPath : fspath)
| MsgInstalled (displayName : jsstring)
| MsgSuccess
| MsgError (e : fserror).

Record world := mkWorld { disk : node; console : list message }.

Inductive outcome (A : Type) :=
| Returned (a : A)
| Thrown (e : fserror).
Arguments Returned {A} a.
Arguments Thrown {A} e.

(** An [async] function over the file system and the console: it returns or
    throws, and leaves a world behind either way. *)
Definition IO (A : Type) := world -> outcome A * world.

Definition ret {A} (a : A) : IO A := fun w => (Returned a, w).
Definition throw {A} (e : fserror) : IO A := fun w => (Thrown e, w).
Definition bind {A B} (m : IO A) (k : A -> IO B) : IO B :=
  fun w =>
    match m w with
    | (Returned a, w') => k a w'
    | (Thrown e, w') => (Thrown e, w')
    end.

Declare Scope io_scope.
Delimit Scope io_scope with io.
Notation "x <- m ;; k" := (bind m (fun x => k))
  (at level 61, m at next level, right associativity) : io_scope.
Notation "m ;; k" := (bind m (fun _ => k))
  (at level 61, right associativity) : io_scope.
Local Open Scope io_scope.

Definition consoleLog (m : message) : IO unit :=
  fun w => (Returned tt, mkWorld (disk w) (console w ++ [m])).

Definition setDisk (d : node) : IO unit :=
  fun w => (Returned tt, mkWorld d (console w)).

Definition getDisk : IO node := fun w => (Returned (disk w), w).

(** [for (const x of l) { await body(x) }] *)
Fixpoint forEach {A} (l : list A) (body : A -> IO unit) : IO unit :=
  match l with
  | [] => ret tt
  | x :: l' => body x ;; forEach l' body
  end.

Definition fsPathExists (p : fspath) : IO bool :=
  d <- getDisk ;; ret (pathExists p d).

Definition fsRemove (p : fspath) : IO unit :=
  d <- getDisk ;; setDisk (removePath p d).

(** The exception of [mkdir -p] for [p] when a file is in the way: EEXIST
    when [p] itself is a file, ENOTDIR when the file is above it. *)
Definition mkdirError (p : fspath) (d : node) : fserror :=
  mkError (match lookupPath p d with
           | Some (File _) => EEXIST
           | _ => ENOTDIR
           end) p.

(** [fs.ensureDir(p)] *)
Definition fsEnsureDir (p : fspath) : IO unit :=
  d <- getDisk ;;
  match ensureDirAt p d with
  | Some d' => setDisk d'
  | None => throw (mkdirError p d)
  end.

Section Copy.
(** What a recursive copy that fails leaves at its destination: nothing,
    or some part of the source.  The installer is verified for every such
    behaviour. *)
Variable leftover : node -> option node.

(** What [fs.copy] makes of a destination that exists already, from the
    source tree and the node at the destination: what is at the destination
    afterwards (directories are merged, files replaced, a file and a
    directory clash) and the exception if it throws.  The installer is
    verified for every such behaviour. *)
Variable overwrite : node -> node -> option node * option fserror.

(** [fs.copy(src, dst)] of fs-extra: the source must exist, must not be
    the destination nor contain it; the parent of the destination is
    created.  Onto a destination that does not exist the tree is copied,
    and the copy fails at what it cannot read; onto one that exists the
    outcome is [overwrite]'s. *)
Definition fsCopy (src dst : fspath) : IO unit :=
  d <- getDisk ;;
  match lookupPath src d with
  | None => throw (mkError ENOENT src)
  | Some t =>
      if isPrefix src dst && (isDirectory t || isPrefix dst src)
      then throw (mkError EINVAL src)
      else
        match ensureDirAt (removelast dst) d with
        | None => throw (mkdirError (removelast dst) d)
        | Some d1 =>
            match lookupPath dst d1 with
            | Some old =>
                let '(after, err) := overwrite t old in
                setDisk (match after with
                         | Some n => placeAt dst n d1
                         | None => removePath dst d1
                         end) ;;
                match err with
                | Some e => throw e
                | None => ret tt
                end
            | None =>
                match firstUnreadable t with
                | None => setDisk (placeAt dst t d1)
                | Some q =>
                    setDisk (match leftover t with
                             | Some part => placeAt dst part d1
                             | None => d1
                             end) ;;
                    throw (mkError EACCES (src ++ q))
                end
            end
        end
  end.

(** [const CLAUDE_SKILLS_DIR = '.claude/skills'], as its segments. *)
Definition CLAUDE_SKILLS_DIR : fspath := [js ".claude"; js "skills"].

Definition targetPathOf (targetDir : fspath) : fspath :=
  targetDir ++ CLAUDE_SKILLS_DIR.

(** [path.join(targetPath, skill.name)] *)
Definition targetSkillPathOf (targetDir : fspath) (skill : SkillRecord)
    : fspath :=
  targetPathOf targetDir ++ [name skill].

(** The body of the loop of lines 124-135. *)
Definition installOne (targetPath : fspath) (skill : SkillRecord) : IO unit :=
  let targetSkillPath := targetPath ++ [name skill] in
  (present <- fsPathExists targetSkillPath ;;
   if present then fsRemove targetSkillPath else ret tt) ;;
  fsCopy (path skill) targetSkillPath ;;
  consoleLog (MsgInstalled (displayName skill)).

(** [installSkills(skills, targetDir)] *)
Definition installSkills (skills : list SkillRecord) (targetDir : fspath)
    : IO unit :=
  let targetPath := targetDir ++ CLAUDE_SKILLS_DIR in
  fsEnsureDir targetPath ;;
  consoleLog (MsgInstalling (length skills) targetPath) ;;
  forEach skills (installOne targetPath) ;;
  consoleLog MsgSuccess.

(** The end of [main] with the handler of lines 240-243: the exit code
    of the process. *)
Definition mainInstall (selectedSkills : list SkillRecord)
    (targetDir : fspath) (w : world) : nat * world :=
  match installSkills selectedSkills targetDir w with
  | (Returned _, w') => (0, w')
  | (Thrown e, w') => (1, mkWorld (disk w') (console w' ++ [MsgError e]))
  end.
End Copy.

Definition LF : jsstring := [10%N].

(** ** The field rule in the words of the specification

    Used only to compare with [matchGroup1]: the text is cut into lines at
    the line terminators; a line holds the field when, after an optional
    leading [#] and white space, it begins with the keyword and a colon;
    the first such line gives the value, the trimmed remainder of that
    line. *)

Fixpoint linesOf (cur : jsstring) (s : jsstring) : list jsstring :=
  match s with
  | [] => [rev cur]
  | c :: s' =>
      if isLineTerminator c then rev cur :: linesOf [] s'
      else linesOf (c :: cur) s'
  end.

Fixpoint stripPrefix (p s : jsstring) : option jsstring :=
  match p, s with
  | [], _ => Some s
  | _ :: _, [] => None
  | x :: p', y :: s' => if N.eqb x y then stripPrefix p' s' else None
  end.

Definition stripMarker (line : jsstring) : jsstring :=
  trimStart (match line with
             | c :: line' => if N.eqb c 35 then line' else line
             | [] => []
             end).

Definition lineField (key line : jsstring) : option jsstring :=
  stripPrefix (key ++ js ":") (stripMarker line).

Fixpoint firstField (key : jsstring) (ls : list jsstring) : option jsstring :=
  match ls with
  | [] => None
  | l :: ls' =>
      match lineField key l with
      | Some rest => Some (trim rest)
      | None => firstField key ls'
      end
  end.

Definition specFieldValue (key content : jsstring) : option jsstring :=
  firstField key (linesOf [] content).

(** ** Vocabulary of the scanner's properties *)

Definition appendScan (st x : scanState) : scanState :=
  mkScan (found st ++ found x) (errlog st ++ errlog x).

(** The entry is a directory whose [skill.md] exists and cannot be read as a
    file: [fs.readFile] throws on it. *)
Definition descriptorFails (child : node) : bool :=
  match child with
  | File _ => false
  | Dir _ ces =>
      match lookupEntry DESCRIPTOR ces with
      | Some (File (Some _)) => false
      | Some _ => true
      | None => false
      end
  end.

(** The loop over these entries is left by an exception. *)
Definition loopThrows (es : entries_t) : bool :=
  existsb (fun e => descriptorFails (snd e)) es.

(** Below [n], every descriptor can be read: no loop is left by an
    exception. *)
Fixpoint readableDescriptors (n : node) : bool :=
  match n with
  | File _ => true
  | Dir _ es =>
      (fix all (es : entries_t) : bool :=
         match es with
         | [] => true
         | (_, c) :: es' =>
             negb (descriptorFails c) && readableDescriptors c && all es'
         end) es
  end.

(** No directory below [n] holds a descriptor. *)
Fixpoint skillFree (n : node) : bool :=
  match n with
  | File _ => true
  | Dir _ es =>
      (fix all (es : entries_t) : bool :=
         match es with
         | [] => true
         | (_, File _) :: es' => all es'
         | (_, (Dir _ ces) as c) :: es' =>
             negb (hasEntry DESCRIPTOR ces) && skillFree c && all es'
         end) es
  end.

(** Every directory of [n], itself included, can be listed. *)
Fixpoint allListable (n : node) : bool :=
  match n with
  | File _ => true
  | Dir l es =>
      l && (fix all (es : entries_t) : bool :=
              match es with
              | [] => true
              | (_, c) :: es' => allListable c && all es'
              end) es
  end.

(** A name that a directory listing can return: not empty, without a
    separator, and neither [.] nor [..]. *)
Definition validName (x : jsstring) : bool :=
  negb (isEmpty x) && negb (existsb (N.eqb 47) x)
  && negb (strEqb x (js ".")) && negb (strEqb x (js "..")).

Fixpoint validTree (n : node) : bool :=
  match n with
  | File _ => true
  | Dir _ es =>
      (fix all (es : entries_t) : bool :=
         match es with
         | [] => true
         | (x, c) :: es' => validName x && validTree c && all es'
         end) es
  end.

(** The names joined by the separator, as [Array.prototype.join] does. *)
Fixpoint joinSlash (l : list jsstring) : jsstring :=
  match l with
  | [] => []
  | x :: l' =>
      match l' with
      | [] => x
      | _ :: _ => x ++ js "/" ++ joinSlash l'
      end
  end.

(** [skillAt repo anc x]: below [repo], the chain of directories named
    [anc], each one listed and without descriptor, leads to a directory
    named [x] that holds a descriptor. *)
Inductive skillAt : node -> list jsstring -> jsstring -> Prop :=
| skillAt_here es x l ces :
    In (x, Dir l ces) es ->
    hasEntry DESCRIPTOR ces = true ->
    skillAt (Dir true es) [] x
| skillAt_below es a l ces anc x :
    In (a, Dir l ces) es ->
    hasEntry DESCRIPTOR ces = false ->
    skillAt (Dir l ces) anc x ->
    skillAt (Dir true es) (a :: anc) x.

(** What a record [r] found by scanning [d], at path [p] with the
    accumulated category [cat], says about [d]. *)
Definition recordSound (d : node) (p : fspath) (cat : jsstring)
    (r : SkillRecord) : Prop :=
  exists anc,
    skillAt d anc (name r)
    /\ path r = p ++ anc ++ [name r]
    /\ (validTree d = true ->
        forall anc0,
          Forall (fun a => isEmpty a = false) anc0 ->
          cat = joinSlash anc0 ->
          category r = joinSlash (anc0 ++ anc)).

(** ** Vocabulary of the grouper's properties *)

Definition strLe (a b : jsstring) : Prop := strLeb a b = true.

(** The label of the skill is no property name of [Object.prototype]. *)
Definition safeLabel (skill : SkillRecord) : bool :=
  negb (existsb (strEqb (labelOf skill)) objectPrototypeKeys).

Definition withLabel (c : jsstring) (skills : list SkillRecord)
    : list SkillRecord :=
  filter (fun s => strEqb (labelOf s) c) skills.

(** ** Vocabulary of the installer's properties *)

(** Apply [f] to the listing of the directory at [p]. *)
Fixpoint updateDir (p : fspath) (f : entries_t -> entries_t) (fs : node)
    : node :=
  match fs with
  | File _ => fs
  | Dir l es =>
      match p with
      | [] => Dir l (f es)
      | x :: p' => Dir l (alterEntry x (updateDir p' f) es)
      end
  end.

Definition isDirAt (p : fspath) (fs : node) : bool :=
  match lookupPath p fs with Some (Dir _ _) => true | _ => false end.

(** What [fs.copy] does with the source [src] read on the disk [d]: the
    tree that is copied, or what the failure leaves and the exception. *)
Inductive copyResult :=
| CopyDone (t : node)
| CopyFailed (residue : option node) (e : fserror).

Definition copyResultOf (leftover : node -> option node) (src : fspath)
    (d : node) : copyResult :=
  match lookupPath src d with
  | None => CopyFailed None (mkError ENOENT src)
  | Some t =>
      match firstUnreadable t with
      | None => CopyDone t
      | Some q => CopyFailed (leftover t) (mkError EACCES (src ++ q))
      end
  end.

Definition optEntry (x : jsstring) (ot : option node) : entries_t :=
  match ot with Some t => [(x, t)] | None => [] end.

(** The effect of installing one skill on the listing of the target
    directory: the name is unlinked, then bound to what the copy wrote. *)
Definition bindEntry (x : jsstring) (ot : option node) (es : entries_t)
    : entries_t :=
  dropEntry x es ++ optEntry x ot.

Definition applyOps (ops : list (jsstring * option node)) (es : entries_t)
    : entries_t :=
  fold_left (fun es op => bindEntry (fst op) (snd op) es) ops es.

Definition opNames (ops : list (jsstring * option node)) : list jsstring :=
  map fst ops.

Definition inNames (x : jsstring) (xs : list jsstring) : bool :=
  existsb (strEqb x) xs.

(** The entries that no operation names. *)
Definition keepOthers (ops : list (jsstring * option node)) (es : entries_t)
    : entries_t :=
  filter (fun e => negb (inNames (fst e) (opNames ops))) es.

(** What the operations leave bound: for each name, its last binding. *)
Fixpoint survivors (ops : list (jsstring * option node)) : entries_t :=
  match ops with
  | [] => []
  | (x, ot) :: ops' =>
      (if inNames x (opNames ops') then [] else optEntry x ot)
      ++ survivors ops'
  end.

(** The run of the installing loop, read off the sources on the disk [d]:
    the bindings it makes in the target directory up to the first copy that
    fails, the success lines it prints, and the exception if any. *)
Fixpoint installPlan (leftover : node -> option node) (d : node)
    (skills : list SkillRecord)
    : list (jsstring * option node) * list message * option fserror :=
  match skills with
  | [] => ([], [], None)
  | s :: rest =>
      match copyResultOf leftover (path s) d with
      | CopyDone t =>
          let '(ops, log, err) := installPlan leftover d rest in
          ((name s, Some t) :: ops, MsgInstalled (displayName s) :: log, err)
      | CopyFailed residue e => ([(name s, residue)], [], Some e)
      end
  end.

(** What [fs.copy] decides once its source has been looked up: what it
    leaves at the destination, and the exception if it fails. *)
Definition copyDecision (leftover : node -> option node) (src dst : fspath)
    (found : option node) : option node * option fserror :=
  match found with
  | None => (None, Some (mkError ENOENT src))
  | Some t =>
      if isPrefix src dst && (isDirectory t || isPrefix dst src)
      then (None, Some (mkError EINVAL src))
      else
        match firstUnreadable t with
        | None => (Some t, None)
        | Some q => (leftover t, Some (mkError EACCES (src ++ q)))
        end
  end.

(** The run of the installing loop from the disk [d], each source being
    read when its turn comes, on the disk as the skills before it left
    it. *)
Fixpoint runPlan (leftover : node -> option node) (base : fspath) (d : node)
    (skills : list SkillRecord)
    : list (jsstring * option node) * list message * option fserror :=
  match skills with
  | [] => ([], [], None)
  | s :: rest =>
      let '(b, err) :=
        copyDecision leftover (path s) (base ++ [name s])
          (lookupPath (path s) (updateDir base (dropEntry (name s)) d)) in
      match err with
      | Some e => ([(name s, b)], [], Some e)
      | None =>
          let '(ops, log, err') :=
            runPlan leftover base (updateDir base (bindEntry (name s) b) d)
              rest in
          ((name s, b) :: ops, MsgInstalled (displayName s) :: log, err')
      end
  end.

(** No source of the selection overlaps a place the installer writes: the
    sources are not modified by the installation. *)
Definition sourcesApart (targetDir : fspath) (skills : list SkillRecord)
    : bool :=
  forallb
    (fun s =>
       forallb (fun t => apart (path s) (targetSkillPathOf targetDir t)) skills)
    skills.

(** The bindings that copies which all succeed make from the disk [d]. *)
Definition bindingsOf (d : node) (skills : list SkillRecord)
    : list (jsstring * option node) :=
  map (fun k => (name k, lookupPath (path k) d)) skills.

Definition successLines (skills : list SkillRecord) : list message :=
  map (fun k => MsgInstalled (displayName k)) skills.

Definition outcomeOf (err : option fserror) : outcome unit :=
  match err with None => Returned tt | Some e => Thrown e end.

Definition copySucceeds (leftover : node -> option node) (d : node)
    (s : SkillRecord) : bool :=
  match copyResultOf leftover (path s) d with
  | CopyDone _ => true
  | CopyFailed _ _ => false
  end.

(** The run of [p] cannot go on into [s]. *)
Definition stopsAt (p : N -> bool) (s : jsstring) : bool :=
  match s with [] => true | d :: _ => negb (p d) end.

(** The character before a position that follows the text [pre]. *)
Fixpoint charBefore (prev : option N) (pre : jsstring) : option N :=
  match pre with
  | [] => prev
  | c :: pre' => charBefore (Some c) pre'
  end.

(** ** Sample data

    Small repositories, records and worlds on which the properties below
    are exercised. *)

Definition text51 : jsstring :=
  js "description: 123456789012345678901234567890123456789012345678901".
Definition text50 : jsstring :=
  js "description: 12345678901234567890123456789012345678901234567890".

(** The nesting [A/B/skillX]. *)
Definition repoAB : node :=
  Dir true
    [(js "A",
      Dir true
        [(js "B",
          Dir true
            [(js "skillX",
              Dir true [(DESCRIPTOR, File (Some (js "name: X")))])])])].

(** A root that holds its own descriptor and nothing else. *)
Definition repoRootSkill : node :=
  Dir true [(DESCRIPTOR, File (Some (js "name: Solo")))].

(** A skill whose descriptor cannot be read, before one that is sound. *)
Definition repoBrokenDescriptor : node :=
  Dir true
    [(js "broken", Dir true [(DESCRIPTOR, File None)]);
     (js "good", Dir true [(DESCRIPTOR, File (Some (js "name: Good")))])].

(** A listing with a directory that cannot be listed between two skills. *)
Definition listingWithLockedDir : entries_t :=
  [(js "one", Dir true [(DESCRIPTOR, File (Some (js "name: One")))]);
   (js "locked", Dir false []);
   (js "two", Dir true [(DESCRIPTOR, File (Some (js "name: Two")))])].

(** A record named [n] in the category [c]. *)
Definition skillIn (n c : string) : SkillRecord :=
  mkSkill (js n) (js n) (js "No description") (js c) [js "repo"; js c; js n].

(** A disk with a repository of four skills, three of them named [foo],
    two of the four holding a file that cannot be read, and an empty
    working directory. *)
Definition demoDisk : node :=
  Dir true
    [(js "repo",
      Dir true
        [(js "A",
          Dir true
            [(js "foo",
              Dir true [(DESCRIPTOR, File (Some (js "name: Foo A")));
                        (js "notes.txt", File (Some (js "from A")))])]);
         (js "B",
          Dir true
            [(js "foo",
              Dir true [(DESCRIPTOR, File (Some (js "name: Foo B")))]);
             (js "bar",
              Dir true [(DESCRIPTOR, File (Some (js "name: Bar")));
                        (js "secret", File None)])]);
         (js "C",
          Dir true
            [(js "foo",
              Dir true [(DESCRIPTOR, File (Some (js "name: Foo C")));
                        (js "secret", File None)])])]);
     (js "work", Dir true [])].

Definition fooA : SkillRecord :=
  mkSkill (js "foo") (js "Foo A") (js "No description") (js "A")
          [js "repo"; js "A"; js "foo"].
Definition fooB : SkillRecord :=
  mkSkill (js "foo") (js "Foo B") (js "No description") (js "B")
          [js "repo"; js "B"; js "foo"].
Definition barB : SkillRecord :=
  mkSkill (js "bar") (js "Bar") (js "No description") (js "B")
          [js "repo"; js "B"; js "bar"].

Definition demoWorld : world := mkWorld demoDisk [].

(** What a copy that takes the entries of a directory one after the
    other, in listing order, leaves when it fails: the directory with the
    entries before the one that fails and what is left of that one.  A file
    that cannot be read leaves nothing, a directory that cannot be listed
    an empty directory. *)
Fixpoint partialCopy (n : node) : option node :=
  match n with
  | File (Some _) => Some n
  | File None => None
  | Dir false _ => Some (Dir true [])
  | Dir true es =>
      Some (Dir true
              ((fix copied (es : entries_t) : entries_t :=
                  match es with
                  | [] => []
                  | (x, c) :: es' =>
                      match firstUnreadable c with
                      | None => (x, c) :: copied es'
                      | Some _ => optEntry x (partialCopy c)
                      end
                  end) es))
  end.

(** The source merged into a destination: a directory keeps the entries
    that the source does not name and takes those of the source, merged in
    turn; anything else is replaced by the source. *)
Fixpoint mergeTree (t old : node) : node :=
  match t, old with
  | Dir _ es, Dir l' es' =>
      Dir l'
        ((fix merged (es : entries_t) (acc : entries_t) : entries_t :=
            match es with
            | [] => acc
            | (x, c) :: es' =>
                merged es'
                  (match lookupEntry x acc with
                   | Some o => alterEntry x (fun _ => mergeTree c o) acc
                   | None => acc ++ [(x, c)]
                   end)
            end) es es')
  | _, _ => t
  end.

(** A behaviour of [fs.copy] onto a destination that exists, as it is for
    a source that can be read and a destination without a file where the
    source has a directory, or the reverse.  No example below copies onto
    an existing destination. *)
Definition mergeCopy (t old : node) : option node * option fserror :=
  (Some (mergeTree t old), None).


(** ** Vocabulary of the extractor's properties *)

Fixpoint startsWith (p s : jsstring) : bool :=
  match p, s with
  | [], _ => true
  | _ :: _, [] => false
  | x :: p', y :: s' => N.eqb x y && startsWith p' s'
  end.

(** [s.includes(key)] *)
Fixpoint includes (key s : jsstring) : bool :=
  startsWith key s
  || match s with
     | [] => false
     | _ :: s' => includes key s'
     end.

(** The text [pre], then an optional [#] and white space, then the keyword
    and a colon, where [pre] is empty or ends with a line terminator. *)
Definition anchoredField (key content : jsstring) : Prop :=
  exists pre hash ws rest,
    content = pre ++ hash ++ ws ++ key ++ js ":" ++ rest
    /\ atLineStart (charBefore None pre) = true
    /\ (hash = [] \/ hash = js "#")
    /\ forallb isSpace ws = true.

(** No directory below [n], [n] included, lists a name twice. *)
Fixpoint uniqueNames (n : node) : bool :=
  match n with
  | File _ => true
  | Dir _ es =>
      (fix all (es : entries_t) : bool :=
         match es with
         | [] => true
         | (x, c) :: es' => negb (hasEntry x es') && uniqueNames c && all es'
         end) es
  end.

(** A repository with one skill, whose description has 51 characters. *)
Definition repoLongDescription : node :=
  Dir true [(js "long", Dir true [(DESCRIPTOR, File (Some text51))])].

(** The skills that the choices offer, and the labels of the separators,
    both from top to bottom. *)
Definition choiceValues (cs : list choice) : list SkillRecord :=
  flat_map (fun c => match c with
                     | Separator _ => []
                     | SkillChoice v => [v]
                     end) cs.

Definition separatorLabels (cs : list choice) : list jsstring :=
  flat_map (fun c => match c with
                     | Separator label => [label]
                     | SkillChoice _ => []
                     end) cs.

(** A directory of installed skills that is used as a repository: the
    category [bar] holds the skill [foo]; the skill [bar] of the category
    [A] holds a directory [foo] of its own; the category [C] holds another
    skill [foo]. *)
Definition overlapRepo : node :=
  Dir true
    [(js "A",
      Dir true
        [(js "bar",
          Dir true
            [(DESCRIPTOR, File (Some (js "name: New")));
             (js "foo",
              Dir true [(DESCRIPTOR, File (Some (js "name: Inner")))])])]);
     (js "C",
      Dir true
        [(js "foo", Dir true [(DESCRIPTOR, File (Some (js "name: Foo C")))])]);
     (js "bar",
      Dir true
        [(js "foo", Dir true [(DESCRIPTOR, File (Some (js "name: Old")))])])].

Definition overlapDisk : node :=
  Dir true
    [(js "work",
      Dir true [(js ".claude", Dir true [(js "skills", overlapRepo)])])].



(** A working directory in which [.claude] is a file. *)
Definition blockedDisk : node :=
  Dir true
    [(js "repo",
      Dir true
        [(js "foo", Dir true [(DESCRIPTOR, File (Some (js "name: Foo")))])]);
     (js "work", Dir true [(js ".claude", File (Some (js "notes")))])].

(** ** Configuration, [main] and the command line *)

(** A value that [fs.readJson] returns.  Of a number the program only
    tests whether it is zero. *)
Inductive json :=
| JNull
| JBool (b : bool)
| JNumber (nonzero : bool)
| JString (s : jsstring)
| JArray (items : list json)
| JObject (props : list (jsstring * json)).

(** [!v] is false. *)
Definition truthy (v : json) : bool :=
  match v with
  | JNull => false
  | JBool b => b
  | JNumber nonzero => nonzero
  | JString s => negb (isEmpty s)
  | JArray _ => true
  | JObject _ => true
  end.

Fixpoint lookupProp (k : jsstring) (props : list (jsstring * json))
    : option json :=
  match props with
  | [] => None
  | (k', v) :: props' => if strEqb k k' then Some v else lookupProp k props'
  end.

(** [config.repositoryPath]; [None] is [undefined], which is what every
    value but an object with that property gives. *)
Definition repositoryPathOf (config : json) : option json :=
  match config with
  | JObject props => lookupProp (js "repositoryPath") props
  | _ => None
  end.

(** What the program takes from its platform: [os.homedir()],
    [process.cwd()], how a path string resolves to the segments from the
    root, [JSON.parse] as [fs.readJson] applies it and [JSON.stringify] as
    [fs.writeJson] does, what a failed [fs.copy] leaves behind and what
    [fs.copy] makes of a destination that exists. *)
Record environment := mkEnv {
  homedir : jsstring;
  cwd : fspath;
  resolvePath : jsstring -> fspath;
  jsonParse : jsstring -> option json;
  jsonStringify : json -> jsstring;
  copyLeftover : node -> option node;
  copyOverwrite : node -> node -> option node * option fserror
}.

(** [path.join(os.homedir(), '.skill-manager')], resolved. *)
Definition CONFIG_DIR (env : environment) : fspath :=
  resolvePath env (homedir env) ++ [js ".skill-manager"].

Definition CONFIG_FILE (env : environment) : fspath :=
  CONFIG_DIR env ++ [js "config.json"].

Inductive loadFailure :=
| ReadFailure (e : fserror)
| SyntaxFailure.

(** What [main] can reject with. *)
Inductive failure :=
| FsFailure (e : fserror)
| GroupingFailure (e : typeError).

(** The lines of [console.log] and [console.error], in order. *)
Inductive line :=
| LineBanner
| LineLoadFailed (why : loadFailure)
| LineFirstTime
| LineSaved
| LineRepositoryMissing (repositoryPath : json)
| LinePleaseReconfigure
| LineScanning (repositoryPath : jsstring)
| LineScanError (dirPath : fspath) (e : fserror)
| LineNoSkills
| LineMakeSure
| LineFound (count : nat)
| LineInstall (m : message)
| LineError (e : failure)
| LineCleared
| LineHelp.

(** [loadConfig()]: the value read, [null] when there is no file or the
    reading fails, and what was printed. *)
Definition loadConfig (env : environment) (d : node) : json * list line :=
  match lookupPath (CONFIG_FILE env) d with
  | None => (JNull, [])
  | Some n =>
      match readFile (CONFIG_FILE env) n with
      | inl e => (JNull, [LineLoadFailed (ReadFailure e)])
      | inr text =>
          match jsonParse env text with
          | Some v => (v, [])
          | None => (JNull, [LineLoadFailed SyntaxFailure])
          end
      end
  end.

(** The repository path of a configuration that passes the test of line
    148, [!config || !config.repositoryPath] being false. *)
Definition configuredRepository (config : json) : option json :=
  if truthy config then
    match repositoryPathOf config with
    | Some v => if truthy v then Some v else None
    | None => None
    end
  else None.

(** The default of the input prompt. *)
Definition defaultRepository (env : environment) : jsstring :=
  pathJoin (homedir env) (js "skills-warehouse").

(** The input prompt of [initConfig]: the lines the user submits, one
    after the other.  An empty line stands for the default; the first
    value that [validate] accepts is the answer; [None] when the user has
    submitted nothing that is accepted. *)
Fixpoint promptRepositoryPath (env : environment) (typed : list jsstring)
    (d : node) : option jsstring :=
  match typed with
  | [] => None
  | input :: later =>
      let value := if isEmpty input then defaultRepository env else input in
      if pathExists (resolvePath env value) d then Some value
      else promptRepositoryPath env later d
  end.

(** [fs.writeFile(p, text)] below a directory that exists: the file is
    created or overwritten; a directory at [p] makes it throw. *)
Definition writeFileAt (p : fspath) (text : jsstring) (d : node)
    : fserror + node :=
  match lookupPath p d with
  | Some (Dir _ _) => inl (mkError EISDIR p)
  | _ =>
      match lookupPath (removelast p) d with
      | Some (Dir _ _) => inr (placeAt p (File (Some text)) d)
      | Some (File _) => inl (mkError ENOTDIR p)
      | None => inl (mkError ENOENT p)
      end
  end.

(** How an [async] function that asks the user ends: it returns, it
    throws, or it waits at a prompt for an answer that does not come. *)
Inductive step (A : Type) :=
| Done (a : A)
| Failed (e : failure)
| Blocked.
Arguments Done {A} a.
Arguments Failed {A} e.
Arguments Blocked {A}.

(** [initConfig()] *)
Definition initConfig (env : environment) (typed : list jsstring) (d : node)
    : step jsstring * node * list line :=
  match promptRepositoryPath env typed d with
  | None => (Blocked, d, [LineFirstTime])
  | Some repositoryPath =>
      match ensureDirAt (CONFIG_DIR env) d with
      | None =>
          (Failed (FsFailure (mkdirError (CONFIG_DIR env) d)), d,
           [LineFirstTime])
      | Some d1 =>
          match writeFileAt (CONFIG_FILE env)
                  (jsonStringify env
                     (JObject [(js "repositoryPath", JString repositoryPath)]))
                  d1 with
          | inl e => (Failed (FsFailure e), d1, [LineFirstTime])
          | inr d2 => (Done repositoryPath, d2, [LineFirstTime; LineSaved])
          end
      end
  end.

(** The user at the terminal: the lines submitted at the input prompt, and
    at each press of Enter on the checkbox prompt the positions, among the
    skills of the menu, of the boxes that are ticked. *)
Record user := mkUser {
  typed : list jsstring;
  ticked : list (list nat)
}.

(** The answer of the checkbox prompt: the values of the ticked choices, in
    the order of the menu. *)
Definition selectedBy (ticks : list nat) (values : list SkillRecord)
    : list SkillRecord :=
  map snd
    (filter (fun iv => existsb (Nat.eqb (fst iv)) ticks)
       (combine (seq 0 (length values)) values)).

(** The checkbox prompt with its [validate]: the first answer that is not
    empty. *)
Fixpoint promptSelection (ticked : list (list nat)) (choices : list choice)
    : option (list SkillRecord) :=
  match ticked with
  | [] => None
  | ticks :: later =>
      let answer := selectedBy ticks (choiceValues choices) in
      if length answer =? 0 then promptSelection later choices
      else Some answer
  end.

(** How [main] ends: by [process.exit], by returning, by throwing, or
    never, waiting at a prompt. *)
Inductive mainEnd :=
| ExitCalled (code : nat)
| Resolved
| Rejected (e : failure)
| Pending.

Record run (E : Type) := mkRun {
  ended : E;
  diskAfter : node;
  printed : list line
}.
Arguments mkRun {E} ended diskAfter printed.
Arguments ended {E} r.
Arguments diskAfter {E} r.
Arguments printed {E} r.

(** Line 219, on the disk [d] with [out] printed so far. *)
Definition installSelected (env : environment)
    (selectedSkills : list SkillRecord) (d : node) (out : list line)
    : run mainEnd :=
  match installSkills (copyLeftover env) (copyOverwrite env) selectedSkills
          (cwd env) (mkWorld d []) with
  | (Returned _, w) =>
      mkRun Resolved (disk w) (out ++ map LineInstall (console w))
  | (Thrown e, w) =>
      mkRun (Rejected (FsFailure e)) (disk w)
            (out ++ map LineInstall (console w))
  end.

(** Lines 152-219 of [main], for the value of [config.repositoryPath].
    [fs.pathExists] answers [false] for a value that is no path. *)
Definition mainWithRepository (env : environment) (repositoryPath : json)
    (ticked : list (list nat)) (d : node) (out : list line) : run mainEnd :=
  let repository :=
    match repositoryPath with
    | JString s =>
        match lookupPath (resolvePath env s) d with
        | Some repo => Some (s, repo)
        | None => None
        end
    | _ => None
    end in
  match repository with
  | None =>
      mkRun (ExitCalled 1) d
            (out ++ [LineRepositoryMissing repositoryPath;
                     LinePleaseReconfigure])
  | Some (s, repo) =>
      let scan := scanRun repo (resolvePath env s) in
      let out1 :=
        out ++ LineScanning s
            :: map (fun pe => LineScanError (fst pe) (snd pe)) (errlog scan) in
      let availableSkills := found scan in
      if length availableSkills =? 0
      then mkRun (ExitCalled 0) d (out1 ++ [LineNoSkills; LineMakeSure])
      else
        let out2 := out1 ++ [LineFound (length availableSkills)] in
        match groupForDisplay availableSkills with
        | inl e => mkRun (Rejected (GroupingFailure e)) d out2
        | inr choices =>
            match promptSelection ticked choices with
            | None => mkRun Pending d out2
            | Some selectedSkills =>
                installSelected env selectedSkills d out2
            end
        end
  end.

(** [main()] *)
Definition main (env : environment) (u : user) (d : node) : run mainEnd :=
  let '(config, loadLines) := loadConfig env d in
  let out := LineBanner :: loadLines in
  match configuredRepository config with
  | Some repositoryPath =>
      mainWithRepository env repositoryPath (ticked u) d out
  | None =>
      match initConfig env (typed u) d with
      | (Done repositoryPath, d', initLines) =>
          mainWithRepository env (JString repositoryPath) (ticked u) d'
            (out ++ initLines)
      | (Failed e, d', initLines) => mkRun (Rejected e) d' (out ++ initLines)
      | (Blocked, d', initLines) => mkRun Pending d' (out ++ initLines)
      end
  end.

(** Lines 223-244: the command line. *)
Inductive command := CmdReconfig | CmdHelp | CmdMain.

Definition commandOf (args : list jsstring) : command :=
  if existsb (strEqb (js "--reconfig")) args then CmdReconfig
  else if existsb (strEqb (js "--help")) args
          || existsb (strEqb (js "-h")) args
       then CmdHelp
       else CmdMain.

(** How the process ends: with an exit code, or not at all. *)
Inductive processEnd :=
| Exited (code : nat)
| AwaitingInput.

(** The program, for the arguments after the script name. *)
Definition skillManager (env : environment) (args : list jsstring) (u : user)
    (d : node) : run processEnd :=
  match commandOf args with
  | CmdReconfig =>
      mkRun (Exited 0) (removePath (CONFIG_FILE env) d) [LineCleared]
  | CmdHelp => mkRun (Exited 0) d [LineHelp]
  | CmdMain =>
      let r := main env u d in
      match ended r with
      | ExitCalled code => mkRun (Exited code) (diskAfter r) (printed r)
      | Resolved => mkRun (Exited 0) (diskAfter r) (printed r)
      | Rejected e =>
          mkRun (Exited 1) (diskAfter r) (printed r ++ [LineError e])
      | Pending => mkRun AwaitingInput (diskAfter r) (printed r)
      end
  end.

(** A platform for examples: the home directory is [/home], paths are
    given by their single segment below the root, and a configuration is
    written as its repository path alone. *)
Definition demoEnv : environment :=
  mkEnv (js "home") [js "work"]
        (fun s => [s])
        (fun text => Some (JObject [(js "repositoryPath", JString text)]))
        (fun v =>
           match repositoryPathOf v with
           | Some (JString s) => s
           | _ => []
           end)
        partialCopy mergeCopy.

(** A disk with a home directory without configuration, the repository
    of [demoDisk] and an empty working directory. *)
Definition freshDisk : node :=
  match demoDisk with
  | Dir l es => Dir l ((js "home", Dir true []) :: es)
  | File c => File c
  end.

(** The order of the menu: by label, in the order of the sort. *)
Definition menuOrder (a b : SkillRecord) : Prop :=
  strLe (labelOf a) (labelOf b).

(** A configured disk whose repository has a category directory named
    [constructor]. *)
Definition unsafeDisk : node :=
  Dir true
    [(js "home",
      Dir true
        [(js ".skill-manager",
          Dir true [(js "config.json", File (Some (js "repo")))])]);
     (js "repo",
      Dir true
        [(js "Alpha",
          Dir true
            [(js "fmt",
              Dir true [(DESCRIPTOR, File (Some (js "name: Fmt")))])]);
         (js "constructor",
          Dir true
            [(js "lint",
              Dir true [(DESCRIPTOR, File (Some (js "name: Lint")))])])]);
     (js "work", Dir true [])].

(** A disk whose configuration file cannot be read. *)
Definition lockedConfigDisk : node :=
  Dir true
    [(js "home",
      Dir true [(js ".skill-manager", Dir true [(js "config.json", File None)])]);
     (js "work", Dir true [])].


(** * Properties *)

Arguments js : simpl never.

(** ** Strings *)

Lemma strEqb_refl (a : jsstring) : strEqb a a = true.
Proof.
  induction a as [| x a IH]; simpl; [reflexivity |].
  now rewrite N.eqb_refl, IH.
Qed.

Lemma strEqb_eq (a b : jsstring) : strEqb a b = true <-> a = b.
Proof.
  split.
  - revert b; induction a as [| x a IH]; intros [| y b] H; simpl in H;
      try discriminate; [reflexivity |].
    apply andb_true_iff in H as [Hx Hab].
    apply N.eqb_eq in Hx. f_equal; [exact Hx | now apply IH].
  - intros ->. apply strEqb_refl.
Qed.

Lemma strEqb_neq (a b : jsstring) : strEqb a b = false <-> a <> b.
Proof.
  split.
  - intros H E. apply strEqb_eq in E. congruence.
  - intros H. destruct (strEqb a b) eqn:E; [| reflexivity].
    apply strEqb_eq in E. contradiction.
Qed.

Lemma strEqb_sym (a b : jsstring) : strEqb a b = strEqb b a.
Proof.
  destruct (strEqb a b) eqn:E.
  - apply strEqb_eq in E. subst. symmetry. apply strEqb_refl.
  - symmetry. apply strEqb_neq. apply strEqb_neq in E. congruence.
Qed.

(** ** Truncation *)

Lemma truncate_long (d : jsstring) :
  50 < length d ->
  truncateDescription d = firstn 47 d ++ js "..."
  /\ length (truncateDescription d) = 50.
Proof.
  intros H. unfold truncateDescription, substring0.
  assert (E : (50 <? length d) = true) by (apply Nat.ltb_lt; exact H).
  rewrite E. split; [reflexivity |].
  rewrite length_app, firstn_length_le by lia. reflexivity.
Qed.

Lemma truncate_short (d : jsstring) :
  length d <= 50 -> truncateDescription d = d.
Proof.
  intros H. unfold truncateDescription.
  assert (E : (50 <? length d) = false) by (apply Nat.ltb_ge; exact H).
  now rewrite E.
Qed.

(** C4.  Every description [d] is stored truncated: when [d] has more
    than 50 characters, as its first 47 characters followed by the three
    characters ["..."], 50 characters in all; when [d] has at most 50
    characters, 50 and 49 included, as [d] itself.  The description of a
    skill record is the extracted description stored this way. *)
Theorem C4_description_truncation :
  forall d : jsstring,
    (50 < length d ->
     truncateDescription d = firstn 47 d ++ js "..."
     /\ length (truncateDescription d) = 50)
    /\ (length d <= 50 -> truncateDescription d = d)
    /\ (forall (entryName content category : jsstring) (fullPath : fspath),
          description (skillOf entryName content category fullPath)
          = truncateDescription (extractDescription content)).
Proof.
  intros d. split; [apply truncate_long |].
  split; [apply truncate_short | reflexivity].
Qed.

Lemma C4_description_truncation_witness :
  (truncateDescription (extractDescription text51)
     = js "12345678901234567890123456789012345678901234567..."
   /\ length (truncateDescription (extractDescription text51)) = 50)
  /\ truncateDescription (extractDescription text50)
     = js "12345678901234567890123456789012345678901234567890".
Proof.
  split.
  - destruct (C4_description_truncation (extractDescription text51))
      as [Hlong _].
    destruct Hlong as [H1 H2]; [vm_compute; lia |].
    split; [rewrite H1; vm_compute; reflexivity | exact H2].
  - destruct (C4_description_truncation (extractDescription text50))
      as [_ [Hshort _]].
    rewrite Hshort; [vm_compute; reflexivity | vm_compute; lia].
Defined.

(** ** Field matching *)

Lemma greedyStar_inv {R} p (k : option N -> jsstring -> option R) s :
  forall prev r,
    greedyStar p k prev s = Some r ->
    exists ws s' prev',
      s = ws ++ s' /\ forallb p ws = true /\ k prev' s' = Some r.
Proof.
  induction s as [| c s IH]; intros prev r H; simpl in H.
  - now exists [], [], prev.
  - destruct (p c) eqn:Hc.
    + destruct (greedyStar p k (Some c) s) as [r' |] eqn:Hrec.
      * injection H as <-.
        destruct (IH _ _ Hrec) as (ws & s' & prev' & -> & Hws & Hk).
        exists (c :: ws), s', prev'. simpl. now rewrite Hc, Hws.
      * now exists [], (c :: s), prev.
    + now exists [], (c :: s), prev.
Qed.

Lemma matchHere_chars_inv key r cap :
  forall prev s m,
    matchHere (map Chr key ++ r) cap prev s = Some m ->
    exists s' prev', s = key ++ s' /\ matchHere r cap prev' s' = Some m.
Proof.
  induction key as [| c key IH]; intros prev s m H.
  - now exists s, prev.
  - simpl in H. destruct s as [| d s]; [discriminate |].
    destruct (N.eqb_spec c d) as [<- | Hne]; [| discriminate].
    destruct (IH _ _ _ H) as (s' & prev' & -> & Hm).
    now exists s', prev'.
Qed.

Lemma matchHere_chars key r cap :
  forall prev s,
    key <> [] ->
    matchHere (map Chr key ++ r) cap prev (key ++ s)
    = matchHere r cap (charBefore prev key) s.
Proof.
  induction key as [| c key IH]; intros prev s Hne; [contradiction |].
  simpl. rewrite N.eqb_refl. destruct key as [| c' key].
  - reflexivity.
  - now rewrite IH by discriminate.
Qed.

Lemma searchFrom_inv r :
  forall s prev m,
    searchFrom r prev s = Some m ->
    exists pre s',
      s = pre ++ s' /\ matchHere r None (charBefore prev pre) s' = Some m.
Proof.
  induction s as [| c s IH]; intros prev m H; simpl in H.
  - destruct (matchHere r None prev []) eqn:E; [| discriminate].
    injection H as <-. now exists [], [].
  - destruct (matchHere r None prev (c :: s)) eqn:E.
    + injection H as <-. now exists [], (c :: s).
    + destruct (IH _ _ H) as (pre & s' & -> & Hm).
      now exists (c :: pre), s'.
Qed.

(** The keyword is never matched in the middle of a line: a match of a
    field pattern begins at the start of a line, and between that start
    and the keyword there is at most one [#] and then white space only. *)
Lemma field_match_is_line_anchored key content g :
  matchGroup1 (fieldPattern key) content = Some g ->
  exists pre hash ws rest,
    content = pre ++ hash ++ ws ++ key ++ js ":" ++ rest
    /\ atLineStart (charBefore None pre) = true
    /\ (hash = [] \/ hash = js "#")
    /\ forallb isSpace ws = true.
Proof.
  unfold matchGroup1. intros H.
  destruct (searchFrom (fieldPattern key) None content) as [[g' |] |] eqn:Hs;
    try discriminate.
  clear H. destruct (searchFrom_inv _ _ _ _ Hs) as (pre & s & -> & Hm).
  unfold fieldPattern in Hm. cbn [app matchHere] in Hm.
  destruct (atLineStart (charBefore None pre)) eqn:Hbol; [| discriminate].
  exists pre.
  assert (Hrest : forall prev s0,
             greedyStar isSpace
               (matchHere (map Chr key
                           ++ [Chr 58%N; StarSet isSpace; CapPlusSet isDot; Eol])
                  None) prev s0 = Some (Some g') ->
             exists ws rest,
               s0 = ws ++ key ++ js ":" ++ rest /\ forallb isSpace ws = true).
  { intros prev s0 H0.
    destruct (greedyStar_inv _ _ _ _ _ H0) as (ws & s1 & prev1 & -> & Hws & Hk).
    destruct (matchHere_chars_inv _ _ _ _ _ _ Hk) as (s2 & prev2 & -> & Hc).
    destruct s2 as [| d s2]; [simpl in Hc; discriminate |].
    cbn [matchHere] in Hc.
    destruct (N.eqb_spec 58 d) as [<- | Hne]; [| discriminate].
    now exists ws, s2. }
  destruct s as [| d s].
  - destruct (Hrest _ _ Hm) as (ws & rest & E & Hws).
    exists [], ws, rest. split; [simpl; f_equal; exact E | auto].
  - destruct (N.eqb_spec 35 d) as [<- | Hne].
    + destruct (greedyStar isSpace
                  (matchHere
                     (map Chr key
                      ++ [Chr 58%N; StarSet isSpace; CapPlusSet isDot; Eol])
                     None) (Some 35%N) s) as [m |] eqn:Hhash.
      * injection Hm as ->.
        destruct (Hrest _ _ Hhash) as (ws & rest & E & Hws).
        exists (js "#"), ws, rest. split; [rewrite E; reflexivity | auto].
      * destruct (Hrest _ _ Hm) as (ws & rest & E & Hws).
        exists [], ws, rest. split; [rewrite E; reflexivity | auto].
    + destruct (Hrest _ _ Hm) as (ws & rest & E & Hws).
      exists [], ws, rest. split; [rewrite E; reflexivity | auto].
Qed.

Lemma greedyStar_run {R} p (k : option N -> jsstring -> option R) ws :
  forall prev s r,
    forallb p ws = true ->
    stopsAt p s = true ->
    k (charBefore prev ws) s = Some r ->
    greedyStar p k prev (ws ++ s) = Some r.
Proof.
  induction ws as [| c ws IH]; intros prev s r Hws Hstop Hk.
  - simpl in *. destruct s as [| d s]; [exact Hk |].
    simpl in Hstop. apply negb_true_iff in Hstop. simpl. now rewrite Hstop.
  - simpl in Hws. apply andb_true_iff in Hws as [Hc Hws].
    simpl. rewrite Hc. now rewrite (IH (Some c) s r Hws Hstop Hk).
Qed.

Lemma greedyStarCap_run {R} p
    (k : jsstring -> option N -> jsstring -> option R) v :
  forall acc prev s r,
    forallb p v = true ->
    stopsAt p s = true ->
    k (rev acc ++ v) (charBefore prev v) s = Some r ->
    greedyStarCap p k acc prev (v ++ s) = Some r.
Proof.
  induction v as [| c v IH]; intros acc prev s r Hv Hstop Hk.
  - simpl in *. rewrite app_nil_r in Hk. destruct s as [| d s]; [exact Hk |].
    simpl in Hstop. apply negb_true_iff in Hstop. simpl. now rewrite Hstop.
  - simpl in Hv. apply andb_true_iff in Hv as [Hc Hv].
    simpl. rewrite Hc. rewrite (IH (c :: acc) (Some c) s r Hv Hstop);
      [reflexivity |].
    simpl. now rewrite <- app_assoc.
Qed.

(** X2.  What a field line gives when the text begins with it: after the
    keyword, the colon and white space [ws], the text [v] up to the end of
    its line is the value, whatever follows.  When [ws] holds no line
    break, [v] is the remainder of the first line, and later lines with the
    same keyword do not count; when [ws] holds a line break, [v] is on a
    later line. *)
Lemma leading_field_value key0 key ws c v t :
  key0 <> 35%N -> isSpace key0 = false ->
  forallb isSpace ws = true ->
  isSpace c = false -> forallb isDot (c :: v) = true ->
  atLineEnd t = true ->
  matchGroup1 (fieldPattern (key0 :: key))
    ((key0 :: key) ++ js ":" ++ ws ++ (c :: v) ++ t)
  = Some (c :: v).
Proof.
  intros Hhash Hk0 Hws Hc Hv Ht.
  assert (Hm : matchHere (fieldPattern (key0 :: key)) None None
                 ((key0 :: key) ++ js ":" ++ ws ++ (c :: v) ++ t)
               = Some (Some (c :: v))).
  { unfold fieldPattern. cbn [app matchHere atLineStart].
    destruct (N.eqb_spec 35 key0) as [E | _]; [congruence |].
    cbn [greedyStar]. rewrite Hk0.
    change (Chr key0 :: map Chr key
            ++ [Chr 58%N; StarSet isSpace; CapPlusSet isDot; Eol])
      with (map Chr (key0 :: key)
            ++ [Chr 58%N; StarSet isSpace; CapPlusSet isDot; Eol]).
    change (key0 :: key ++ js ":" ++ ws ++ c :: v ++ t)
      with ((key0 :: key) ++ js ":" ++ ws ++ c :: v ++ t).
    rewrite matchHere_chars by discriminate.
    change (js ":" ++ ws ++ c :: v ++ t) with (58%N :: ws ++ c :: v ++ t).
    cbn [matchHere]. rewrite N.eqb_refl.
    apply greedyStar_run; [exact Hws | simpl; now rewrite Hc |].
    cbn [matchHere greedyPlusCap].
    simpl in Hv. apply andb_true_iff in Hv as [Hdc Hdv]. rewrite Hdc.
    apply greedyStarCap_run; [exact Hdv | |].
    - destruct t as [| d t]; [reflexivity |]. simpl in *.
      unfold isDot. now rewrite Ht.
    - cbn [matchHere rev app]. now rewrite Ht. }
  unfold matchGroup1.
  destruct ((key0 :: key) ++ js ":" ++ ws ++ (c :: v) ++ t) as [| d s] eqn:E;
    [discriminate |].
  cbn [searchFrom]. now rewrite Hm.
Qed.

Lemma leading_field_value_witness :
  matchGroup1 (fieldPattern (js "name"))
    (js "name" ++ js ":" ++ js " " ++ js "Formatter" ++ (LF ++ js "name: Other"))
  = Some (js "Formatter").
Proof.
  apply (leading_field_value 110%N (js "ame") (js " ") 70%N (js "ormatter")
           (LF ++ js "name: Other")); vm_compute; congruence.
Defined.

(** C9.  On a descriptor whose [name:] line has nothing after the colon,
    the pattern does not stop at that line: [\s*] runs over the line break
    and the capture group takes the following line, here the whole
    [description:] line.  The first line that begins with the keyword and a
    colon does not determine the value; read line by line, its value is
    the empty remainder. *)
Theorem C9_blank_field_takes_next_line :
  let content := js "name:" ++ LF ++ js "description: Formats code" in
  matchGroup1 namePattern content = Some (js "description: Formats code")
  /\ extractDisplayName content (js "fmt") = js "description: Formats code"
  /\ specFieldValue (js "name") content = Some []
  /\ linesOf [] content = [js "name:"; js "description: Formats code"].
Proof.
  vm_compute. repeat split.
Qed.

(** ** The scanner *)

Arguments DESCRIPTOR : simpl never.

Lemma node_induction (P : node -> Prop) :
  (forall c, P (File c)) ->
  (forall l es, Forall (fun e => P (snd e)) es -> P (Dir l es)) ->
  forall n, P n.
Proof.
  intros HF HD. fix IH 1. intros [c | l es].
  - apply HF.
  - apply HD. induction es as [| [x c] es IHes]; constructor.
    + apply IH.
    + apply IHes.
Qed.

Lemma scanDirectory_listed es dirPath category st :
  scanDirectory (Dir true es) dirPath category st
  = scanEntries dirPath category es st.
Proof. reflexivity. Qed.

Lemma scanDirectory_unlisted es dirPath category st :
  scanDirectory (Dir false es) dirPath category st
  = logScanError dirPath (mkError EACCES dirPath) st.
Proof. reflexivity. Qed.

Lemma scanEntries_nil dirPath category st :
  scanEntries dirPath category [] st = st.
Proof. reflexivity. Qed.

Lemma scanEntries_file dirPath category x c rest st :
  scanEntries dirPath category ((x, File c) :: rest) st
  = scanEntries dirPath category rest st.
Proof. reflexivity. Qed.

Lemma scanEntries_skill dirPath category x l ces content rest st :
  lookupEntry DESCRIPTOR ces = Some (File (Some content)) ->
  scanEntries dirPath category ((x, Dir l ces) :: rest) st
  = scanEntries dirPath category rest
      (pushSkill (skillOf x content category (dirPath ++ [x])) st).
Proof. intros H. simpl. rewrite H. reflexivity. Qed.

(** A descriptor that cannot be read ends the loop: the entries after it are
    not visited. *)
Lemma scanEntries_throw dirPath category x l ces md rest st :
  lookupEntry DESCRIPTOR ces = Some md ->
  descriptorFails (Dir l ces) = true ->
  exists e,
    scanEntries dirPath category ((x, Dir l ces) :: rest) st
    = logScanError dirPath e st.
Proof.
  intros H F. simpl in *. rewrite H in *.
  destruct md as [[content |] | l' es']; try discriminate; eexists; reflexivity.
Qed.

Lemma scanEntries_category dirPath category x l ces rest st :
  lookupEntry DESCRIPTOR ces = None ->
  scanEntries dirPath category ((x, Dir l ces) :: rest) st
  = scanEntries dirPath category rest
      (scanDirectory (Dir l ces) (dirPath ++ [x])
         (if isEmpty category then x else pathJoin category x) st).
Proof. intros H. simpl. rewrite H. reflexivity. Qed.

Lemma appendScan_empty st : appendScan st emptyScan = st.
Proof.
  destruct st as [f e]. unfold appendScan. simpl. now rewrite !app_nil_r.
Qed.

Lemma appendScan_assoc a b c :
  appendScan (appendScan a b) c = appendScan a (appendScan b c).
Proof. unfold appendScan. simpl. now rewrite !app_assoc. Qed.

Lemma pushSkill_append r st :
  pushSkill r st = appendScan st (pushSkill r emptyScan).
Proof. unfold pushSkill, appendScan. simpl. now rewrite app_nil_r. Qed.

Lemma logScanError_append p e st :
  logScanError p e st = appendScan st (logScanError p e emptyScan).
Proof. unfold logScanError, appendScan. simpl. now rewrite app_nil_r. Qed.

(** What a call adds to the shared array and to the log does not depend on
    what they held before. *)
Lemma scanEntries_frame dirPath category es :
  Forall (fun e => forall p c st,
            scanDirectory (snd e) p c st
            = appendScan st (scanDirectory (snd e) p c emptyScan)) es ->
  forall st,
    scanEntries dirPath category es st
    = appendScan st (scanEntries dirPath category es emptyScan).
Proof.
  induction 1 as [| [x child] es Hc _ IH]; intros st.
  - simpl. now rewrite appendScan_empty.
  - destruct child as [c | l ces].
    + rewrite !scanEntries_file. apply IH.
    + destruct (lookupEntry DESCRIPTOR ces) as [md |] eqn:Hmd.
      * destruct md as [[content |] | l' es'].
        -- rewrite !(scanEntries_skill _ _ _ _ _ _ _ _ Hmd).
           rewrite IH. rewrite (IH (pushSkill _ emptyScan)).
           rewrite (pushSkill_append _ st), appendScan_assoc. reflexivity.
        -- simpl. rewrite Hmd. simpl. apply logScanError_append.
        -- simpl. rewrite Hmd. simpl. apply logScanError_append.
      * rewrite !(scanEntries_category _ _ _ _ _ _ _ Hmd).
        rewrite IH. rewrite (IH (scanDirectory _ _ _ emptyScan)).
        cbn [snd] in Hc. rewrite (Hc _ _ st), appendScan_assoc. reflexivity.
Qed.

Lemma scanDirectory_frame d :
  forall p c st,
    scanDirectory d p c st = appendScan st (scanDirectory d p c emptyScan).
Proof.
  induction d as [content | l es IH] using node_induction; intros p c st.
  - apply logScanError_append.
  - destruct l; [| apply logScanError_append].
    rewrite !scanDirectory_listed. now apply scanEntries_frame.
Qed.

Lemma scanEntries_frame' dirPath category es st :
  scanEntries dirPath category es st
  = appendScan st (scanEntries dirPath category es emptyScan).
Proof.
  apply scanEntries_frame. apply Forall_forall. intros e _.
  apply scanDirectory_frame.
Qed.

(** The loop over [pre ++ post]: [post] is reached unless an exception
    left the loop inside [pre]. *)
Lemma scanEntries_app dirPath category pre post st :
  scanEntries dirPath category (pre ++ post) st
  = if loopThrows pre then scanEntries dirPath category pre st
    else scanEntries dirPath category post
           (scanEntries dirPath category pre st).
Proof.
  revert st. induction pre as [| [x child] pre IH]; intros st.
  - reflexivity.
  - destruct child as [c | l ces].
    + simpl app. rewrite !scanEntries_file. apply IH.
    + simpl app. unfold loopThrows. simpl existsb.
      destruct (lookupEntry DESCRIPTOR ces) as [md |] eqn:Hmd.
      * destruct md as [[content |] | l' es'].
        -- rewrite !(scanEntries_skill _ _ _ _ _ _ _ _ Hmd). simpl. apply IH.
        -- simpl. rewrite Hmd. reflexivity.
        -- simpl. rewrite Hmd. reflexivity.
      * rewrite !(scanEntries_category _ _ _ _ _ _ _ Hmd). simpl. apply IH.
Qed.

Lemma found_appendScan a b : found (appendScan a b) = found a ++ found b.
Proof. reflexivity. Qed.

Lemma joinSlash_nonempty x l :
  isEmpty x = false -> isEmpty (joinSlash (x :: l)) = false.
Proof.
  intros H. destruct x as [| c x]; [discriminate |].
  destruct l; reflexivity.
Qed.

(** Appending a name to the joined names is the step of line 96. *)
Lemma joinSlash_snoc anc x :
  Forall (fun a => isEmpty a = false) anc ->
  joinSlash (anc ++ [x])
  = if isEmpty (joinSlash anc) then x else pathJoin (joinSlash anc) x.
Proof.
  induction 1 as [| a anc Ha Hanc IH].
  - reflexivity.
  - rewrite (joinSlash_nonempty a anc Ha).
    destruct anc as [| b anc].
    + reflexivity.
    + change (joinSlash ((a :: b :: anc) ++ [x]))
        with (a ++ js "/" ++ joinSlash ((b :: anc) ++ [x])).
      rewrite IH.
      inversion Hanc as [| ? ? Hb _]; subst.
      rewrite (joinSlash_nonempty b anc Hb).
      change (joinSlash (a :: b :: anc))
        with (a ++ js "/" ++ joinSlash (b :: anc)).
      unfold pathJoin. now rewrite <- !app_assoc.
Qed.

Lemma validTree_entry l es x c :
  validTree (Dir l es) = true -> In (x, c) es ->
  validName x = true /\ validTree c = true.
Proof.
  simpl. induction es as [| [y d] es IH]; intros H Hin; [contradiction |].
  apply andb_true_iff in H as [H Hrest].
  apply andb_true_iff in H as [Hy Hd].
  destruct Hin as [E | Hin].
  - injection E as -> ->. now split.
  - now apply IH.
Qed.

Lemma validName_nonempty x : validName x = true -> isEmpty x = false.
Proof.
  unfold validName. intros H.
  repeat (apply andb_true_iff in H as [H ?]).
  now apply negb_true_iff in H.
Qed.

Lemma hasEntry_lookup x es :
  hasEntry x es = true <-> lookupEntry x es <> None.
Proof.
  unfold hasEntry. destruct (lookupEntry x es); split; congruence.
Qed.

Lemma scanEntries_sound full es p cat r :
  Forall (fun e => forall p cat r,
            In r (found (scanDirectory (snd e) p cat emptyScan)) ->
            recordSound (snd e) p cat r) es ->
  (forall e, In e es -> In e full) ->
  In r (found (scanEntries p cat es emptyScan)) ->
  recordSound (Dir true full) p cat r.
Proof.
  induction 1 as [| [x child] es Hc _ IH]; intros Hsub Hin.
  - simpl in Hin. contradiction.
  - assert (Hx : In (x, child) full) by (apply Hsub; now left).
    assert (Hsub' : forall e, In e es -> In e full)
      by (intros e He; apply Hsub; now right).
    destruct child as [c | l ces].
    + rewrite scanEntries_file in Hin. now apply IH.
    + destruct (lookupEntry DESCRIPTOR ces) as [md |] eqn:Hmd.
      * destruct md as [[content |] | l' es'].
        -- rewrite (scanEntries_skill _ _ _ _ _ _ _ _ Hmd) in Hin.
           rewrite scanEntries_frame', found_appendScan in Hin.
           apply in_app_or in Hin as [Hin | Hin]; [| now apply IH].
           simpl in Hin. destruct Hin as [<- | []].
           exists []. simpl. split; [| split].
           ++ eapply skillAt_here; [exact Hx |].
              apply hasEntry_lookup. congruence.
           ++ reflexivity.
           ++ intros _ anc0 _ ->. now rewrite app_nil_r.
        -- simpl in Hin. rewrite Hmd in Hin. simpl in Hin. contradiction.
        -- simpl in Hin. rewrite Hmd in Hin. simpl in Hin. contradiction.
      * rewrite (scanEntries_category _ _ _ _ _ _ _ Hmd) in Hin.
        rewrite scanEntries_frame', found_appendScan in Hin.
        apply in_app_or in Hin as [Hin | Hin]; [| now apply IH].
        cbn [snd] in Hc. apply Hc in Hin as (anc & Hat & Hpath & Hcat).
        exists (x :: anc). split; [| split].
        -- eapply skillAt_below; [exact Hx | | exact Hat].
           unfold hasEntry. now rewrite Hmd.
        -- rewrite Hpath. now rewrite <- app_assoc.
        -- intros Hvalid anc0 Hanc0 ->.
           destruct (validTree_entry _ _ _ _ Hvalid Hx) as [Hvx Hvc].
           replace (anc0 ++ x :: anc) with ((anc0 ++ [x]) ++ anc)
             by now rewrite <- app_assoc.
           apply Hcat; [exact Hvc | |].
           ++ apply Forall_app. split; [exact Hanc0 |].
              constructor; [now apply validName_nonempty | constructor].
           ++ now rewrite joinSlash_snoc.
Qed.

(** Every record of a scan is a directory that holds a descriptor, reached
    from the scanned directory through listed directories without
    descriptor; its path and its category spell that chain. *)
Lemma scanDirectory_sound d :
  forall p cat r,
    In r (found (scanDirectory d p cat emptyScan)) ->
    recordSound d p cat r.
Proof.
  induction d as [content | l es IH] using node_induction; intros p cat r Hin.
  - simpl in Hin. contradiction.
  - destruct l; [| simpl in Hin; contradiction].
    rewrite scanDirectory_listed in Hin.
    eapply scanEntries_sound; eauto.
Qed.

Lemma readableDescriptors_entry l es x c :
  readableDescriptors (Dir l es) = true -> In (x, c) es ->
  descriptorFails c = false /\ readableDescriptors c = true.
Proof.
  simpl. induction es as [| [y d] es IH]; intros H Hin; [contradiction |].
  apply andb_true_iff in H as [H Hrest].
  apply andb_true_iff in H as [Hy Hd].
  destruct Hin as [E | Hin].
  - injection E as -> ->. split; [now apply negb_true_iff | exact Hd].
  - now apply IH.
Qed.

Lemma readableDescriptors_loop l es pre post :
  readableDescriptors (Dir l es) = true -> es = pre ++ post ->
  loopThrows pre = false.
Proof.
  intros H ->. unfold loopThrows.
  destruct (existsb (fun e => descriptorFails (snd e)) pre) eqn:E;
    [| reflexivity].
  apply existsb_exists in E as ([y c] & Hin & Hf).
  destruct (readableDescriptors_entry l (pre ++ post) y c H) as [Hc _].
  - apply in_or_app. now left.
  - simpl in Hf. congruence.
Qed.

(** Conversely, when every descriptor can be read, each directory that holds
    a descriptor and is reached through listed directories without
    descriptor is recorded, with the names of that chain as its
    category. *)
Lemma scanDirectory_complete d anc x :
  skillAt d anc x ->
  forall p anc0,
    readableDescriptors d = true ->
    validTree d = true ->
    Forall (fun a => isEmpty a = false) anc0 ->
    exists r,
      In r (found (scanDirectory d p (joinSlash anc0) emptyScan))
      /\ name r = x
      /\ path r = p ++ anc ++ [x]
      /\ category r = joinSlash (anc0 ++ anc).
Proof.
  induction 1 as [es x l ces Hin Hdesc | es a l ces anc x Hin Hno Hat IH];
    intros p anc0 Hread Hvalid Hanc0.
  - apply in_split in Hin as (pre & post & ->).
    rewrite scanDirectory_listed, scanEntries_app.
    rewrite (readableDescriptors_loop _ _ pre _ Hread eq_refl).
    destruct (readableDescriptors_entry _ _ x (Dir l ces) Hread) as [Hf _];
      [apply in_or_app; right; now left |].
    simpl in Hf. unfold hasEntry in Hdesc.
    destruct (lookupEntry DESCRIPTOR ces) as [[[content |] | l' es'] |] eqn:Hmd;
      try discriminate.
    rewrite (scanEntries_skill _ _ _ _ _ _ _ _ Hmd).
    exists (skillOf x content (joinSlash anc0) (p ++ [x])).
    split; [| split; [reflexivity | split; [reflexivity |]]].
    + rewrite scanEntries_frame', found_appendScan. apply in_or_app. left.
      simpl. apply in_or_app. right. now left.
    + simpl. now rewrite app_nil_r.
  - apply in_split in Hin as (pre & post & ->).
    rewrite scanDirectory_listed, scanEntries_app.
    rewrite (readableDescriptors_loop _ _ pre _ Hread eq_refl).
    assert (Hmem : In (a, Dir l ces) (pre ++ (a, Dir l ces) :: post))
      by (apply in_or_app; right; now left).
    destruct (readableDescriptors_entry _ _ _ _ Hread Hmem) as [_ Hrc].
    destruct (validTree_entry _ _ _ _ Hvalid Hmem) as [Hva Hvc].
    unfold hasEntry in Hno.
    destruct (lookupEntry DESCRIPTOR ces) eqn:Hmd; [discriminate |].
    rewrite (scanEntries_category _ _ _ _ _ _ _ Hmd).
    rewrite <- joinSlash_snoc by exact Hanc0.
    destruct (IH (p ++ [a]) (anc0 ++ [a]) Hrc Hvc) as (r & Hr & Hn & Hp & Hc).
    { apply Forall_app. split; [exact Hanc0 |].
      constructor; [now apply validName_nonempty | constructor]. }
    exists r. split; [| split; [exact Hn | split]].
    + rewrite scanEntries_frame', found_appendScan. apply in_or_app. left.
      rewrite scanDirectory_frame, found_appendScan. apply in_or_app. right.
      exact Hr.
    + rewrite Hp. now rewrite <- app_assoc.
    + rewrite Hc. now rewrite <- app_assoc.
Qed.

(** C3.  Every skill record of a scan names a directory [x] that holds a
    descriptor and is reached from the repository root through a chain
    [anc] of category directories; the record's path is the root path
    followed by [anc] and [x], and its category is the names of [anc]
    joined by [/]: the empty string when the chain is empty, that is when
    the skill's parent is the root, at any depth. *)
Theorem C3_category_is_joined_ancestors :
  forall (repo : node) (repositoryPath : fspath) (r : SkillRecord),
    validTree repo = true ->
    In r (scanSkills repo repositoryPath) ->
    exists anc,
      skillAt repo anc (name r)
      /\ path r = repositoryPath ++ anc ++ [name r]
      /\ category r = joinSlash anc
      /\ (anc = [] -> category r = []).
Proof.
  intros repo rp r Hvalid Hin.
  apply scanDirectory_sound in Hin as (anc & Hat & Hpath & Hcat).
  exists anc. repeat split; try assumption.
  - apply (Hcat Hvalid []); [constructor | reflexivity].
  - intros ->. apply (Hcat Hvalid []); [constructor | reflexivity].
Qed.

Lemma C3_category_is_joined_ancestors_witness :
  exists anc,
    skillAt repoAB anc (js "skillX")
    /\ [js "repo"; js "A"; js "B"; js "skillX"]
       = [js "repo"] ++ anc ++ [js "skillX"]
    /\ js "A/B" = joinSlash anc
    /\ (anc = [] -> js "A/B" = []).
Proof.
  apply (C3_category_is_joined_ancestors repoAB [js "repo"]
           (mkSkill (js "skillX") (js "X") (js "No description") (js "A/B")
              [js "repo"; js "A"; js "B"; js "skillX"])).
  - vm_compute. reflexivity.
  - vm_compute. left. reflexivity.
Defined.

(** The example of the specification: [A/B/skillX] has category [A/B]. *)
Example scan_nested_category :
  map category (scanSkills repoAB [js "repo"]) = [js "A/B"].
Proof. vm_compute. reflexivity. Qed.

(** A file among the entries of a directory changes nothing in its scan. *)
Lemma scanEntries_skip_file dirPath category pre x c post st :
  scanEntries dirPath category (pre ++ (x, File c) :: post) st
  = scanEntries dirPath category (pre ++ post) st.
Proof.
  rewrite !scanEntries_app. destruct (loopThrows pre); [reflexivity |].
  now rewrite scanEntries_file.
Qed.

(** C1, as stated, fails: a root that holds only its own descriptor yields
    no record at all. *)
Lemma C1_root_descriptor_counterexample :
  lookupEntry DESCRIPTOR [(DESCRIPTOR, File (Some (js "name: Solo")))]
    = Some (File (Some (js "name: Solo")))
  /\ ~ (exists r, scanSkills repoRootSkill [js "repo"] = [r]).
Proof.
  split; [reflexivity |].
  intros [r H]. vm_compute in H. discriminate.
Qed.

(** C1, amended.  The root of the repository is never recorded as a skill.
    A descriptor file directly in the root is passed over like any other
    file: the scan is the same with and without it, and every record is a
    directory strictly below the root. *)
Theorem C1_root_descriptor_is_ignored :
  forall (l : bool) (pre post : entries_t) (c : option jsstring)
         (repositoryPath : fspath),
    let repo := Dir l (pre ++ (DESCRIPTOR, File c) :: post) in
    scanRun repo repositoryPath = scanRun (Dir l (pre ++ post)) repositoryPath
    /\ (forall r, In r (scanSkills repo repositoryPath) ->
          path r <> repositoryPath
          /\ exists anc,
               skillAt repo anc (name r)
               /\ path r = repositoryPath ++ anc ++ [name r]).
Proof.
  intros l pre post c rp repo. split.
  - unfold scanRun, repo. destruct l; [| reflexivity].
    rewrite !scanDirectory_listed. apply scanEntries_skip_file.
  - intros r Hin. apply scanDirectory_sound in Hin as (anc & Hat & Hpath & _).
    split; [| now exists anc].
    intros E. rewrite E in Hpath.
    apply (f_equal (@length jsstring)) in Hpath.
    rewrite !length_app in Hpath. simpl in Hpath. lia.
Qed.

(** ** Classification of directories *)

Lemma skillFree_entry l es x c :
  skillFree (Dir l es) = true -> In (x, c) es ->
  match c with
  | File _ => True
  | Dir _ ces => lookupEntry DESCRIPTOR ces = None /\ skillFree c = true
  end.
Proof.
  simpl. induction es as [| [y d] es IH]; intros H Hin; [contradiction |].
  destruct Hin as [E | Hin].
  - injection E as -> ->. destruct c as [f | l' ces]; [exact I |].
    apply andb_true_iff in H as [H _].
    apply andb_true_iff in H as [Hd Hs].
    apply negb_true_iff in Hd. unfold hasEntry in Hd.
    destruct (lookupEntry DESCRIPTOR ces); [discriminate | now split].
  - apply IH; [| exact Hin].
    destruct d as [f | l' ces]; [exact H |].
    now apply andb_true_iff in H as [_ H].
Qed.

Lemma allListable_entry l es x c :
  allListable (Dir l es) = true -> In (x, c) es -> allListable c = true.
Proof.
  simpl. intros H. apply andb_true_iff in H as [_ H]. revert H.
  induction es as [| [y d] es IH]; intros H Hin; [contradiction |].
  apply andb_true_iff in H as [Hd Hrest].
  destruct Hin as [E | Hin].
  - injection E as -> ->. exact Hd.
  - now apply IH.
Qed.

Lemma scanEntries_skillFree full es p cat :
  Forall (fun e => forall p cat st,
            skillFree (snd e) = true ->
            isDirectory (snd e) = true ->
            found (scanDirectory (snd e) p cat st) = found st
            /\ (allListable (snd e) = true ->
                scanDirectory (snd e) p cat st = st)) full ->
  skillFree (Dir true full) = true ->
  (forall e, In e es -> In e full) ->
  forall st,
    found (scanEntries p cat es st) = found st
    /\ (allListable (Dir true full) = true -> scanEntries p cat es st = st).
Proof.
  intros IH Hfree. rewrite Forall_forall in IH.
  induction es as [| [x child] es IHes]; intros Hsub st.
  - split; reflexivity.
  - assert (Hx : In (x, child) full) by (apply Hsub; now left).
    assert (Hsub' : forall e, In e es -> In e full)
      by (intros e He; apply Hsub; now right).
    destruct child as [c | l ces].
    + rewrite scanEntries_file. now apply IHes.
    + destruct (skillFree_entry _ _ _ _ Hfree Hx) as [Hno Hfc].
      rewrite (scanEntries_category _ _ _ _ _ _ _ Hno).
      destruct (IH _ Hx (p ++ [x]) (if isEmpty cat then x else pathJoin cat x)
                  st Hfc eq_refl) as [Hf Hl].
      cbn [snd] in Hf, Hl.
      destruct (IHes Hsub' (scanDirectory (Dir l ces) (p ++ [x])
                        (if isEmpty cat then x else pathJoin cat x) st))
        as [Hf' Hl'].
      split.
      * now rewrite Hf', Hf.
      * intros Hall. rewrite Hl', Hl; auto.
        now apply (allListable_entry _ _ _ _ Hall Hx).
Qed.

(** A directory without any descriptor below it adds no record; when all
    its directories can be listed it logs nothing either. *)
Lemma scanDirectory_skillFree d :
  forall p cat st,
    skillFree d = true ->
    isDirectory d = true ->
    found (scanDirectory d p cat st) = found st
    /\ (allListable d = true -> scanDirectory d p cat st = st).
Proof.
  induction d as [content | l es IH] using node_induction;
    intros p cat st Hfree Hdir; [discriminate |].
  destruct l.
  2:{ split; [reflexivity |]. simpl. discriminate. }
  rewrite scanDirectory_listed.
  apply (scanEntries_skillFree es es); auto.
Qed.

(** C2, as stated, fails: a directory whose [skill.md] cannot be read is
    met by the scan, holds the descriptor, and is not recorded. *)
Lemma C2_unreadable_descriptor_counterexample :
  hasEntry DESCRIPTOR [(DESCRIPTOR, File None)] = true
  /\ ~ (exists r,
          In r (scanSkills repoBrokenDescriptor [js "repo"])
          /\ name r = js "broken").
Proof.
  split; [reflexivity |].
  intros [r [Hin _]]. vm_compute in Hin. exact Hin.
Qed.

(** C2, amended.  For every directory entry [x] that the loop of a scan
    meets:
    - when it directly holds a [skill.md] that can be read, exactly one
      record is pushed for it and the loop goes on; the record is in the
      result, and the result is the same whatever else the directory
      holds, so nothing below it is scanned;
    - when it holds no [skill.md] it is scanned recursively, with its name
      appended to the category;
    - when moreover no directory below it holds a descriptor, it adds no
      record, and nothing is logged if all its directories can be
      listed. *)
Theorem C2_directory_classification :
  forall (dirPath : fspath) (category x : jsstring) (l : bool)
         (ces rest : entries_t) (st : scanState),
    let here := scanEntries dirPath category ((x, Dir l ces) :: rest) st in
    (forall content,
        lookupEntry DESCRIPTOR ces = Some (File (Some content)) ->
        let r := skillOf x content category (dirPath ++ [x]) in
        here = scanEntries dirPath category rest (pushSkill r st)
        /\ In r (found here)
        /\ (forall l' ces',
              lookupEntry DESCRIPTOR ces' = Some (File (Some content)) ->
              scanEntries dirPath category ((x, Dir l' ces') :: rest) st
              = here))
    /\ (lookupEntry DESCRIPTOR ces = None ->
        let newCategory :=
          if isEmpty category then x else pathJoin category x in
        let sub := scanDirectory (Dir l ces) (dirPath ++ [x]) newCategory st in
        here = scanEntries dirPath category rest sub
        /\ (skillFree (Dir l ces) = true ->
            found sub = found st
            /\ (allListable (Dir l ces) = true -> sub = st))).
Proof.
  intros dirPath category x l ces rest st here. split.
  - intros content Hmd r. subst here.
    rewrite (scanEntries_skill _ _ _ _ _ _ _ _ Hmd). fold r.
    split; [reflexivity |]. split.
    + rewrite scanEntries_frame', found_appendScan.
      apply in_or_app. left. simpl. apply in_or_app. right. now left.
    + intros l' ces' Hmd'.
      now rewrite (scanEntries_skill _ _ _ _ _ _ _ _ Hmd').
  - intros Hno newCategory sub. subst here. split.
    + now rewrite (scanEntries_category _ _ _ _ _ _ _ Hno).
    + intros Hfree. now apply scanDirectory_skillFree.
Qed.

Lemma C2_directory_classification_witness :
  In (skillOf (js "good") (js "name: Good") [] [js "repo"; js "good"])
     (found (scanEntries [js "repo"] []
               [(js "good",
                 Dir true [(DESCRIPTOR, File (Some (js "name: Good")));
                           (js "inner", Dir true
                              [(DESCRIPTOR, File (Some (js "name: In")))])])]
               emptyScan))
  /\ scanDirectory (Dir true [(js "docs", Dir true [(js "a.txt", File None)])])
       [js "repo"] [] emptyScan = emptyScan.
Proof.
  split.
  - apply (C2_directory_classification [js "repo"] [] (js "good") true
             [(DESCRIPTOR, File (Some (js "name: Good")));
              (js "inner", Dir true
                 [(DESCRIPTOR, File (Some (js "name: In")))])]
             [] emptyScan).
    reflexivity.
  - rewrite scanDirectory_listed.
    destruct (C2_directory_classification [js "repo"] [] (js "docs") true
                [(js "a.txt", File None)] [] emptyScan) as [_ Hcat].
    destruct Hcat as [Heq Hfree]; [reflexivity |].
    rewrite Heq. rewrite scanEntries_nil.
    destruct Hfree as [_ Hl]; [reflexivity |].
    apply Hl. reflexivity.
Defined.

(** ** Directories that cannot be listed *)

(** The records a loop adds do not depend on the state it starts from. *)
Lemma found_scanEntries_from dirPath category es st st' :
  found st = found st' ->
  found (scanEntries dirPath category es st)
  = found (scanEntries dirPath category es st').
Proof.
  intros H. rewrite (scanEntries_frame' _ _ _ st), (scanEntries_frame' _ _ _ st').
  rewrite !found_appendScan. now rewrite H.
Qed.

(** C8.  When the listing of a directory fails, the call for it adds no
    record and logs the failure.  The scan of the parent that reached it
    goes on with the entries after it: it returns what it returns for those
    entries from the records found before and the log with the failure
    added, its records are those of the parent without that directory, and
    its log holds the failure.  In particular a scan of a repository with
    such a directory returns the records of the repository without it. *)
Theorem C8_unlistable_directory_is_local :
  forall (dirPath : fspath) (category x : jsstring)
         (pre post ces : entries_t) (st : scanState),
    let failure p := mkError EACCES p in
    (forall p cat st0,
        scanDirectory (Dir false ces) p cat st0
        = mkScan (found st0) (errlog st0 ++ [(p, failure p)]))
    /\ (lookupEntry DESCRIPTOR ces = None ->
        loopThrows pre = false ->
        let sub := dirPath ++ [x] in
        let before := scanDirectory (Dir true pre) dirPath category st in
        let whole :=
          scanDirectory (Dir true (pre ++ (x, Dir false ces) :: post))
            dirPath category st in
        whole
        = scanDirectory (Dir true post) dirPath category
            (mkScan (found before) (errlog before ++ [(sub, failure sub)]))
        /\ found whole
           = found (scanDirectory (Dir true (pre ++ post)) dirPath category st)
        /\ In (sub, failure sub) (errlog whole))
    /\ (lookupEntry DESCRIPTOR ces = None ->
        loopThrows pre = false ->
        let repo := Dir true (pre ++ (x, Dir false ces) :: post) in
        scanSkills repo dirPath = scanSkills (Dir true (pre ++ post)) dirPath
        /\ In (dirPath ++ [x], failure (dirPath ++ [x]))
             (errlog (scanRun repo dirPath))).
Proof.
  intros dirPath category x pre post ces st failure.
  assert (Hloop : forall cat st0,
             lookupEntry DESCRIPTOR ces = None ->
             loopThrows pre = false ->
             let sub := dirPath ++ [x] in
             let before := scanDirectory (Dir true pre) dirPath cat st0 in
             let whole :=
               scanDirectory (Dir true (pre ++ (x, Dir false ces) :: post))
                 dirPath cat st0 in
             whole
             = scanDirectory (Dir true post) dirPath cat
                 (mkScan (found before)
                    (errlog before ++ [(sub, failure sub)]))
             /\ found whole
                = found (scanDirectory (Dir true (pre ++ post)) dirPath cat st0)
             /\ In (sub, failure sub) (errlog whole)).
  { intros cat st0 Hno Hpre sub before whole. subst sub before whole.
    rewrite !scanDirectory_listed.
    rewrite !scanEntries_app, Hpre.
    rewrite (scanEntries_category _ _ _ _ _ _ _ Hno).
    rewrite scanDirectory_unlisted.
    split; [reflexivity |]. split.
    - now apply found_scanEntries_from.
    - rewrite scanEntries_frame'. unfold appendScan, logScanError.
      cbn [errlog]. apply in_or_app. left. apply in_or_app. right.
      now left. }
  split; [reflexivity |]. split.
  - intros Hno Hpre. exact (Hloop category st Hno Hpre).
  - intros Hno Hpre repo. subst repo. unfold scanSkills, scanRun.
    destruct (Hloop [] emptyScan Hno Hpre) as (_ & Hfound & Hlog).
    split; [exact Hfound | exact Hlog].
Qed.

Lemma C8_unlistable_directory_is_local_witness :
  map name (scanSkills (Dir true listingWithLockedDir) [js "repo"])
  = [js "one"; js "two"]
  /\ In ([js "repo"; js "locked"], mkError EACCES [js "repo"; js "locked"])
       (errlog (scanRun (Dir true listingWithLockedDir) [js "repo"])).
Proof.
  destruct (C8_unlistable_directory_is_local [js "repo"] [] (js "locked")
              [(js "one", Dir true [(DESCRIPTOR, File (Some (js "name: One")))])]
              [(js "two", Dir true [(DESCRIPTOR, File (Some (js "name: Two")))])]
              [] emptyScan) as (_ & _ & H).
  destruct H as [Hfound Hlog]; [reflexivity | reflexivity |].
  change listingWithLockedDir
    with ([(js "one", Dir true [(DESCRIPTOR, File (Some (js "name: One")))])]
          ++ (js "locked", Dir false [])
          :: [(js "two",
               Dir true [(DESCRIPTOR, File (Some (js "name: Two")))])]).
  split; [| exact Hlog].
  rewrite Hfound. vm_compute. reflexivity.
Defined.

(** ** The grouper *)

Lemma strLeb_refl a : strLeb a a = true.
Proof.
  induction a as [| x a IH]; simpl; [reflexivity |].
  now rewrite N.ltb_irrefl, N.eqb_refl.
Qed.

Lemma strLeb_total a b : strLeb a b = true \/ strLeb b a = true.
Proof.
  revert b. induction a as [| x a IH]; intros [| y b]; simpl; auto.
  destruct (N.ltb_spec x y) as [Hxy | Hyx]; [now left |].
  destruct (N.ltb_spec y x) as [Hyx' | Hxy']; [now right |].
  assert (x = y) by lia. subst y.
  rewrite N.eqb_refl. apply IH.
Qed.

Lemma strLeb_cons x a y b :
  strLeb (x :: a) (y :: b) = true
  <-> (x < y)%N \/ (x = y /\ strLeb a b = true).
Proof.
  simpl. destruct (N.ltb_spec x y) as [Hxy | Hxy].
  - split; auto.
  - destruct (N.eqb_spec x y) as [-> | Hne].
    + split; [now right | intros [H | [_ H]]; [lia | exact H]].
    + split; [discriminate | intros [H | [H _]]; [lia | contradiction]].
Qed.

Lemma strLeb_trans a b c :
  strLeb a b = true -> strLeb b c = true -> strLeb a c = true.
Proof.
  revert b c. induction a as [| x a IH]; intros [| y b] [| z c];
    try reflexivity; try discriminate.
  rewrite !strLeb_cons.
  intros [Hxy | [-> Hab]] [Hyz | [-> Hbc]].
  - left. lia.
  - now left.
  - now left.
  - right. split; [reflexivity | now apply (IH b)].
Qed.

Lemma strLeb_antisym a b :
  strLeb a b = true -> strLeb b a = true -> a = b.
Proof.
  revert b. induction a as [| x a IH]; intros [| y b];
    try reflexivity; try discriminate.
  rewrite !strLeb_cons.
  intros [Hxy | [-> Hab]] [Hyx | [E Hba]]; try lia.
  f_equal. now apply IH.
Qed.

Lemma insertKey_Permutation k l : Permutation (insertKey k l) (k :: l).
Proof.
  induction l as [| h t IH]; simpl; [reflexivity |].
  destruct (strLeb k h); [reflexivity |].
  rewrite IH. apply perm_swap.
Qed.

Lemma sortKeys_Permutation l : Permutation (sortKeys l) l.
Proof.
  induction l as [| k l IH]; simpl; [reflexivity |].
  rewrite insertKey_Permutation. now constructor.
Qed.

Lemma insertKey_sorted k l :
  StronglySorted strLe l -> StronglySorted strLe (insertKey k l).
Proof.
  induction 1 as [| h t Ht IH Hh]; simpl.
  - repeat constructor.
  - destruct (strLeb k h) eqn:E.
    + constructor; [now constructor |].
      constructor; [exact E |].
      rewrite Forall_forall in *. intros y Hy.
      apply (strLeb_trans k h y E). now apply Hh.
    + constructor; [exact IH |].
      assert (Hhk : strLe h k).
      { destruct (strLeb_total k h) as [C | C]; [congruence | exact C]. }
      rewrite Forall_forall in *. intros y Hy.
      apply (Permutation_in _ (insertKey_Permutation k t)) in Hy.
      destruct Hy as [<- | Hy]; [exact Hhk | now apply Hh].
Qed.

Lemma sortKeys_sorted l : StronglySorted strLe (sortKeys l).
Proof.
  induction l as [| k l IH]; simpl; [constructor | now apply insertKey_sorted].
Qed.

Lemma sorted_Permutation_eq l1 l2 :
  StronglySorted strLe l1 -> StronglySorted strLe l2 ->
  Permutation l1 l2 -> l1 = l2.
Proof.
  intros H1. revert l2.
  induction H1 as [| a t1 Ht1 IH Ha]; intros l2 H2 HP.
  - apply Permutation_nil in HP. now subst.
  - destruct H2 as [| b t2 Ht2 Hb].
    + apply Permutation_sym, Permutation_nil in HP. discriminate.
    + assert (a = b) as <-.
      { rewrite Forall_forall in Ha, Hb.
        assert (Hab : In a (b :: t2))
          by (apply (Permutation_in _ HP); now left).
        assert (Hba : In b (a :: t1))
          by (apply (Permutation_in _ (Permutation_sym HP)); now left).
        destruct Hab as [E | Hab]; [now symmetry |].
        destruct Hba as [E | Hba]; [exact E |].
        apply strLeb_antisym; [now apply Ha | now apply Hb]. }
      f_equal. apply IH; [exact Ht2 |].
      now apply Permutation_cons_inv in HP.
Qed.

(** The sorted keys do not depend on the order in which [Object.keys]
    lists them. *)
Lemma sortKeys_Permutation_eq l1 l2 :
  Permutation l1 l2 -> sortKeys l1 = sortKeys l2.
Proof.
  intros HP. apply sorted_Permutation_eq; try apply sortKeys_sorted.
  rewrite !sortKeys_Permutation. exact HP.
Qed.

Lemma lookupOwn_setOwn_same c v o : lookupOwn c (setOwn c v o) = Some v.
Proof.
  induction o as [| [k a] o IH]; simpl.
  - now rewrite strEqb_refl.
  - destruct (strEqb c k) eqn:E; simpl; rewrite E; [reflexivity | exact IH].
Qed.

Lemma lookupOwn_setOwn_other c c' v o :
  c' <> c -> lookupOwn c' (setOwn c v o) = lookupOwn c' o.
Proof.
  intros Hne. induction o as [| [k a] o IH]; simpl.
  - apply strEqb_neq in Hne. now rewrite Hne.
  - destruct (strEqb c k) eqn:E; simpl.
    + apply strEqb_eq in E. subst k.
      apply strEqb_neq in Hne. now rewrite Hne.
    + now rewrite IH.
Qed.

Lemma keys_setOwn_in c c' v o :
  In c' (map fst (setOwn c v o)) <-> c' = c \/ In c' (map fst o).
Proof.
  induction o as [| [k a] o IH]; simpl.
  - split; [intros [H | []]; now left | intros [H | []]; now left].
  - destruct (strEqb c k) eqn:E; simpl.
    + apply strEqb_eq in E. subst k. split; [tauto |].
      intros [H | H]; [left; congruence | exact H].
    + rewrite IH. tauto.
Qed.

Lemma keys_setOwn_NoDup c v o :
  NoDup (map fst o) -> NoDup (map fst (setOwn c v o)).
Proof.
  induction o as [| [k a] o IH]; simpl; intros H.
  - constructor; [intros [] | constructor].
  - inversion H as [| ? ? Hk Ho]; subst.
    destruct (strEqb c k) eqn:E; simpl.
    + now constructor.
    + constructor; [| now apply IH].
      rewrite keys_setOwn_in. intros [-> | Hin]; [| contradiction].
      now rewrite strEqb_refl in E.
Qed.

Lemma skillsIn_setOwn_same c v o : skillsIn (setOwn c v o) c = v.
Proof. unfold skillsIn. now rewrite lookupOwn_setOwn_same. Qed.

Lemma skillsIn_setOwn_other c c' v o :
  c' <> c -> skillsIn (setOwn c v o) c' = skillsIn o c'.
Proof. intros H. unfold skillsIn. now rewrite lookupOwn_setOwn_other. Qed.

(** One round of the grouping loop on a skill whose label is safe: the
    skill is appended to the array of its label. *)
Lemma groupSkills_step skill rest o :
  safeLabel skill = true ->
  exists o1,
    groupSkills (skill :: rest) o = groupSkills rest o1
    /\ skillsIn o1 (labelOf skill) = skillsIn o (labelOf skill) ++ [skill]
    /\ (forall c, c <> labelOf skill -> skillsIn o1 c = skillsIn o c)
    /\ (forall c, In c (map fst o1) <-> c = labelOf skill \/ In c (map fst o))
    /\ (NoDup (map fst o) -> NoDup (map fst o1)).
Proof.
  intros Hsafe. unfold safeLabel in Hsafe. apply negb_true_iff in Hsafe.
  cbn [groupSkills]. cbv zeta.
  destruct (lookupOwn (labelOf skill) o) as [a |] eqn:Ho.
  - assert (G : getProp o (labelOf skill) = OwnArray a)
      by (unfold getProp; now rewrite Ho).
    rewrite G. cbv iota. rewrite G.
    exists (setOwn (labelOf skill) (a ++ [skill]) o).
    split; [reflexivity |]. split; [| split; [| split]].
    + rewrite skillsIn_setOwn_same. unfold skillsIn. now rewrite Ho.
    + intros c Hc. now apply skillsIn_setOwn_other.
    + intros c. apply keys_setOwn_in.
    + apply keys_setOwn_NoDup.
  - assert (G : getProp o (labelOf skill) = Undefined)
      by (unfold getProp; now rewrite Ho, Hsafe).
    rewrite G. cbv iota.
    assert (G' : getProp (setOwn (labelOf skill) [] o) (labelOf skill)
                 = OwnArray [])
      by (unfold getProp; now rewrite lookupOwn_setOwn_same).
    rewrite G'.
    exists (setOwn (labelOf skill) ([] ++ [skill])
              (setOwn (labelOf skill) [] o)).
    split; [reflexivity |]. split; [| split; [| split]].
    + rewrite skillsIn_setOwn_same. unfold skillsIn. now rewrite Ho.
    + intros c Hc. now rewrite !skillsIn_setOwn_other.
    + intros c. rewrite !keys_setOwn_in. tauto.
    + intros H. now apply keys_setOwn_NoDup, keys_setOwn_NoDup.
Qed.

Lemma groupSkills_safe skills :
  forall o,
    Forall (fun s => safeLabel s = true) skills ->
    exists o',
      groupSkills skills o = inr o'
      /\ (forall c, skillsIn o' c = skillsIn o c ++ withLabel c skills)
      /\ (forall c, In c (map fst o')
                    <-> In c (map fst o)
                        \/ exists s, In s skills /\ labelOf s = c)
      /\ (NoDup (map fst o) -> NoDup (map fst o')).
Proof.
  induction skills as [| skill rest IH]; intros o Hsafe.
  - exists o. split; [reflexivity |]. split; [| split].
    + intros c. simpl. now rewrite app_nil_r.
    + intros c. split; [now left | intros [H | (s & [] & _)]; exact H].
    + auto.
  - inversion Hsafe as [| ? ? Hs Hrest]; subst.
    destruct (groupSkills_step skill rest o Hs)
      as (o1 & Hstep & Hsame & Hother & Hkeys & Hnd).
    destruct (IH o1 Hrest) as (o' & Hrun & Hin & Hk & Hn).
    exists o'. split; [now rewrite Hstep |]. split; [| split].
    + intros c. rewrite Hin. unfold withLabel. simpl.
      destruct (strEqb (labelOf skill) c) eqn:E.
      * apply strEqb_eq in E. subst c. rewrite Hsame.
        now rewrite <- app_assoc.
      * apply strEqb_neq in E. rewrite Hother by congruence. reflexivity.
    + intros c. rewrite Hk, Hkeys. split.
      * intros [[-> | H] | (s & Hs' & E)].
        -- right. exists skill. split; [now left | reflexivity].
        -- now left.
        -- right. exists s. split; [now right | exact E].
      * intros [H | (s & [<- | Hs'] & E)].
        -- left. now right.
        -- left. left. now symmetry.
        -- right. now exists s.
    + auto.
Qed.

(** X9.  When no label collides with a property of [Object.prototype], the
    grouping returns: the labels come out sorted by code units, without
    repetition, they are the labels of the skills, and each group lists
    its skills in the order of the scan. *)
Lemma grouping_of_safe_labels skills :
  Forall (fun s => safeLabel s = true) skills ->
  exists o,
    groupSkills skills [] = inr o
    /\ groupForDisplay skills = inr (buildChoices o)
    /\ StronglySorted strLe (sortedCategories o)
    /\ NoDup (sortedCategories o)
    /\ (forall c, In c (sortedCategories o)
                  <-> exists s, In s skills /\ labelOf s = c)
    /\ (forall c, skillsIn o c = withLabel c skills).
Proof.
  intros Hsafe.
  destruct (groupSkills_safe skills [] Hsafe) as (o & Hrun & Hin & Hk & Hn).
  exists o. split; [exact Hrun |]. split; [| split; [| split; [| split]]].
  - unfold groupForDisplay. now rewrite Hrun.
  - apply sortKeys_sorted.
  - unfold sortedCategories.
    apply (Permutation_NoDup (Permutation_sym (sortKeys_Permutation _))).
    apply Hn. constructor.
  - intros c. unfold sortedCategories. split.
    + intros H. apply (Permutation_in _ (sortKeys_Permutation _)) in H.
      apply Hk in H as [[] | H]. exact H.
    + intros H.
      apply (Permutation_in _ (Permutation_sym (sortKeys_Permutation _))).
      apply Hk. now right.
  - intros c. now rewrite Hin.
Qed.

Lemma grouping_of_safe_labels_witness :
  let skills := [skillIn "z1" "Zeta"; skillIn "a1" "Alpha"; skillIn "u1" "";
                 skillIn "z2" "Zeta"] in
  exists o,
    groupSkills skills [] = inr o
    /\ groupForDisplay skills = inr (buildChoices o)
    /\ StronglySorted strLe (sortedCategories o)
    /\ NoDup (sortedCategories o)
    /\ (forall c, In c (sortedCategories o)
                  <-> exists s, In s skills /\ labelOf s = c)
    /\ (forall c, skillsIn o c = withLabel c skills).
Proof.
  intros skills. apply (grouping_of_safe_labels skills).
  repeat constructor.
Defined.

(** The example of the specification: categories Zeta, Alpha and the
    empty one come out as Alpha, Uncategorized, Zeta. *)
Example grouping_order_example :
  exists o,
    groupSkills [skillIn "z1" "Zeta"; skillIn "a1" "Alpha"; skillIn "u1" "";
                 skillIn "z2" "Zeta"] [] = inr o
    /\ sortedCategories o = [js "Alpha"; js "Uncategorized"; js "Zeta"]
    /\ map name (skillsIn o (js "Zeta")) = [js "z1"; js "z2"].
Proof. eexists. vm_compute. repeat split. Qed.

(** C5.  A top-level category directory named [constructor] gives its
    skills the label [constructor]; [skillsByCategory["constructor"]] is
    then the inherited [Object], which is truthy, so no array is created
    and [push] is not a function: the grouping throws instead of listing
    the categories. *)
Theorem C5_inherited_key_breaks_grouping :
  safeLabel (skillIn "lint" "constructor") = false
  /\ getProp [] (js "constructor") = Inherited
  /\ groupForDisplay [skillIn "fmt" "Alpha"; skillIn "lint" "constructor"]
     = inl (PushIsNotAFunction (js "constructor")).
Proof. vm_compute. repeat split. Qed.

(** ** The file system under the installer *)

Lemma lookupEntry_alterEntry y x f es :
  lookupEntry y (alterEntry x f es)
  = if strEqb y x then option_map f (lookupEntry x es) else lookupEntry y es.
Proof.
  induction es as [| [k c] es IH]; simpl.
  - now destruct (strEqb y x).
  - destruct (strEqb x k) eqn:Exk; simpl.
    + apply strEqb_eq in Exk. subst k.
      destruct (strEqb y x) eqn:Eyx; reflexivity.
    + rewrite IH. destruct (strEqb y x) eqn:Eyx; [| reflexivity].
      apply strEqb_eq in Eyx. subst y. now rewrite Exk.
Qed.

Lemma alterEntry_ext x f g es :
  (forall n, f n = g n) -> alterEntry x f es = alterEntry x g es.
Proof.
  intros H. induction es as [| [k c] es IH]; simpl; [reflexivity |].
  destruct (strEqb x k); [now rewrite H | now rewrite IH].
Qed.

Lemma alterEntry_compose x f g es :
  alterEntry x f (alterEntry x g es) = alterEntry x (fun n => f (g n)) es.
Proof.
  induction es as [| [k c] es IH]; simpl; [reflexivity |].
  destruct (strEqb x k) eqn:E; simpl; rewrite E; [reflexivity |].
  now rewrite IH.
Qed.

Lemma alterEntry_fix x f es :
  (forall c, lookupEntry x es = Some c -> f c = c) -> alterEntry x f es = es.
Proof.
  induction es as [| [k c] es IH]; simpl; intros H; [reflexivity |].
  destruct (strEqb x k).
  - now rewrite H.
  - now rewrite IH.
Qed.

Lemma lookupEntry_app x es es' :
  lookupEntry x (es ++ es')
  = match lookupEntry x es with
    | Some c => Some c
    | None => lookupEntry x es'
    end.
Proof.
  induction es as [| [k c] es IH]; simpl; [reflexivity |].
  now destruct (strEqb x k).
Qed.

Lemma lookupEntry_dropEntry y x es :
  lookupEntry y (dropEntry x es)
  = if strEqb y x then None else lookupEntry y es.
Proof.
  unfold dropEntry. induction es as [| [k c] es IH]; simpl.
  - now destruct (strEqb y x).
  - destruct (strEqb x k) eqn:Exk; simpl.
    + rewrite IH. destruct (strEqb y x) eqn:Eyx; [reflexivity |].
      apply strEqb_eq in Exk. subst k. now rewrite Eyx.
    + rewrite IH. destruct (strEqb y x) eqn:Eyx; [| reflexivity].
      apply strEqb_eq in Eyx. subst y. now rewrite Exk.
Qed.

Lemma dropEntry_absent x es : hasEntry x es = false -> dropEntry x es = es.
Proof.
  unfold hasEntry, dropEntry.
  induction es as [| [k c] es IH]; simpl; [reflexivity |].
  destruct (strEqb x k); [discriminate |].
  intros H. simpl. now rewrite IH.
Qed.

Lemma addEntry_dropEntry x t es :
  addEntry x t (dropEntry x es) = bindEntry x (Some t) es.
Proof.
  unfold addEntry, hasEntry. rewrite lookupEntry_dropEntry, strEqb_refl.
  reflexivity.
Qed.

Lemma lookupEntry_bindEntry y x ot es :
  lookupEntry y (bindEntry x ot es)
  = if strEqb y x then ot else lookupEntry y es.
Proof.
  unfold bindEntry. rewrite lookupEntry_app, lookupEntry_dropEntry.
  destruct (strEqb y x) eqn:E.
  - destruct ot as [t |]; simpl; [| reflexivity]. now rewrite E.
  - destruct (lookupEntry y es); [reflexivity |].
    destruct ot as [t |]; simpl; [| reflexivity]. now rewrite E.
Qed.

Lemma updateDir_ext p f g fs :
  (forall es, f es = g es) -> updateDir p f fs = updateDir p g fs.
Proof.
  intros H. revert fs. induction p as [| x p IH]; intros [c | l es]; simpl;
    try reflexivity.
  - now rewrite H.
  - f_equal. now apply alterEntry_ext.
Qed.

Lemma updateDir_compose p f g fs :
  updateDir p f (updateDir p g fs) = updateDir p (fun es => f (g es)) fs.
Proof.
  revert fs. induction p as [| x p IH]; intros [c | l es]; simpl;
    try reflexivity.
  f_equal. rewrite alterEntry_compose. now apply alterEntry_ext.
Qed.

Lemma updateDir_id p fs : updateDir p (fun es => es) fs = fs.
Proof.
  revert fs. induction p as [| x p IH]; intros [c | l es]; simpl;
    try reflexivity.
  f_equal. apply alterEntry_fix. intros c _. apply IH.
Qed.

(** An update that leaves the listing at [p] as it is changes nothing. *)
Lemma updateDir_fix p f fs l es :
  lookupPath p fs = Some (Dir l es) -> f es = es -> updateDir p f fs = fs.
Proof.
  revert fs. induction p as [| x p IH]; intros [c | l' es'] Hl Hf; simpl in *;
    try discriminate.
  - injection Hl as -> ->. now rewrite Hf.
  - f_equal. apply alterEntry_fix. intros c Hc. rewrite Hc in Hl.
    now apply IH.
Qed.

Lemma lookupPath_updateDir p f fs l es :
  lookupPath p fs = Some (Dir l es) ->
  lookupPath p (updateDir p f fs) = Some (Dir l (f es)).
Proof.
  revert fs. induction p as [| x p IH]; intros [c | l' es'] Hl; simpl in *;
    try discriminate.
  - now injection Hl as -> ->.
  - rewrite lookupEntry_alterEntry, strEqb_refl.
    destruct (lookupEntry x es') as [c |]; [| discriminate].
    simpl. now apply IH.
Qed.

Lemma isDirAt_updateDir p f fs :
  isDirAt p fs = true -> isDirAt p (updateDir p f fs) = true.
Proof.
  unfold isDirAt. destruct (lookupPath p fs) as [[c | l es] |] eqn:E;
    try discriminate.
  intros _. now rewrite (lookupPath_updateDir _ f _ _ _ E).
Qed.

Lemma removePath_snoc base x fs :
  removePath (base ++ [x]) fs = updateDir base (dropEntry x) fs.
Proof.
  revert fs. induction base as [| b base IH]; intros [c | l es]; simpl;
    try reflexivity.
  destruct (base ++ [x]) eqn:E.
  - destruct base; discriminate.
  - rewrite <- E in IH |- *. f_equal. now apply alterEntry_ext.
Qed.

Lemma placeAt_snoc base x t fs :
  placeAt (base ++ [x]) t fs = updateDir base (addEntry x t) fs.
Proof.
  revert fs. induction base as [| b base IH]; intros [c | l es]; simpl;
    try reflexivity.
  destruct (base ++ [x]) eqn:E.
  - destruct base; discriminate.
  - rewrite <- E in IH |- *. f_equal. now apply alterEntry_ext.
Qed.

Lemma lookupPath_app p q fs :
  lookupPath (p ++ q) fs
  = match lookupPath p fs with
    | Some n => lookupPath q n
    | None => None
    end.
Proof.
  revert fs. induction p as [| x p IH]; intros fs; simpl; [reflexivity |].
  destruct fs as [c | l es]; [reflexivity |].
  destruct (lookupEntry x es); [apply IH | reflexivity].
Qed.

Lemma isPrefix_app_l p q r : isPrefix p q = true -> isPrefix p (q ++ r) = true.
Proof.
  revert q. induction p as [| x p IH]; intros [| y q]; simpl;
    try reflexivity; try discriminate.
  intros H. apply andb_true_iff in H as [H1 H2].
  rewrite H1. simpl. now apply IH.
Qed.

Lemma apart_cons x p q : apart (x :: p) (x :: q) = apart p q.
Proof. unfold apart. simpl. now rewrite strEqb_refl. Qed.

Lemma apart_not_prefix p q : apart p q = true -> isPrefix p q = false.
Proof.
  unfold apart. intros H. apply andb_true_iff in H as [H _].
  now apply negb_true_iff in H.
Qed.

(** A source apart from a target is not on the way to the target
    directory. *)
Lemma apart_target_base src base x :
  apart src (base ++ [x]) = true -> isPrefix src base = false.
Proof.
  intros H. apply apart_not_prefix in H.
  destruct (isPrefix src base) eqn:E; [| reflexivity].
  now rewrite (isPrefix_app_l _ _ [x] E) in H.
Qed.

(** An update of the listing at [base] that keeps every name other than
    [x] is not seen from a path apart from [base/x]. *)
Lemma lookupPath_updateDir_apart base x f src :
  (forall es y, strEqb y x = false -> lookupEntry y (f es) = lookupEntry y es) ->
  forall d,
    apart src (base ++ [x]) = true ->
    lookupPath src (updateDir base f d) = lookupPath src d.
Proof.
  intros Hf. revert src.
  induction base as [| b base IH]; intros [| y r] d Hap;
    try (unfold apart in Hap; simpl in Hap; discriminate).
  - destruct d as [c | l es]; [reflexivity |]. simpl.
    rewrite Hf; [reflexivity |].
    unfold apart in Hap. simpl in Hap.
    rewrite strEqb_sym. destruct (strEqb x y); simpl in Hap.
    + rewrite andb_false_r in Hap. discriminate.
    + reflexivity.
  - destruct d as [c | l es]; [reflexivity |]. simpl.
    rewrite lookupEntry_alterEntry.
    destruct (strEqb y b) eqn:E; [| reflexivity].
    apply strEqb_eq in E. subst y.
    change ((b :: base) ++ [x]) with (b :: (base ++ [x])) in Hap.
    rewrite apart_cons in Hap.
    destruct (lookupEntry b es) as [c |]; simpl; [| reflexivity].
    now apply IH.
Qed.

Lemma lookupPath_mkdirs p : lookupPath p (mkdirs p) = Some (Dir true []).
Proof.
  induction p as [| x p IH]; simpl; [reflexivity |].
  now rewrite strEqb_refl.
Qed.

Lemma lookupPath_mkdirs_none q p :
  isPrefix q p = false -> lookupPath q (mkdirs p) = None.
Proof.
  revert q. induction p as [| x p IH]; intros [| y q] H; simpl in *;
    try discriminate; try reflexivity.
  destruct (strEqb y x); simpl in *; [now apply IH | reflexivity].
Qed.

Lemma ensureDirAt_isDir p :
  forall fs fs', ensureDirAt p fs = Some fs' -> isDirAt p fs' = true.
Proof.
  unfold isDirAt.
  induction p as [| x p IH]; intros [c | l es] fs' H; simpl in H;
    try discriminate.
  - injection H as <-. reflexivity.
  - destruct (lookupEntry x es) as [c |] eqn:Ex.
    + destruct (ensureDirAt p c) as [c' |] eqn:Ec; [| discriminate].
      injection H as <-. simpl.
      rewrite lookupEntry_alterEntry, strEqb_refl, Ex. simpl.
      now apply (IH c).
    + injection H as <-. simpl.
      rewrite lookupEntry_app, Ex. simpl. rewrite strEqb_refl.
      now rewrite lookupPath_mkdirs.
Qed.

Lemma ensureDirAt_noop p :
  forall fs, isDirAt p fs = true -> ensureDirAt p fs = Some fs.
Proof.
  unfold isDirAt.
  induction p as [| x p IH]; intros [c | l es] H; simpl in *;
    try discriminate; try reflexivity.
  destruct (lookupEntry x es) as [c |] eqn:Ex; [| discriminate].
  rewrite (IH c H). f_equal. f_equal.
  apply alterEntry_fix. intros c' Hc'. congruence.
Qed.

(** [mkdir -p] is not seen from a path that is not on the way. *)
Lemma ensureDirAt_lookup_other p :
  forall q fs fs',
    isPrefix q p = false ->
    ensureDirAt p fs = Some fs' ->
    lookupPath q fs' = lookupPath q fs.
Proof.
  induction p as [| x p IH]; intros q [c | l es] fs' Hq H; simpl in H;
    try discriminate.
  - now injection H as <-.
  - destruct q as [| y q]; [discriminate |]. simpl in Hq.
    destruct (lookupEntry x es) as [c |] eqn:Ex.
    + destruct (ensureDirAt p c) as [c' |] eqn:Ec; [| discriminate].
      injection H as <-. simpl. rewrite lookupEntry_alterEntry.
      destruct (strEqb y x) eqn:E; [| reflexivity].
      apply strEqb_eq in E. subst y. rewrite Ex. simpl.
      simpl in Hq. now apply (IH q c).
    + injection H as <-. simpl. rewrite lookupEntry_app.
      destruct (strEqb y x) eqn:E.
      * apply strEqb_eq in E. subst y. rewrite Ex. simpl.
        rewrite strEqb_refl. simpl in Hq.
        now apply lookupPath_mkdirs_none.
      * destruct (lookupEntry y es); [reflexivity |]. simpl.
        now rewrite E.
Qed.

(** ** The installer, step by step *)

Lemma pathExists_target base x d l es :
  lookupPath base d = Some (Dir l es) ->
  pathExists (base ++ [x]) d = hasEntry x es.
Proof.
  intros H. unfold pathExists, hasEntry.
  rewrite lookupPath_app, H. simpl. now destruct (lookupEntry x es).
Qed.

(** Whether the target exists or not, after lines 128-130 its name is
    unlinked from the target directory. *)
Lemma unlink_target base x d :
  isDirAt base d = true ->
  (if pathExists (base ++ [x]) d then removePath (base ++ [x]) d else d)
  = updateDir base (dropEntry x) d.
Proof.
  unfold isDirAt. intros H.
  destruct (lookupPath base d) as [[c | l es] |] eqn:E; try discriminate.
  rewrite (pathExists_target _ _ _ _ _ E).
  destruct (hasEntry x es) eqn:Hx.
  - apply removePath_snoc.
  - symmetry. apply (updateDir_fix _ _ _ _ _ E). now apply dropEntry_absent.
Qed.

Lemma dropEntry_keeps es x y :
  strEqb y x = false -> lookupEntry y (dropEntry x es) = lookupEntry y es.
Proof. intros H. now rewrite lookupEntry_dropEntry, H. Qed.

Lemma bindEntry_keeps ot es x y :
  strEqb y x = false -> lookupEntry y (bindEntry x ot es) = lookupEntry y es.
Proof. intros H. now rewrite lookupEntry_bindEntry, H. Qed.

Lemma bindEntry_none x es : bindEntry x None es = dropEntry x es.
Proof. unfold bindEntry. simpl. apply app_nil_r. Qed.

Lemma place_after_unlink base x t d :
  placeAt (base ++ [x]) t (updateDir base (dropEntry x) d)
  = updateDir base (bindEntry x (Some t)) d.
Proof.
  rewrite placeAt_snoc, updateDir_compose.
  apply updateDir_ext. intros es. apply addEntry_dropEntry.
Qed.

Lemma unlink_run base x w :
  isDirAt base (disk w) = true ->
  bind (fsPathExists (base ++ [x]))
       (fun present => if present then fsRemove (base ++ [x]) else ret tt) w
  = (Returned tt, mkWorld (updateDir base (dropEntry x) (disk w)) (console w)).
Proof.
  intros Hdir. destruct w as [d out]. simpl in *.
  rewrite <- (unlink_target base x d Hdir).
  unfold bind, fsPathExists, fsRemove, getDisk, setDisk, ret. simpl.
  now destruct (pathExists (base ++ [x]) d).
Qed.

(** Once a name is unlinked, nothing is found at it. *)
Lemma lookupPath_unlinked base x :
  forall d, lookupPath (base ++ [x]) (updateDir base (dropEntry x) d) = None.
Proof.
  induction base as [| b base IH]; intros [c | l es]; try reflexivity.
  - simpl. now rewrite lookupEntry_dropEntry, strEqb_refl.
  - cbn [app updateDir lookupPath].
    rewrite lookupEntry_alterEntry, strEqb_refl.
    destruct (lookupEntry b es) as [child |]; [apply IH | reflexivity].
Qed.

Lemma fsCopy_run leftover overwrite src base x d out :
  isDirAt base d = true ->
  lookupPath (base ++ [x]) d = None ->
  apart src (base ++ [x]) = true ->
  fsCopy leftover overwrite src (base ++ [x]) (mkWorld d out)
  = match copyResultOf leftover src d with
    | CopyDone t => (Returned tt, mkWorld (placeAt (base ++ [x]) t d) out)
    | CopyFailed residue e =>
        (Thrown e,
         mkWorld (match residue with
                  | Some part => placeAt (base ++ [x]) part d
                  | None => d
                  end) out)
    end.
Proof.
  intros Hdir Hfree Hap.
  unfold fsCopy, copyResultOf, bind, getDisk, setDisk, throw. simpl.
  destruct (lookupPath src d) as [t |]; [| reflexivity].
  rewrite (apart_not_prefix _ _ Hap). simpl.
  rewrite removelast_last, (ensureDirAt_noop _ _ Hdir), Hfree.
  destruct (firstUnreadable t) as [q |]; reflexivity.
Qed.

(** One round of the installing loop, on a world whose target directory
    exists, for a skill whose source is apart from its target. *)
Lemma installOne_run leftover overwrite base s w :
  isDirAt base (disk w) = true ->
  apart (path s) (base ++ [name s]) = true ->
  installOne leftover overwrite base s w
  = match copyResultOf leftover (path s) (disk w) with
    | CopyDone t =>
        (Returned tt,
         mkWorld (updateDir base (bindEntry (name s) (Some t)) (disk w))
                 (console w ++ [MsgInstalled (displayName s)]))
    | CopyFailed residue e =>
        (Thrown e,
         mkWorld (updateDir base (bindEntry (name s) residue) (disk w))
                 (console w))
    end.
Proof.
  intros Hdir Hap. unfold installOne.
  unfold bind at 1.
  rewrite (unlink_run base (name s) w Hdir).
  unfold bind at 1.
  rewrite fsCopy_run;
    [| now apply isDirAt_updateDir | apply lookupPath_unlinked | exact Hap].
  assert (Hsrc : copyResultOf leftover (path s)
                   (updateDir base (dropEntry (name s)) (disk w))
                 = copyResultOf leftover (path s) (disk w)).
  { unfold copyResultOf.
    rewrite (lookupPath_updateDir_apart base (name s)); auto.
    intros es y Hy. now apply dropEntry_keeps. }
  rewrite Hsrc.
  destruct (copyResultOf leftover (path s) (disk w)) as [t | residue e].
  - rewrite place_after_unlink. reflexivity.
  - destruct residue as [part |].
    + rewrite place_after_unlink. reflexivity.
    + f_equal. f_equal. apply updateDir_ext. intros es.
      now rewrite bindEntry_none.
Qed.

Lemma installPlan_ext leftover d d' skills :
  (forall s, In s skills -> lookupPath (path s) d = lookupPath (path s) d') ->
  installPlan leftover d skills = installPlan leftover d' skills.
Proof.
  induction skills as [| s rest IH]; intros H; simpl; [reflexivity |].
  unfold copyResultOf. rewrite (H s) by now left.
  rewrite IH; [reflexivity |]. intros s' Hs'. apply H. now right.
Qed.

Lemma applyOps_cons x ot ops es :
  applyOps ((x, ot) :: ops) es = applyOps ops (bindEntry x ot es).
Proof. reflexivity. Qed.

(** The installing loop is the run its plan describes. *)
Lemma installLoop_run leftover overwrite base skills :
  forall w,
    isDirAt base (disk w) = true ->
    (forall s t, In s skills -> In t skills ->
                 apart (path s) (base ++ [name t]) = true) ->
    forEach skills (installOne leftover overwrite base) w
    = let '(ops, log, err) := installPlan leftover (disk w) skills in
      (outcomeOf err,
       mkWorld (updateDir base (applyOps ops) (disk w)) (console w ++ log)).
Proof.
  induction skills as [| s rest IH]; intros w Hdir Hap.
  - simpl. unfold ret. destruct w as [d out]. simpl.
    now rewrite updateDir_id, app_nil_r.
  - cbn [forEach]. unfold bind at 1.
    rewrite installOne_run; [| exact Hdir | apply Hap; now left].
    cbn [installPlan].
    destruct (copyResultOf leftover (path s) (disk w)) as [t | residue e].
    + rewrite IH.
      * cbn [disk console].
        rewrite (installPlan_ext leftover _ (disk w)).
        -- destruct (installPlan leftover (disk w) rest) as [[ops log] err].
           rewrite updateDir_compose. rewrite <- app_assoc. reflexivity.
        -- intros s' Hs'.
           apply (lookupPath_updateDir_apart base (name s)).
           ++ intros es y Hy. now apply bindEntry_keeps.
           ++ apply Hap; [now right | now left].
      * cbn [disk]. now apply isDirAt_updateDir.
      * intros s' t' Hs' Ht'. apply Hap; now right.
    + simpl. now rewrite app_nil_r.
Qed.

Lemma sourcesApart_spec targetDir skills :
  sourcesApart targetDir skills = true ->
  forall s t, In s skills -> In t skills ->
              apart (path s) (targetPathOf targetDir ++ [name t]) = true.
Proof.
  unfold sourcesApart. intros H s t Hs Ht.
  rewrite forallb_forall in H. specialize (H s Hs).
  rewrite forallb_forall in H. exact (H t Ht).
Qed.

(** [installSkills] is the run its plan describes, after the target
    directory has been made. *)
Lemma installSkills_run leftover overwrite skills targetDir w :
  sourcesApart targetDir skills = true ->
  installSkills leftover overwrite skills targetDir w
  = match ensureDirAt (targetPathOf targetDir) (disk w) with
    | None => (Thrown (mkdirError (targetPathOf targetDir) (disk w)), w)
    | Some d' =>
        let '(ops, log, err) := installPlan leftover (disk w) skills in
        (outcomeOf err,
         mkWorld (updateDir (targetPathOf targetDir) (applyOps ops) d')
                 (console w
                  ++ MsgInstalling (length skills) (targetPathOf targetDir)
                  :: log
                  ++ match err with None => [MsgSuccess] | Some _ => [] end))
    end.
Proof.
  intros Hap. pose proof (sourcesApart_spec _ _ Hap) as Hap'.
  unfold installSkills. fold (targetPathOf targetDir).
  set (base := targetPathOf targetDir) in *.
  unfold bind at 1. unfold fsEnsureDir, bind at 1, getDisk.
  destruct (ensureDirAt base (disk w)) as [d' |] eqn:Hens; [| reflexivity].
  unfold setDisk. unfold bind at 1. unfold consoleLog at 1. cbn [disk console].
  unfold bind at 1.
  rewrite installLoop_run;
    [| cbn [disk]; now apply (ensureDirAt_isDir _ _ _ Hens) | exact Hap'].
  cbn [disk console].
  rewrite (installPlan_ext leftover d' (disk w)).
  - destruct (installPlan leftover (disk w) skills) as [[ops log] err].
    destruct err as [e |]; simpl.
    + now rewrite <- app_assoc, app_nil_r.
    + unfold consoleLog. simpl. now rewrite <- !app_assoc.
  - intros s Hs.
    apply (ensureDirAt_lookup_other base (path s) (disk w) d');
      [| exact Hens].
    apply (apart_target_base _ _ (name s)). now apply Hap'.
Qed.

(** ** The listing of the target directory *)

Lemma keepOthers_nil es : keepOthers [] es = es.
Proof.
  unfold keepOthers. simpl.
  induction es as [| e es IH]; simpl; [reflexivity | now rewrite IH].
Qed.

Lemma keepOthers_cons x ot ops es :
  keepOthers ((x, ot) :: ops) es = keepOthers ops (dropEntry x es).
Proof.
  unfold keepOthers, dropEntry. simpl.
  induction es as [| [y c] es IH]; simpl; [reflexivity |].
  rewrite (strEqb_sym x y).
  destruct (strEqb y x); simpl; [exact IH |].
  destruct (inNames y (opNames ops)); simpl; [exact IH | now rewrite IH].
Qed.

Lemma keepOthers_optEntry x ot ops :
  keepOthers ops (optEntry x ot)
  = if inNames x (opNames ops) then [] else optEntry x ot.
Proof.
  unfold keepOthers. destruct ot as [t |]; simpl.
  - now destruct (inNames x (opNames ops)).
  - now destruct (inNames x (opNames ops)).
Qed.

(** The listing after the operations: the entries they do not name, then
    the last binding of each name. *)
Lemma applyOps_closed ops :
  forall es, applyOps ops es = keepOthers ops es ++ survivors ops.
Proof.
  induction ops as [| [x ot] ops IH]; intros es.
  - simpl. now rewrite keepOthers_nil, app_nil_r.
  - rewrite applyOps_cons, IH. unfold bindEntry.
    unfold keepOthers at 1. rewrite filter_app.
    fold (keepOthers ops (dropEntry x es)).
    fold (keepOthers ops (optEntry x ot)).
    rewrite keepOthers_optEntry, <- keepOthers_cons with (ot := ot).
    simpl. now rewrite <- app_assoc.
Qed.

Lemma keepOthers_idem ops es :
  keepOthers ops (keepOthers ops es) = keepOthers ops es.
Proof.
  unfold keepOthers. induction es as [| e es IH]; simpl; [reflexivity |].
  destruct (negb (inNames (fst e) (opNames ops))) eqn:E; simpl.
  - now rewrite E, IH.
  - exact IH.
Qed.

Lemma inNames_In x xs : inNames x xs = true <-> In x xs.
Proof.
  unfold inNames. rewrite existsb_exists. split.
  - intros (y & Hy & E). apply strEqb_eq in E. now subst.
  - intros H. exists x. split; [exact H | apply strEqb_refl].
Qed.

Lemma survivors_named ops :
  Forall (fun e => inNames (fst e) (opNames ops) = true) (survivors ops).
Proof.
  induction ops as [| [x ot] ops IH]; simpl; [constructor |].
  apply Forall_app. split.
  - destruct (inNames x (opNames ops)); [constructor |].
    destruct ot as [t |]; simpl; [| constructor].
    constructor; [| constructor]. simpl. now rewrite strEqb_refl.
  - eapply Forall_impl; [| exact IH]. intros e He. simpl.
    rewrite He. apply orb_true_r.
Qed.

Lemma keepOthers_survivors ops : keepOthers ops (survivors ops) = [].
Proof.
  unfold keepOthers. pose proof (survivors_named ops) as H.
  induction H as [| e es He _ IH]; simpl; [reflexivity |].
  now rewrite He.
Qed.

(** Running the same operations again changes nothing. *)
Lemma applyOps_idem ops es : applyOps ops (applyOps ops es) = applyOps ops es.
Proof.
  rewrite !applyOps_closed. unfold keepOthers at 1. rewrite filter_app.
  fold (keepOthers ops (keepOthers ops es)).
  fold (keepOthers ops (survivors ops)).
  now rewrite keepOthers_idem, keepOthers_survivors, app_nil_r.
Qed.

Lemma applyOps_keeps x ops :
  inNames x (opNames ops) = false ->
  forall es, lookupEntry x (applyOps ops es) = lookupEntry x es.
Proof.
  induction ops as [| [y ot] ops IH]; intros H es; [reflexivity |].
  simpl in H. apply orb_false_iff in H as [Hxy Hrest].
  rewrite applyOps_cons, IH by exact Hrest.
  now apply bindEntry_keeps.
Qed.

Lemma applyOps_app ops1 ops2 es :
  applyOps (ops1 ++ ops2) es = applyOps ops2 (applyOps ops1 es).
Proof. unfold applyOps. apply fold_left_app. Qed.

(** The name [x] ends bound to what its last operation bound it to. *)
Lemma applyOps_last_binding pre x ot post es :
  inNames x (opNames post) = false ->
  lookupEntry x (applyOps (pre ++ (x, ot) :: post) es) = ot.
Proof.
  intros H. rewrite applyOps_app, applyOps_cons, applyOps_keeps by exact H.
  now rewrite lookupEntry_bindEntry, strEqb_refl.
Qed.

Lemma lookupPath_target base x f d :
  isDirAt base d = true ->
  exists l es,
    lookupPath base d = Some (Dir l es)
    /\ lookupPath (base ++ [x]) (updateDir base f d) = lookupEntry x (f es).
Proof.
  unfold isDirAt. intros H.
  destruct (lookupPath base d) as [[c | l es] |] eqn:E; try discriminate.
  exists l, es. split; [reflexivity |].
  rewrite lookupPath_app, (lookupPath_updateDir _ f _ _ _ E). simpl.
  now destruct (lookupEntry x (f es)).
Qed.

Lemma lookup_applyOps_apart base src ops :
  (forall x, In x (opNames ops) -> apart src (base ++ [x]) = true) ->
  forall d,
    lookupPath src (updateDir base (applyOps ops) d) = lookupPath src d.
Proof.
  induction ops as [| [x ot] ops IH]; intros H d.
  - rewrite (updateDir_ext _ _ (fun es => es)); [now rewrite updateDir_id |].
    reflexivity.
  - rewrite (updateDir_ext _ _
               (fun es => applyOps ops (bindEntry x ot es)))
      by reflexivity.
    rewrite <- updateDir_compose, IH.
    + apply (lookupPath_updateDir_apart base x).
      * intros es y Hy. now apply bindEntry_keeps.
      * apply H. now left.
    + intros y Hy. apply H. now right.
Qed.

(** ** The plan of a run *)

Lemma copySucceeds_source leftover d k :
  copySucceeds leftover d k = true ->
  exists t,
    lookupPath (path k) d = Some t
    /\ copyResultOf leftover (path k) d = CopyDone t.
Proof.
  unfold copySucceeds, copyResultOf.
  destruct (lookupPath (path k) d) as [t |]; [| discriminate].
  destruct (firstUnreadable t); [discriminate |].
  intros _. now exists t.
Qed.


Lemma installPlan_ok leftover d skills :
  forallb (copySucceeds leftover d) skills = true ->
  installPlan leftover d skills
  = (bindingsOf d skills, successLines skills, None).
Proof.
  induction skills as [| k skills IH]; intros H; simpl; [reflexivity |].
  simpl in H. apply andb_true_iff in H as [Hk H].
  destruct (copySucceeds_source _ _ _ Hk) as (t & Ht & Hc).
  rewrite Hc, (IH H), Ht. reflexivity.
Qed.

Lemma installPlan_returns leftover d skills :
  snd (installPlan leftover d skills) = None ->
  forallb (copySucceeds leftover d) skills = true.
Proof.
  induction skills as [| k skills IH]; simpl; [reflexivity |].
  unfold copySucceeds at 1.
  destruct (copyResultOf leftover (path k) d) as [t | residue e].
  - destruct (installPlan leftover d skills) as [[ops log] err].
    simpl in *. exact IH.
  - discriminate.
Qed.

Lemma installPlan_names leftover d skills :
  forall x,
    In x (opNames (fst (fst (installPlan leftover d skills)))) ->
    exists s, In s skills /\ name s = x.
Proof.
  induction skills as [| k skills IH]; simpl; intros x Hx; [contradiction |].
  destruct (copyResultOf leftover (path k) d) as [t | residue e].
  - destruct (installPlan leftover d skills) as [[ops log] err].
    simpl in *. destruct Hx as [<- | Hx].
    + exists k. split; [now left | reflexivity].
    + destruct (IH x Hx) as (s & Hs & E). exists s. split; [now right | exact E].
  - simpl in Hx. destruct Hx as [<- | []].
    exists k. split; [now left | reflexivity].
Qed.

Lemma not_In_inNames x xs : ~ In x xs -> inNames x xs = false.
Proof.
  intros H. destruct (inNames x xs) eqn:E; [| reflexivity].
  apply inNames_In in E. contradiction.
Qed.



(** ** Idempotence *)

Lemma fsCopy_general leftover overwrite src base x d out :
  isDirAt base d = true ->
  lookupPath (base ++ [x]) d = None ->
  fsCopy leftover overwrite src (base ++ [x]) (mkWorld d out)
  = let '(b, err) :=
      copyDecision leftover src (base ++ [x]) (lookupPath src d) in
    (outcomeOf err,
     mkWorld (match b with
              | Some part => placeAt (base ++ [x]) part d
              | None => d
              end) out).
Proof.
  intros Hdir Hfree.
  unfold fsCopy, copyDecision, bind, getDisk, setDisk, throw. simpl.
  destruct (lookupPath src d) as [t |]; [| reflexivity].
  destruct (isPrefix src (base ++ [x])
            && (isDirectory t || isPrefix (base ++ [x]) src));
    [reflexivity |].
  rewrite removelast_last, (ensureDirAt_noop _ _ Hdir), Hfree.
  destruct (firstUnreadable t) as [q |]; reflexivity.
Qed.

(** One round of the installing loop, wherever the source lies. *)
Lemma installOne_general leftover overwrite base s w :
  isDirAt base (disk w) = true ->
  installOne leftover overwrite base s w
  = let '(b, err) :=
      copyDecision leftover (path s) (base ++ [name s])
        (lookupPath (path s) (updateDir base (dropEntry (name s)) (disk w))) in
    (outcomeOf err,
     mkWorld (updateDir base (bindEntry (name s) b) (disk w))
             (console w
              ++ match err with
                 | None => [MsgInstalled (displayName s)]
                 | Some _ => []
                 end)).
Proof.
  intros Hdir. unfold installOne.
  unfold bind at 1.
  rewrite (unlink_run base (name s) w Hdir).
  unfold bind at 1.
  rewrite fsCopy_general;
    [| now apply isDirAt_updateDir | apply lookupPath_unlinked].
  destruct (copyDecision leftover (path s) (base ++ [name s])
              (lookupPath (path s)
                 (updateDir base (dropEntry (name s)) (disk w))))
    as [b err].
  assert (Hdisk : match b with
                  | Some part =>
                      placeAt (base ++ [name s]) part
                        (updateDir base (dropEntry (name s)) (disk w))
                  | None => updateDir base (dropEntry (name s)) (disk w)
                  end
                  = updateDir base (bindEntry (name s) b) (disk w)).
  { destruct b as [part |].
    - apply place_after_unlink.
    - apply updateDir_ext. intros es. now rewrite bindEntry_none. }
  rewrite Hdisk. destruct err as [e |]; simpl.
  - now rewrite app_nil_r.
  - reflexivity.
Qed.

Lemma forEach_general leftover overwrite base skills :
  forall w,
    isDirAt base (disk w) = true ->
    forEach skills (installOne leftover overwrite base) w
    = let '(ops, log, err) := runPlan leftover base (disk w) skills in
      (outcomeOf err,
       mkWorld (updateDir base (applyOps ops) (disk w)) (console w ++ log)).
Proof.
  induction skills as [| s rest IH]; intros w Hdir.
  - simpl. unfold ret. destruct w as [d out]. simpl.
    now rewrite updateDir_id, app_nil_r.
  - cbn [forEach runPlan]. unfold bind at 1.
    rewrite installOne_general by exact Hdir.
    destruct (copyDecision leftover (path s) (base ++ [name s])
                (lookupPath (path s)
                   (updateDir base (dropEntry (name s)) (disk w))))
      as [b [e |]].
    + simpl. reflexivity.
    + cbn [outcomeOf]. rewrite IH by (cbn [disk]; now apply isDirAt_updateDir).
      cbn [disk console].
      destruct (runPlan leftover base
                  (updateDir base (bindEntry (name s) b) (disk w)) rest)
        as [[ops log] err].
      rewrite updateDir_compose, <- app_assoc. reflexivity.
Qed.

Lemma isDirAt_cons b base l es :
  isDirAt (b :: base) (Dir l es) = true ->
  exists c, lookupEntry b es = Some c /\ isDirAt base c = true.
Proof.
  unfold isDirAt. simpl. destruct (lookupEntry b es) as [c |]; [| discriminate].
  intros H. now exists c.
Qed.

Lemma isDirAt_is_dir base d :
  isDirAt base d = true -> exists l es, d = Dir l es.
Proof.
  unfold isDirAt. destruct d as [c | l es].
  - destruct base; simpl; discriminate.
  - intros _. now exists l, es.
Qed.

(** Binding a name in the directory at [base] is local: what is then
    found at a path depends only on what was found there before. *)
Lemma lookupPath_bind_local base x b :
  forall q d d',
    isDirAt base d = true -> isDirAt base d' = true ->
    lookupPath q d = lookupPath q d' ->
    lookupPath q (updateDir base (bindEntry x b) d)
    = lookupPath q (updateDir base (bindEntry x b) d').
Proof.
  induction base as [| b0 base IH]; intros q d d' Hd Hd' Hq.
  - destruct (isDirAt_is_dir _ _ Hd) as (l & es & ->).
    destruct (isDirAt_is_dir _ _ Hd') as (l' & es' & ->).
    destruct q as [| y r]; [simpl in Hq; now injection Hq as -> -> |].
    simpl in *. rewrite !lookupEntry_bindEntry.
    destruct (strEqb y x); [reflexivity | exact Hq].
  - destruct (isDirAt_is_dir _ _ Hd) as (l & es & ->).
    destruct (isDirAt_is_dir _ _ Hd') as (l' & es' & ->).
    destruct q as [| y r]; [simpl in Hq; now injection Hq as -> -> |].
    destruct (isDirAt_cons _ _ _ _ Hd) as (c & Hc & Hdc).
    destruct (isDirAt_cons _ _ _ _ Hd') as (c' & Hc' & Hdc').
    simpl in *. rewrite !lookupEntry_alterEntry.
    destruct (strEqb y b0) eqn:E; [| exact Hq].
    apply strEqb_eq in E. subst y. rewrite Hc, Hc' in *. simpl.
    now apply IH.
Qed.

(** Two runs that find the same sources make the same decisions. *)
Lemma runPlan_agree leftover base skills :
  forall d d',
    isDirAt base d = true -> isDirAt base d' = true ->
    (forall s, In s skills -> lookupPath (path s) d = lookupPath (path s) d') ->
    runPlan leftover base d skills = runPlan leftover base d' skills.
Proof.
  induction skills as [| s rest IH]; intros d d' Hd Hd' Hsame; [reflexivity |].
  cbn [runPlan].
  assert (Hunlink : lookupPath (path s) (updateDir base (dropEntry (name s)) d)
                    = lookupPath (path s)
                        (updateDir base (dropEntry (name s)) d')).
  { rewrite (updateDir_ext _ (dropEntry (name s)) (bindEntry (name s) None))
      by (intros es; now rewrite bindEntry_none).
    rewrite (updateDir_ext _ (dropEntry (name s)) (bindEntry (name s) None) d')
      by (intros es; now rewrite bindEntry_none).
    apply lookupPath_bind_local; auto. apply Hsame. now left. }
  rewrite Hunlink.
  destruct (copyDecision leftover (path s) (base ++ [name s])
              (lookupPath (path s) (updateDir base (dropEntry (name s)) d')))
    as [b [e |]]; [reflexivity |].
  rewrite (IH (updateDir base (bindEntry (name s) b) d)
              (updateDir base (bindEntry (name s) b) d')).
  - reflexivity.
  - now apply isDirAt_updateDir.
  - now apply isDirAt_updateDir.
  - intros s' Hs'. apply lookupPath_bind_local; auto. apply Hsame. now right.
Qed.

Lemma isPrefix_split q base :
  isPrefix q base = true -> exists r, base = q ++ r.
Proof.
  revert base. induction q as [| y q IH]; intros base H.
  - now exists base.
  - destruct base as [| b base]; [discriminate |].
    simpl in H. apply andb_true_iff in H as [E H].
    apply strEqb_eq in E. subst y.
    destruct (IH base H) as (r & ->). now exists r.
Qed.

(** Whether [base] is a directory is read off what is found on the way to
    it. *)
Lemma isDirAt_from_prefix q base d d' :
  isPrefix q base = true ->
  lookupPath q d = lookupPath q d' ->
  isDirAt base d = true -> isDirAt base d' = true.
Proof.
  intros Hp Hq. destruct (isPrefix_split _ _ Hp) as (r & ->).
  unfold isDirAt. now rewrite !lookupPath_app, Hq.
Qed.

(** [installSkills] is the run its plan describes, wherever the sources
    lie. *)
Lemma installSkills_general leftover overwrite skills targetDir w :
  installSkills leftover overwrite skills targetDir w
  = match ensureDirAt (targetPathOf targetDir) (disk w) with
    | None => (Thrown (mkdirError (targetPathOf targetDir) (disk w)), w)
    | Some d' =>
        let '(ops, log, err) :=
          runPlan leftover (targetPathOf targetDir) d' skills in
        (outcomeOf err,
         mkWorld (updateDir (targetPathOf targetDir) (applyOps ops) d')
                 (console w
                  ++ MsgInstalling (length skills) (targetPathOf targetDir)
                  :: log
                  ++ match err with None => [MsgSuccess] | Some _ => [] end))
    end.
Proof.
  unfold installSkills. fold (targetPathOf targetDir).
  set (base := targetPathOf targetDir) in *.
  unfold bind at 1. unfold fsEnsureDir, bind at 1, getDisk.
  destruct (ensureDirAt base (disk w)) as [d' |] eqn:Hens; [| reflexivity].
  unfold setDisk. unfold bind at 1. unfold consoleLog at 1. cbn [disk console].
  unfold bind at 1.
  rewrite forEach_general
    by (cbn [disk]; now apply (ensureDirAt_isDir _ _ _ Hens)).
  cbn [disk console].
  destruct (runPlan leftover base d' skills) as [[ops log] err].
  destruct err as [e |]; simpl.
  - now rewrite <- app_assoc, app_nil_r.
  - unfold consoleLog. simpl. now rewrite <- !app_assoc.
Qed.

(** Sources that overlap no place the installer writes are left as they
    were: the condition of C6 holds for them. *)
Lemma install_leaves_apart_sources leftover overwrite skills targetDir w :
  sourcesApart targetDir skills = true ->
  forall s, In s skills ->
    lookupPath (path s)
      (disk (snd (installSkills leftover overwrite skills targetDir w)))
    = lookupPath (path s) (disk w).
Proof.
  intros Hap s Hs. pose proof (sourcesApart_spec _ _ Hap) as Hap'.
  rewrite (installSkills_run _ _ _ _ _ Hap).
  set (base := targetPathOf targetDir) in *.
  destruct (ensureDirAt base (disk w)) as [d' |] eqn:Hens; [| reflexivity].
  destruct (installPlan leftover (disk w) skills) as [[ops log] err] eqn:Hplan.
  cbn [snd disk]. rewrite lookup_applyOps_apart.
  - apply (ensureDirAt_lookup_other base (path s) (disk w) d'); [| exact Hens].
    apply (apart_target_base _ _ (name s)). now apply Hap'.
  - intros x Hx.
    destruct (installPlan_names leftover (disk w) skills x) as (t & Ht & <-).
    + now rewrite Hplan.
    + now apply Hap'.
Qed.

(** C6.  When the first run of [installSkills] has left the source of
    every selected skill as it was, a second run with the same selection
    and destination, started from the world the first run left, leaves the
    disk exactly as the first run left it, and ends the same way. *)
Theorem C6_install_is_idempotent :
  forall (leftover : node -> option node)
         (overwrite : node -> node -> option node * option fserror)
         (skills : list SkillRecord)
         (targetDir : fspath) (w : world),
    let first := installSkills leftover overwrite skills targetDir w in
    let second :=
      installSkills leftover overwrite skills targetDir (snd first) in
    (forall s, In s skills ->
               lookupPath (path s) (disk (snd first))
               = lookupPath (path s) (disk w)) ->
    disk (snd second) = disk (snd first) /\ fst second = fst first.
Proof.
  intros leftover overwrite skills targetDir w first second.
  subst second first. rewrite !installSkills_general.
  set (base := targetPathOf targetDir) in *.
  destruct (ensureDirAt base (disk w)) as [d' |] eqn:Hens.
  2:{ cbn [snd]. rewrite Hens. intros _. split; reflexivity. }
  destruct (runPlan leftover base d' skills) as [[ops log] err] eqn:Hplan.
  cbn [snd fst disk]. intros Hsrc.
  assert (Hd' : isDirAt base d' = true)
    by now apply (ensureDirAt_isDir _ _ _ Hens).
  assert (Hdir : isDirAt base (updateDir base (applyOps ops) d') = true)
    by now apply isDirAt_updateDir.
  rewrite (ensureDirAt_noop _ _ Hdir).
  assert (Hsame : runPlan leftover base (updateDir base (applyOps ops) d') skills
                  = (ops, log, err)).
  { rewrite <- Hplan. apply runPlan_agree; auto.
    intros s Hs. rewrite (Hsrc s Hs).
    destruct (isPrefix (path s) base) eqn:Hp.
    - assert (Hw : isDirAt base (disk w) = true).
      { apply (isDirAt_from_prefix (path s) base
                 (updateDir base (applyOps ops) d') (disk w) Hp);
          [now apply Hsrc | exact Hdir]. }
      rewrite (ensureDirAt_noop _ _ Hw) in Hens. now injection Hens as <-.
    - symmetry.
      now apply (ensureDirAt_lookup_other base (path s) (disk w) d'). }
  rewrite Hsame. cbn [snd fst disk]. split; [| reflexivity].
  rewrite updateDir_compose. apply updateDir_ext. intros es.
  apply applyOps_idem.
Qed.

Lemma C6_install_is_idempotent_witness :
  let first := installSkills partialCopy mergeCopy [fooA; fooB] [js "work"]
      demoWorld in
  let second :=
    installSkills partialCopy mergeCopy [fooA; fooB] [js "work"] (snd first) in
  disk (snd second) = disk (snd first) /\ fst second = fst first.
Proof.
  apply (C6_install_is_idempotent partialCopy mergeCopy [fooA; fooB] [js "work"]
           demoWorld).
  intros s [<- | [<- | []]]; vm_compute; reflexivity.
Defined.

(** ** Failure of a copy *)





(** ** Skills of the same name *)

(** C10, as stated for any selection, fails.  The repository is the
    directory of installed skills itself; its scan returns the skill [bar]
    of the category [A] and two skills [foo], of the categories [C] and
    [bar].  Installing the three, in that order, returns; but installing
    [bar] replaces the category [bar], and with it the source of the later
    [foo]: the target of [foo] then holds the descriptor [Inner], not the
    descriptor [Old] that the later-listed skill had when it was scanned
    and selected. *)
Lemma C10_overlapping_source_counterexample :
  let repositoryPath := [js "work"; js ".claude"; js "skills"] in
  let skills := scanSkills overlapRepo repositoryPath in
  let run :=
    installSkills partialCopy mergeCopy skills [js "work"]
      (mkWorld overlapDisk []) in
  lookupPath repositoryPath overlapDisk = Some overlapRepo
  /\ map (fun k => (name k, category k, displayName k)) skills
     = [(js "bar", js "A", js "New"); (js "foo", js "C", js "Foo C");
        (js "foo", js "bar", js "Old")]
  /\ sourcesApart [js "work"] skills = false
  /\ fst run = Returned tt
  /\ lookupPath (repositoryPath ++ [js "bar"; js "foo"; DESCRIPTOR])
       overlapDisk
     = Some (File (Some (js "name: Old")))
  /\ lookupPath (targetPathOf [js "work"] ++ [js "foo"; DESCRIPTOR])
       (disk (snd run))
     = Some (File (Some (js "name: Inner"))).
Proof. vm_compute. repeat split. Qed.

(** C10, amended.  The target of a skill is the destination root followed
    by [.claude], [skills] and the skill's name, whatever its category.
    When a selection holds two skills of one name, the second being the
    last of that name, and no source of the selection lies at, above or
    below a target path, both have the same target and, once
    [installSkills] has returned, that path holds exactly the tree that the
    source of the second held before the run: every path below the target
    resolves as it did below that source, so nothing of the first is
    left. *)
Theorem C10_same_name_last_listed_wins :
  forall (leftover : node -> option node)
         (overwrite : node -> node -> option node * option fserror)
         (targetDir : fspath)
         (p1 : list SkillRecord) (s1 : SkillRecord) (p2 : list SkillRecord)
         (s2 : SkillRecord) (p3 : list SkillRecord) (w w' : world),
    sourcesApart targetDir (p1 ++ s1 :: p2 ++ s2 :: p3) = true ->
    name s1 = name s2 ->
    ~ In (name s2) (map name p3) ->
    installSkills leftover overwrite (p1 ++ s1 :: p2 ++ s2 :: p3) targetDir w
    = (Returned tt, w') ->
    targetSkillPathOf targetDir s1 = targetSkillPathOf targetDir s2
    /\ targetSkillPathOf targetDir s2
       = targetDir ++ [js ".claude"; js "skills"; name s2]
    /\ (exists t,
          lookupPath (path s2) (disk w) = Some t
          /\ lookupPath (targetSkillPathOf targetDir s2) (disk w') = Some t)
    /\ (forall rel,
          lookupPath (targetSkillPathOf targetDir s2 ++ rel) (disk w')
          = lookupPath (path s2 ++ rel) (disk w)).
Proof.
  intros leftover overwrite targetDir p1 s1 p2 s2 p3 w w' Hap Hname Hlast Hrun.
  split; [unfold targetSkillPathOf; now rewrite Hname |].
  split.
  { unfold targetSkillPathOf, targetPathOf, CLAUDE_SKILLS_DIR.
    now rewrite <- app_assoc. }
  rewrite (installSkills_run _ _ _ _ _ Hap) in Hrun.
  set (base := targetPathOf targetDir) in *.
  set (skills := p1 ++ s1 :: p2 ++ s2 :: p3) in *.
  destruct (ensureDirAt base (disk w)) as [d' |] eqn:Hd'; [| discriminate].
  assert (Hok : forallb (copySucceeds leftover (disk w)) skills = true).
  { apply installPlan_returns.
    destruct (installPlan leftover (disk w) skills) as [[ops log] err].
    destruct err; [discriminate | reflexivity]. }
  rewrite (installPlan_ok _ _ _ Hok) in Hrun. injection Hrun as <-.
  assert (Hs2 : copySucceeds leftover (disk w) s2 = true).
  { rewrite forallb_forall in Hok. apply Hok. subst skills.
    apply in_or_app. right. right. apply in_or_app. right. now left. }
  destruct (copySucceeds_source _ _ _ Hs2) as (t & Ht & _).
  assert (Htarget : lookupPath (targetSkillPathOf targetDir s2)
                      (updateDir base
                         (applyOps (bindingsOf (disk w) skills)) d')
                    = Some t).
  { unfold targetSkillPathOf. fold base.
    destruct (lookupPath_target base (name s2)
                (applyOps (bindingsOf (disk w) skills)) d')
      as (l & es & _ & ->);
      [now apply (ensureDirAt_isDir _ _ _ Hd') |].
    subst skills. rewrite <- Ht.
    replace (p1 ++ s1 :: p2 ++ s2 :: p3) with ((p1 ++ s1 :: p2) ++ s2 :: p3)
      by (rewrite <- app_assoc; reflexivity).
    unfold bindingsOf. rewrite map_app. simpl.
    apply applyOps_last_binding.
    apply not_In_inNames. unfold opNames. now rewrite map_map. }
  cbn [disk]. split.
  - exists t. split; [exact Ht | exact Htarget].
  - intros rel. now rewrite !lookupPath_app, Htarget, Ht.
Qed.

Lemma C10_same_name_last_listed_wins_witness :
  let w' :=
    snd (installSkills partialCopy mergeCopy
           ([] ++ fooA :: [] ++ fooB :: []) [js "work"] demoWorld) in
  targetSkillPathOf [js "work"] fooA = targetSkillPathOf [js "work"] fooB
  /\ targetSkillPathOf [js "work"] fooB
     = [js "work"] ++ [js ".claude"; js "skills"; name fooB]
  /\ (exists t,
        lookupPath (path fooB) (disk demoWorld) = Some t
        /\ lookupPath (targetSkillPathOf [js "work"] fooB) (disk w') = Some t)
  /\ (forall rel,
        lookupPath (targetSkillPathOf [js "work"] fooB ++ rel) (disk w')
        = lookupPath (path fooB ++ rel) (disk demoWorld)).
Proof.
  apply (C10_same_name_last_listed_wins partialCopy mergeCopy [js "work"]
           [] fooA [] fooB [] demoWorld).
  - vm_compute. reflexivity.
  - reflexivity.
  - simpl. intros [].
  - vm_compute. reflexivity.
Defined.

(** In the demonstration, the target holds the descriptor of the skill of
    category B, and the file that only the skill of category A has is
    gone. *)
Example same_name_overwrite_example :
  let w' := snd (installSkills partialCopy mergeCopy [fooA; fooB] [js "work"]
      demoWorld) in
  lookupPath (targetSkillPathOf [js "work"] fooA ++ [DESCRIPTOR]) (disk w')
  = Some (File (Some (js "name: Foo B")))
  /\ lookupPath (targetSkillPathOf [js "work"] fooA ++ [js "notes.txt"])
       (disk w')
     = None.
Proof. vm_compute. split; reflexivity. Qed.

(** * Further properties *)

(** ** The metadata of a descriptor *)

Lemma startsWith_app key s : startsWith key (key ++ s) = true.
Proof.
  induction key as [| c key IH]; simpl; [reflexivity |].
  now rewrite N.eqb_refl, IH.
Qed.

Lemma includes_app key pre post : includes key (pre ++ key ++ post) = true.
Proof.
  induction pre as [| c pre IH].
  - simpl. destruct (key ++ post) eqn:E; simpl;
      rewrite <- E, startsWith_app; reflexivity.
  - simpl. rewrite IH. apply orb_true_r.
Qed.

Lemma anchoredField_includes key content :
  anchoredField key content -> includes (key ++ js ":") content = true.
Proof.
  intros (pre & hash & ws & rest & -> & _).
  rewrite (app_assoc pre hash), (app_assoc (pre ++ hash) ws).
  rewrite (app_assoc key (js ":") rest). apply includes_app.
Qed.

(** X1.  Metadata is taken from line-anchored fields only.  The display
    name differs from the directory name only when the descriptor holds
    [name:] at the start of a line, after at most one [#] and white space;
    the description differs from [No description], cut to 50 characters,
    only when it holds [description:] in the same position.  A keyword in
    the middle of a line is never used. *)
Theorem metadata_comes_from_anchored_lines :
  forall (entryName content category : jsstring) (fullPath : fspath),
    let r := skillOf entryName content category fullPath in
    (displayName r = entryName \/ anchoredField (js "name") content)
    /\ (description r = js "No description"
        \/ anchoredField (js "description") content).
Proof.
  intros entryName content category fullPath r. subst r.
  unfold skillOf, extractDisplayName, extractDescription, namePattern,
    descPattern. cbn [displayName description]. split.
  - destruct (matchGroup1 (fieldPattern (js "name")) content) as [g |] eqn:E.
    + right. exact (field_match_is_line_anchored _ _ _ E).
    + now left.
  - destruct (matchGroup1 (fieldPattern (js "description")) content)
      as [g |] eqn:E.
    + right. exact (field_match_is_line_anchored _ _ _ E).
    + left. reflexivity.
Qed.

(** X3.  The defaults.  A descriptor in which [name:] occurs nowhere gives
    the directory name as display name; one in which [description:] occurs
    nowhere gives the description [No description].  The empty descriptor
    gives both. *)
Theorem metadata_defaults :
  forall (entryName content category : jsstring) (fullPath : fspath),
    let r := skillOf entryName content category fullPath in
    (includes (js "name:") content = false -> displayName r = entryName)
    /\ (includes (js "description:") content = false ->
        description r = js "No description")
    /\ skillOf entryName [] category fullPath
       = mkSkill entryName entryName (js "No description") category fullPath.
Proof.
  intros entryName content category fullPath r. subst r.
  unfold skillOf, extractDisplayName, extractDescription, namePattern,
    descPattern. cbn [displayName description]. repeat split.
  - intros Hno.
    destruct (matchGroup1 (fieldPattern (js "name")) content) as [g |] eqn:E;
      [| reflexivity].
    apply field_match_is_line_anchored, anchoredField_includes in E.
    change (js "name" ++ js ":") with (js "name:") in E. congruence.
  - intros Hno.
    destruct (matchGroup1 (fieldPattern (js "description")) content)
      as [g |] eqn:E; [| reflexivity].
    apply field_match_is_line_anchored, anchoredField_includes in E.
    change (js "description" ++ js ":") with (js "description:") in E.
    congruence.
Qed.

Lemma metadata_defaults_witness :
  displayName (skillOf (js "fmt") (js "# Formatter") [] [js "repo"; js "fmt"])
  = js "fmt"
  /\ description (skillOf (js "fmt") (js "# Formatter") [] [js "repo"; js "fmt"])
     = js "No description".
Proof.
  destruct (metadata_defaults (js "fmt") (js "# Formatter") []
              [js "repo"; js "fmt"]) as (Hn & Hd & _).
  split; [apply Hn | apply Hd]; vm_compute; reflexivity.
Defined.

(** ** Blank fields *)

Lemma greedyStar_backtrack {R} p (k : option N -> jsstring -> option R)
    ws c r :
  forallb p ws = true -> p c = true ->
  (forall prev, k prev [] = None) ->
  (forall prev, k prev [c] = Some r) ->
  forall prev, greedyStar p k prev (ws ++ [c]) = Some r.
Proof.
  intros Hws Hc Hend Hlast.
  induction ws as [| w ws IH]; intros prev.
  - simpl. now rewrite Hc, Hend, Hlast.
  - simpl in Hws. apply andb_true_iff in Hws as [Hw Hws].
    simpl. rewrite Hw. now rewrite (IH Hws).
Qed.

Lemma blank_field_capture key0 key ws c :
  key0 <> 35%N -> isSpace key0 = false ->
  forallb isSpace ws = true ->
  isSpace c = true -> isLineTerminator c = false ->
  matchGroup1 (fieldPattern (key0 :: key))
    ((key0 :: key) ++ js ":" ++ ws ++ [c])
  = Some [c].
Proof.
  intros Hhash Hk0 Hws Hc Hlt.
  assert (Hm : matchHere (fieldPattern (key0 :: key)) None None
                 ((key0 :: key) ++ js ":" ++ ws ++ [c])
               = Some (Some [c])).
  { unfold fieldPattern. cbn [app matchHere atLineStart].
    destruct (N.eqb_spec 35 key0) as [E | _]; [congruence |].
    cbn [greedyStar]. rewrite Hk0.
    change (Chr key0 :: map Chr key
            ++ [Chr 58%N; StarSet isSpace; CapPlusSet isDot; Eol])
      with (map Chr (key0 :: key)
            ++ [Chr 58%N; StarSet isSpace; CapPlusSet isDot; Eol]).
    change (key0 :: key ++ js ":" ++ ws ++ [c])
      with ((key0 :: key) ++ js ":" ++ ws ++ [c]).
    rewrite matchHere_chars by discriminate.
    change (js ":" ++ ws ++ [c]) with (58%N :: ws ++ [c]).
    cbn [matchHere]. rewrite N.eqb_refl.
    apply greedyStar_backtrack; [exact Hws | exact Hc | reflexivity |].
    intros prev. cbn [matchHere greedyPlusCap greedyStarCap].
    unfold isDot. rewrite Hlt. reflexivity. }
  unfold matchGroup1.
  destruct ((key0 :: key) ++ js ":" ++ ws ++ [c]) as [| d s] eqn:E;
    [discriminate |].
  cbn [searchFrom]. now rewrite Hm.
Qed.

(** X23.  A blank field is not a missing field.  A descriptor that holds
    nothing but [name:] followed by white space, the last character being
    no line break, gives the empty display name, not the directory name; one
    that holds nothing but [description:] followed by such white space
    gives the empty description, not [No description]. *)
Theorem blank_last_field_gives_empty_value :
  forall (ws : jsstring) (c : N) (entryName : jsstring),
    forallb isSpace ws = true ->
    isSpace c = true ->
    isLineTerminator c = false ->
    extractDisplayName (js "name:" ++ ws ++ [c]) entryName = []
    /\ truncateDescription (extractDescription (js "description:" ++ ws ++ [c]))
       = [].
Proof.
  intros ws c entryName Hws Hc Hlt.
  assert (Htrim : trim [c] = [])
    by (unfold trim, trimEnd; simpl; now rewrite Hc).
  unfold extractDisplayName, extractDescription, namePattern, descPattern.
  split.
  - change (js "name:" ++ ws ++ [c])
      with ((110%N :: js "ame") ++ js ":" ++ ws ++ [c]).
    change (js "name") with (110%N :: js "ame").
    rewrite blank_field_capture by (assumption || reflexivity || discriminate).
    exact Htrim.
  - change (js "description:" ++ ws ++ [c])
      with ((100%N :: js "escription") ++ js ":" ++ ws ++ [c]).
    change (js "description") with (100%N :: js "escription").
    rewrite blank_field_capture by (assumption || reflexivity || discriminate).
    rewrite Htrim. reflexivity.
Qed.

Lemma blank_last_field_gives_empty_value_witness :
  extractDisplayName (js "name:" ++ (js " " ++ LF) ++ [32%N]) (js "fmt") = []
  /\ truncateDescription
       (extractDescription (js "description:" ++ (js " " ++ LF) ++ [32%N]))
     = [].
Proof.
  apply blank_last_field_gives_empty_value; reflexivity.
Defined.

(** ** The scanner, continued *)

Lemma scanDirectory_records (P : SkillRecord -> Prop) :
  (forall x content c fp, P (skillOf x content c fp)) ->
  forall d p cat st,
    Forall P (found st) -> Forall P (found (scanDirectory d p cat st)).
Proof.
  intros HP d.
  induction d as [c | l es IH] using node_induction; intros p cat st Hst.
  - exact Hst.
  - destruct l; [| exact Hst].
    rewrite scanDirectory_listed. revert st Hst.
    induction IH as [| [x child] es Hchild _ IHes]; intros st Hst;
      [exact Hst |].
    destruct child as [c | l ces].
    + rewrite scanEntries_file. now apply IHes.
    + destruct (lookupEntry DESCRIPTOR ces) as [md |] eqn:E.
      * assert (Hcases : (exists content, md = File (Some content))
                         \/ descriptorFails (Dir l ces) = true).
        { unfold descriptorFails. rewrite E.
          destruct md as [[content |] | l' es']; eauto. }
        destruct Hcases as [[content ->] | Hfail].
        -- rewrite (scanEntries_skill _ _ _ _ _ _ _ _ E). apply IHes.
           unfold pushSkill. cbn [found]. apply Forall_app. split;
             [exact Hst | constructor; [apply HP | constructor]].
        -- destruct (scanEntries_throw p cat x l ces md es st E Hfail)
             as [e ->].
           exact Hst.
      * rewrite scanEntries_category by exact E. apply IHes.
        apply Hchild. exact Hst.
Qed.

Lemma truncateDescription_length d : length (truncateDescription d) <= 50.
Proof.
  destruct (Nat.lt_ge_cases 50 (length d)) as [H | H].
  - destruct (truncate_long d H) as [_ ->]. lia.
  - now rewrite truncate_short.
Qed.

(** X4.  Whatever the descriptors hold, no record that a scan returns has
    a description of more than 50 characters, and the name of a record is
    the last segment of its path. *)
Theorem scanned_descriptions_are_short :
  forall (repo : node) (repositoryPath : fspath) (r : SkillRecord),
    In r (scanSkills repo repositoryPath) ->
    length (description r) <= 50
    /\ exists parent, path r = parent ++ [name r].
Proof.
  intros repo rp r Hin.
  assert (H : Forall (fun r => length (description r) <= 50
                               /\ exists parent, path r = parent ++ [name r])
                (scanSkills repo rp)).
  { unfold scanSkills, scanRun. apply Forall_forall. intros r' Hr'. split.
    - revert r' Hr'. apply Forall_forall.
      apply scanDirectory_records; [| constructor].
      intros x content c fp. apply truncateDescription_length.
    - apply scanDirectory_sound in Hr' as (anc & _ & Hpath & _).
      exists (rp ++ anc). now rewrite <- app_assoc. }
  rewrite Forall_forall in H. now apply H.
Qed.

Lemma scanned_descriptions_are_short_witness :
  length (description (skillOf (js "long") text51 [] [js "repo"; js "long"]))
  <= 50
  /\ exists parent,
       path (skillOf (js "long") text51 [] [js "repo"; js "long"])
       = parent ++ [name (skillOf (js "long") text51 [] [js "repo"; js "long"])].
Proof.
  apply (scanned_descriptions_are_short repoLongDescription [js "repo"]).
  vm_compute. left. reflexivity.
Defined.

(** X5.  A scan misses nothing.  When every descriptor of the repository
    can be read and the names are names of directory entries, every
    directory that holds a descriptor and is reached through listed
    directories without descriptor has a record: its name, its path below
    the repository path, and the joined names of its ancestors as
    category. *)
Theorem scanSkills_finds_every_skill :
  forall (repo : node) (repositoryPath : fspath) (anc : list jsstring)
         (x : jsstring),
    readableDescriptors repo = true ->
    validTree repo = true ->
    skillAt repo anc x ->
    exists r,
      In r (scanSkills repo repositoryPath)
      /\ name r = x
      /\ path r = repositoryPath ++ anc ++ [x]
      /\ category r = joinSlash anc.
Proof.
  intros repo rp anc x Hread Hvalid Hat.
  exact (scanDirectory_complete repo anc x Hat rp [] Hread Hvalid
           (Forall_nil _)).
Qed.

Lemma scanSkills_finds_every_skill_witness :
  exists r,
    In r (scanSkills repoAB [js "repo"])
    /\ name r = js "skillX"
    /\ path r = [js "repo"] ++ [js "A"; js "B"] ++ [js "skillX"]
    /\ category r = joinSlash [js "A"; js "B"].
Proof.
  apply (scanSkills_finds_every_skill repoAB [js "repo"] [js "A"; js "B"]
           (js "skillX")); [reflexivity | reflexivity |].
  unfold repoAB.
  eapply skillAt_below; [left; reflexivity | reflexivity |].
  eapply skillAt_below; [left; reflexivity | reflexivity |].
  eapply skillAt_here; [left; reflexivity | reflexivity].
Defined.

(** X6.  A descriptor that cannot be read ends the listing of its parent:
    the records found before it are kept, one error is logged against the
    parent directory (EACCES with the path of the descriptor when it is a
    file that cannot be opened, EISDIR when it is a directory), and the
    entries listed after it are never visited, whatever they are. *)
Theorem unreadable_descriptor_ends_the_listing :
  forall (dirPath : fspath) (category x : jsstring) (l : bool)
         (pre ces post : entries_t) (st : scanState),
    loopThrows pre = false ->
    descriptorFails (Dir l ces) = true ->
    let before := scanDirectory (Dir true pre) dirPath category st in
    let whole :=
      scanDirectory (Dir true (pre ++ (x, Dir l ces) :: post)) dirPath
        category st in
    exists e,
      (lookupEntry DESCRIPTOR ces = Some (File None)
       /\ e = mkError EACCES (dirPath ++ [x] ++ [DESCRIPTOR])
       \/ (exists l' es', lookupEntry DESCRIPTOR ces = Some (Dir l' es'))
          /\ code e = EISDIR)
      /\ whole = logScanError dirPath e before
      /\ found whole = found before
      /\ errlog whole = errlog before ++ [(dirPath, e)].
Proof.
  intros dirPath category x l pre ces post st Hpre Hfail before whole.
  subst before whole. rewrite !scanDirectory_listed.
  rewrite scanEntries_app, Hpre.
  set (st' := scanEntries dirPath category pre st).
  unfold descriptorFails in Hfail.
  destruct (lookupEntry DESCRIPTOR ces) as [md |] eqn:E; [| discriminate].
  destruct md as [[content |] | l' es']; [discriminate | |].
  - exists (mkError EACCES ((dirPath ++ [x]) ++ [DESCRIPTOR])).
    split; [left; split; [reflexivity | now rewrite <- app_assoc] |].
    cbn [scanEntries]. rewrite E. repeat split.
  - exists (mkError EISDIR []).
    split; [right; split; [now exists l', es' | reflexivity] |].
    cbn [scanEntries]. rewrite E. repeat split.
Qed.

Lemma unreadable_descriptor_ends_the_listing_witness :
  let before := scanDirectory (Dir true []) [js "repo"] [] emptyScan in
  let whole :=
    scanDirectory
      (Dir true
         ([] ++ (js "broken", Dir true [(DESCRIPTOR, File None)])
             :: [(js "good",
                  Dir true [(DESCRIPTOR, File (Some (js "name: Good")))])]))
      [js "repo"] [] emptyScan in
  exists e,
    (lookupEntry DESCRIPTOR [(DESCRIPTOR, File None)] = Some (File None)
     /\ e = mkError EACCES ([js "repo"] ++ [js "broken"] ++ [DESCRIPTOR])
     \/ (exists l' es',
           lookupEntry DESCRIPTOR [(DESCRIPTOR, File None)]
           = Some (Dir l' es'))
        /\ code e = EISDIR)
    /\ whole = logScanError [js "repo"] e before
    /\ found whole = found before
    /\ errlog whole = errlog before ++ [([js "repo"], e)].
Proof.
  apply unreadable_descriptor_ends_the_listing; reflexivity.
Defined.

(** X7.  The scan of a listing is put together from the scans of its
    parts.  As long as the first part holds no unreadable descriptor, the
    records and the logged errors of [pre ++ post], scanned into an
    accumulator, are those of the accumulator, then those of [pre], then
    those of [post]: records come out in listing order and earlier finds
    are never touched. *)
Theorem scan_appends_in_listing_order :
  forall (dirPath : fspath) (category : jsstring) (pre post : entries_t)
         (st : scanState),
    loopThrows pre = false ->
    let part es := scanEntries dirPath category es emptyScan in
    let whole := scanEntries dirPath category (pre ++ post) st in
    found whole = found st ++ found (part pre) ++ found (part post)
    /\ errlog whole = errlog st ++ errlog (part pre) ++ errlog (part post).
Proof.
  intros dirPath category pre post st Hpre part whole. subst part whole.
  rewrite scanEntries_app, Hpre.
  rewrite (scanEntries_frame' dirPath category post).
  rewrite (scanEntries_frame' dirPath category pre st).
  unfold appendScan. cbn [found errlog]. now rewrite <- !app_assoc.
Qed.

Lemma scan_appends_in_listing_order_witness :
  let part es := scanEntries [js "repo"] [] es emptyScan in
  let pre := [(js "one", Dir true [(DESCRIPTOR, File (Some (js "name: One")))]);
              (js "locked", Dir false [])] in
  let post := [(js "two", Dir true [(DESCRIPTOR, File (Some (js "name: Two")))])] in
  let whole := scanEntries [js "repo"] [] (pre ++ post) emptyScan in
  found whole = found emptyScan ++ found (part pre) ++ found (part post)
  /\ errlog whole = errlog emptyScan ++ errlog (part pre) ++ errlog (part post).
Proof.
  intros part pre post whole.
  apply (scan_appends_in_listing_order [js "repo"] [] pre post emptyScan).
  reflexivity.
Defined.

Lemma In_hasEntry x c es : In (x, c) es -> hasEntry x es = true.
Proof.
  unfold hasEntry. induction es as [| [y c'] es IH]; intros Hin;
    [contradiction |].
  simpl. destruct (strEqb x y) eqn:E; [reflexivity |].
  destruct Hin as [Heq | Hin]; [| now apply IH].
  injection Heq as -> _. now rewrite strEqb_refl in E.
Qed.

Lemma uniqueNames_entry l es x c :
  uniqueNames (Dir l es) = true -> In (x, c) es ->
  lookupEntry x es = Some c /\ uniqueNames c = true.
Proof.
  induction es as [| [y c'] es IH]; intros Hu Hin; [contradiction |].
  cbn [uniqueNames] in Hu.
  apply andb_true_iff in Hu as [Hu Hrest].
  apply andb_true_iff in Hu as [Hy Hc'].
  apply negb_true_iff in Hy.
  destruct Hin as [Heq | Hin].
  - injection Heq as -> ->. simpl. now rewrite strEqb_refl.
  - destruct (IH Hrest Hin) as [Hl Hc]. split; [| exact Hc].
    simpl. destruct (strEqb x y) eqn:E; [| exact Hl].
    apply strEqb_eq in E. subst y.
    apply In_hasEntry in Hin. congruence.
Qed.

Lemma skillAt_lookup d anc x :
  skillAt d anc x ->
  uniqueNames d = true ->
  exists l ces,
    lookupPath (anc ++ [x]) d = Some (Dir l ces)
    /\ hasEntry DESCRIPTOR ces = true.
Proof.
  induction 1 as [es x l ces Hin Hmd | es a l ces anc x Hin Hno Hat IH];
    intros Hu.
  - destruct (uniqueNames_entry _ _ _ _ Hu Hin) as [Hl _].
    exists l, ces. simpl. now rewrite Hl.
  - destruct (uniqueNames_entry _ _ _ _ Hu Hin) as [Hl Hc].
    destruct (IH Hc) as (l' & ces' & Hp & Hmd).
    exists l', ces'. split; [| exact Hmd].
    cbn [app lookupPath]. now rewrite Hl.
Qed.

(** X8.  The path of a record leads back to its skill.  On a disk that
    holds the repository at the repository path, with no name listed twice
    in a directory, the path of every record of the scan resolves to a
    directory that holds a descriptor: what the scan returns can be handed
    to the installer as a source. *)
Theorem scanned_path_resolves :
  forall (d : node) (repositoryPath : fspath) (repo : node) (r : SkillRecord),
    lookupPath repositoryPath d = Some repo ->
    uniqueNames repo = true ->
    In r (scanSkills repo repositoryPath) ->
    exists l ces,
      lookupPath (path r) d = Some (Dir l ces)
      /\ hasEntry DESCRIPTOR ces = true.
Proof.
  intros d rp repo r Hrepo Hu Hin.
  apply scanDirectory_sound in Hin as (anc & Hat & Hpath & _).
  destruct (skillAt_lookup _ _ _ Hat Hu) as (l & ces & Hp & Hmd).
  exists l, ces. split; [| exact Hmd].
  now rewrite Hpath, lookupPath_app, Hrepo.
Qed.

Lemma scanned_path_resolves_witness :
  exists l ces,
    lookupPath (path fooA) demoDisk = Some (Dir l ces)
    /\ hasEntry DESCRIPTOR ces = true.
Proof.
  eapply (scanned_path_resolves demoDisk [js "repo"] _ fooA).
  - reflexivity.
  - vm_compute. reflexivity.
  - vm_compute. left. reflexivity.
Defined.

Lemma scanEntries_first_segment p cat es r :
  In r (found (scanEntries p cat es emptyScan)) ->
  exists y rel, In y (map fst es) /\ path r = p ++ y :: rel.
Proof.
  intros Hin.
  assert (Hsound : recordSound (Dir true es) p cat r).
  { apply (scanEntries_sound es es); [| auto | exact Hin].
    apply Forall_forall. intros e _ p' cat' r'. apply scanDirectory_sound. }
  destruct Hsound as (anc & Hat & Hpath & _).
  inversion Hat as [es' x l ces Hx _ | es' a l ces anc' x Hx _ _]; subst.
  - exists (name r), []. split; [| exact Hpath].
    apply in_map_iff. now exists (name r, Dir l ces).
  - exists a, (anc' ++ [name r]). split; [| exact Hpath].
    apply in_map_iff. now exists (a, Dir l ces).
Qed.

Lemma hasEntry_names x es : hasEntry x es = false -> ~ In x (map fst es).
Proof.
  intros H Hin. apply in_map_iff in Hin as ([y c] & <- & Hin).
  apply In_hasEntry in Hin. simpl in H. congruence.
Qed.

Lemma scanDirectory_paths_distinct d :
  forall p cat,
    uniqueNames d = true ->
    NoDup (map path (found (scanDirectory d p cat emptyScan))).
Proof.
  induction d as [c | l es IH] using node_induction; intros p cat Hu.
  - constructor.
  - destruct l; [| constructor].
    rewrite scanDirectory_listed.
    induction IH as [| [x child] es Hchild _ IHes]; [constructor |].
    cbn [uniqueNames] in Hu.
    apply andb_true_iff in Hu as [Hu Hrest].
    apply andb_true_iff in Hu as [Hx Hc].
    apply negb_true_iff in Hx.
    specialize (IHes Hrest).
    change ((x, child) :: es) with ([(x, child)] ++ es).
    rewrite scanEntries_app.
    assert (Hone : NoDup (map path
                     (found (scanEntries p cat [(x, child)] emptyScan)))).
    { destruct child as [c | l ces]; [constructor |].
      cbn [scanEntries].
      destruct (lookupEntry DESCRIPTOR ces) as [md |].
      - destruct md as [[content |] | l' es']; simpl;
          repeat constructor; auto.
      - apply (Hchild _ _ Hc). }
    destruct (loopThrows [(x, child)]); [exact Hone |].
    rewrite scanEntries_frame', found_appendScan, map_app.
    apply NoDup_app; [exact Hone | exact IHes |].
    intros q Hq1 Hq2.
    apply in_map_iff in Hq1 as (r1 & <- & Hr1).
    apply in_map_iff in Hq2 as (r2 & E & Hr2).
    apply scanEntries_first_segment in Hr1 as (y1 & rel1 & Hy1 & E1).
    apply scanEntries_first_segment in Hr2 as (y2 & rel2 & Hy2 & E2).
    rewrite E1, E2 in E. apply app_inv_head in E. injection E as -> _.
    destruct Hy1 as [<- | []]. now apply (hasEntry_names _ _ Hx).
Qed.

(** X26.  No skill is found twice.  When no directory of the repository
    lists a name twice, the paths of the records of a scan are pairwise
    distinct, and so are the records. *)
Theorem scanned_paths_are_distinct :
  forall (repo : node) (repositoryPath : fspath),
    uniqueNames repo = true ->
    NoDup (map path (scanSkills repo repositoryPath))
    /\ NoDup (scanSkills repo repositoryPath).
Proof.
  intros repo rp Hu.
  pose proof (scanDirectory_paths_distinct repo rp [] Hu) as H.
  split; [exact H |]. now apply NoDup_map_inv in H.
Qed.

Lemma scanned_paths_are_distinct_witness :
  NoDup (map path (scanSkills repoAB [js "repo"]))
  /\ NoDup (scanSkills repoAB [js "repo"]).
Proof.
  apply scanned_paths_are_distinct. reflexivity.
Defined.

(** ** The grouper, continued *)

Lemma flat_map_ext_in {A B} (f g : A -> list B) l :
  (forall a, In a l -> f a = g a) -> flat_map f l = flat_map g l.
Proof.
  induction l as [| a l IH]; intros H; simpl; [reflexivity |].
  rewrite (H a) by now left. f_equal. apply IH. intros b Hb. apply H.
  now right.
Qed.

Lemma withLabel_cons_other s c skills :
  labelOf s <> c -> withLabel c (s :: skills) = withLabel c skills.
Proof.
  intros H. unfold withLabel. simpl.
  apply strEqb_neq in H. now rewrite H.
Qed.

Lemma withLabel_cons_same s skills :
  withLabel (labelOf s) (s :: skills) = s :: withLabel (labelOf s) skills.
Proof. unfold withLabel. simpl. now rewrite strEqb_refl. Qed.

(** Cutting a list of skills by label, one label after the other, and
    putting the pieces together gives the skills back, up to order. *)
Lemma withLabel_partition cats :
  NoDup cats ->
  forall skills,
    (forall s, In s skills -> In (labelOf s) cats) ->
    Permutation (flat_map (fun c => withLabel c skills) cats) skills.
Proof.
  intros Hnd. induction skills as [| s skills IH]; intros Hall.
  - clear Hnd Hall. induction cats as [| c cats IHc]; simpl;
      [constructor | exact IHc].
  - assert (Hs : In (labelOf s) cats) by (apply Hall; now left).
    apply in_split in Hs as (c1 & c2 & E).
    assert (Hfresh : ~ In (labelOf s) (c1 ++ c2))
      by (rewrite E in Hnd; now apply NoDup_remove_2 in Hnd).
    specialize (IH (fun k Hk => Hall k (or_intror Hk))).
    rewrite E in IH |- *. rewrite flat_map_app in IH |- *.
    cbn [flat_map] in IH |- *. rewrite withLabel_cons_same.
    rewrite (flat_map_ext_in (fun c => withLabel c (s :: skills))
               (fun c => withLabel c skills) c1).
    2:{ intros c Hc. apply withLabel_cons_other. intros <-.
        apply Hfresh, in_or_app. now left. }
    rewrite (flat_map_ext_in (fun c => withLabel c (s :: skills))
               (fun c => withLabel c skills) c2).
    2:{ intros c Hc. apply withLabel_cons_other. intros <-.
        apply Hfresh, in_or_app. now right. }
    cbn [app]. apply Permutation_sym, Permutation_cons_app.
    apply Permutation_sym. exact IH.
Qed.

Lemma choiceValues_groups (f : jsstring -> list SkillRecord) cats :
  choiceValues (flat_map (fun c => Separator c :: map SkillChoice (f c)) cats)
  = flat_map f cats
  /\ separatorLabels
       (flat_map (fun c => Separator c :: map SkillChoice (f c)) cats)
     = cats.
Proof.
  assert (Hv : forall l, choiceValues (map SkillChoice l) = l).
  { induction l as [| v l IH]; simpl; [reflexivity |].
    f_equal. exact IH. }
  assert (Hs : forall l, separatorLabels (map SkillChoice l) = []).
  { induction l as [| v l IH]; simpl; [reflexivity | exact IH]. }
  unfold choiceValues, separatorLabels in *.
  induction cats as [| c cats [IH1 IH2]]; [split; reflexivity |].
  cbn [flat_map]. rewrite !flat_map_app. cbn [flat_map app].
  rewrite ?flat_map_app, Hv, Hs, IH1, IH2. split; reflexivity.
Qed.

(** X10.  The menu loses no skill and repeats none.  When no label
    collides with a property of [Object.prototype], the choices are, for
    each label, a separator followed by the skills of that label in the
    order of the scan; the labels of the separators come sorted by code
    units, each one once; the skills offered are the skills found, each
    one exactly once. *)
Theorem choices_offer_every_skill_once :
  forall skills : list SkillRecord,
    Forall (fun s => safeLabel s = true) skills ->
    exists choices,
      groupForDisplay skills = inr choices
      /\ choices
         = flat_map
             (fun c => Separator c :: map SkillChoice (withLabel c skills))
             (separatorLabels choices)
      /\ StronglySorted strLe (separatorLabels choices)
      /\ NoDup (separatorLabels choices)
      /\ Permutation (choiceValues choices) skills.
Proof.
  intros skills Hsafe.
  destruct (groupSkills_safe skills [] Hsafe) as (o & Hrun & Hin & Hk & Hn).
  assert (Hb : buildChoices o
               = flat_map
                   (fun c => Separator c :: map SkillChoice (withLabel c skills))
                   (sortedCategories o)).
  { unfold buildChoices. apply flat_map_ext. intros c. now rewrite Hin. }
  destruct (choiceValues_groups (fun c => withLabel c skills)
              (sortedCategories o)) as [Hvals Hseps].
  assert (Hnd : NoDup (sortedCategories o)).
  { unfold sortedCategories.
    apply (Permutation_NoDup (Permutation_sym (sortKeys_Permutation _))).
    apply Hn. constructor. }
  exists (buildChoices o). split; [| split; [| split; [| split]]].
  - unfold groupForDisplay. now rewrite Hrun.
  - rewrite Hb at 2. rewrite Hseps. exact Hb.
  - rewrite Hb, Hseps. apply sortKeys_sorted.
  - rewrite Hb, Hseps. exact Hnd.
  - rewrite Hb, Hvals. apply withLabel_partition.
    + exact Hnd.
    + intros s Hs. unfold sortedCategories.
      apply (Permutation_in _ (Permutation_sym (sortKeys_Permutation _))).
      apply Hk. right. now exists s.
Qed.

Lemma choices_offer_every_skill_once_witness :
  exists choices,
    groupForDisplay [skillIn "z1" "Zeta"; skillIn "a1" "Alpha";
                     skillIn "u1" ""; skillIn "z2" "Zeta"] = inr choices
    /\ choices
       = flat_map
           (fun c =>
              Separator c
              :: map SkillChoice
                   (withLabel c [skillIn "z1" "Zeta"; skillIn "a1" "Alpha";
                                 skillIn "u1" ""; skillIn "z2" "Zeta"]))
           (separatorLabels choices)
    /\ StronglySorted strLe (separatorLabels choices)
    /\ NoDup (separatorLabels choices)
    /\ Permutation (choiceValues choices)
         [skillIn "z1" "Zeta"; skillIn "a1" "Alpha"; skillIn "u1" "";
          skillIn "z2" "Zeta"].
Proof.
  apply choices_offer_every_skill_once.
  repeat constructor.
Defined.

Lemma Permutation_filter_same {A} (f : A -> bool) l l' :
  Permutation l l' -> Permutation (filter f l) (filter f l').
Proof.
  induction 1 as [| x l l' _ IH | x y l | l l' l'' _ IH1 _ IH2]; simpl.
  - constructor.
  - destruct (f x); [now constructor | exact IH].
  - destruct (f x), (f y); try apply Permutation_refl. constructor.
  - now transitivity (filter f l').
Qed.

(** X11.  The order of the scan does not decide the order of the
    categories.  Two lists of skills that differ only in order, with no
    label colliding with a property of [Object.prototype], give menus
    with the same separators in the same order, and the skills offered
    are the same up to their order. *)
Theorem category_order_ignores_scan_order :
  forall skills skills' : list SkillRecord,
    Permutation skills skills' ->
    Forall (fun s => safeLabel s = true) skills ->
    exists choices choices',
      groupForDisplay skills = inr choices
      /\ groupForDisplay skills' = inr choices'
      /\ separatorLabels choices = separatorLabels choices'
      /\ Permutation (choiceValues choices) (choiceValues choices').
Proof.
  intros skills skills' Hperm Hsafe.
  assert (Hsafe' : Forall (fun s => safeLabel s = true) skills')
    by (now rewrite <- Hperm).
  destruct (groupSkills_safe skills [] Hsafe) as (o & Hrun & Hin & Hk & Hn).
  destruct (groupSkills_safe skills' [] Hsafe')
    as (o' & Hrun' & Hin' & Hk' & Hn').
  assert (Hcats : sortedCategories o = sortedCategories o').
  { unfold sortedCategories. apply sortKeys_Permutation_eq.
    apply NoDup_Permutation; [apply Hn; constructor | apply Hn'; constructor |].
    intros c. rewrite Hk, Hk'. split.
    - intros [[] | (s & Hs & E)]. right. exists s. split; [| exact E].
      now apply (Permutation_in _ Hperm).
    - intros [[] | (s & Hs & E)]. right. exists s. split; [| exact E].
      now apply (Permutation_in _ (Permutation_sym Hperm)). }
  assert (Hb : forall sk ob,
             (forall c, skillsIn ob c = skillsIn [] c ++ withLabel c sk) ->
             buildChoices ob
             = flat_map
                 (fun c => Separator c :: map SkillChoice (withLabel c sk))
                 (sortedCategories ob)).
  { intros sk ob H. unfold buildChoices. apply flat_map_ext. intros c.
    now rewrite H. }
  exists (buildChoices o), (buildChoices o').
  unfold groupForDisplay. rewrite Hrun, Hrun'.
  split; [reflexivity |]. split; [reflexivity |].
  rewrite (Hb skills o Hin), (Hb skills' o' Hin'), <- Hcats.
  destruct (choiceValues_groups (fun c => withLabel c skills)
              (sortedCategories o)) as [-> ->].
  destruct (choiceValues_groups (fun c => withLabel c skills')
              (sortedCategories o)) as [-> ->].
  split; [reflexivity |].
  generalize (sortedCategories o) as cats. clear - Hperm.
  induction cats as [| c cats IH]; simpl; [constructor |].
  apply Permutation_app; [| exact IH].
  unfold withLabel. now apply Permutation_filter_same.
Qed.

Lemma category_order_ignores_scan_order_witness :
  exists choices choices',
    groupForDisplay [skillIn "z1" "Zeta"; skillIn "a1" "Alpha";
                     skillIn "u1" ""] = inr choices
    /\ groupForDisplay [skillIn "a1" "Alpha"; skillIn "z1" "Zeta";
                        skillIn "u1" ""] = inr choices'
    /\ separatorLabels choices = separatorLabels choices'
    /\ Permutation (choiceValues choices) (choiceValues choices').
Proof.
  apply category_order_ignores_scan_order.
  - apply perm_swap.
  - repeat constructor.
Defined.

Lemma groupSkills_cons skill o :
  safeLabel skill = true ->
  exists o1,
    (forall rest, groupSkills (skill :: rest) o = groupSkills rest o1)
    /\ (forall c, In c (map fst o1) <-> c = labelOf skill \/ In c (map fst o)).
Proof.
  intros Hsafe. unfold safeLabel in Hsafe. apply negb_true_iff in Hsafe.
  destruct (lookupOwn (labelOf skill) o) as [a |] eqn:Ho.
  - assert (G : getProp o (labelOf skill) = OwnArray a)
      by (unfold getProp; now rewrite Ho).
    exists (setOwn (labelOf skill) (a ++ [skill]) o). split.
    + intros rest. cbn [groupSkills]. cbv zeta. rewrite G. cbv iota.
      now rewrite G.
    + intros c. apply keys_setOwn_in.
  - assert (G : getProp o (labelOf skill) = Undefined)
      by (unfold getProp; now rewrite Ho, Hsafe).
    assert (G' : getProp (setOwn (labelOf skill) [] o) (labelOf skill)
                 = OwnArray [])
      by (unfold getProp; now rewrite lookupOwn_setOwn_same).
    exists (setOwn (labelOf skill) ([] ++ [skill])
              (setOwn (labelOf skill) [] o)). split.
    + intros rest. cbn [groupSkills]. cbv zeta. rewrite G. cbv iota.
      now rewrite G'.
    + intros c. rewrite !keys_setOwn_in. tauto.
Qed.

Lemma groupSkills_app pre :
  forall o rest,
    Forall (fun s => safeLabel s = true) pre ->
    exists o',
      groupSkills (pre ++ rest) o = groupSkills rest o'
      /\ (forall c, In c (map fst o')
                    <-> In c (map fst o)
                        \/ exists s, In s pre /\ labelOf s = c).
Proof.
  induction pre as [| s pre IH]; intros o rest Hsafe.
  - exists o. split; [reflexivity |]. intros c. split; [now left |].
    intros [H | (s & [] & _)]. exact H.
  - inversion Hsafe as [| ? ? Hs Hpre]; subst.
    destruct (groupSkills_cons s o Hs) as (o1 & Hstep & Hkeys).
    destruct (IH o1 rest Hpre) as (o' & Hrun & Hk).
    exists o'. split; [cbn [app]; now rewrite Hstep |].
    intros c. rewrite Hk, Hkeys. split.
    + intros [[-> | H] | (k & Hk' & E)].
      * right. exists s. split; [now left | reflexivity].
      * now left.
      * right. exists k. split; [now right | exact E].
    + intros [H | (k & [<- | Hk'] & E)].
      * left. now right.
      * left. left. now symmetry.
      * right. now exists k.
Qed.

Lemma lookupOwn_absent k o : ~ In k (map fst o) -> lookupOwn k o = None.
Proof.
  induction o as [| [k' v] o IH]; intros H; simpl; [reflexivity |].
  destruct (strEqb k k') eqn:E.
  - apply strEqb_eq in E. subst k'. exfalso. apply H. now left.
  - apply IH. intros Hin. apply H. now right.
Qed.

Lemma groupSkills_unsafe pre s post :
  Forall (fun k => safeLabel k = true) pre ->
  safeLabel s = false ->
  groupSkills (pre ++ s :: post) [] = inl (PushIsNotAFunction (labelOf s)).
Proof.
  intros Hpre Hs.
  destruct (groupSkills_app pre [] (s :: post) Hpre) as (o' & Hrun & Hk).
  rewrite Hrun.
  assert (Hown : lookupOwn (labelOf s) o' = None).
  { apply lookupOwn_absent. intros Hin.
    apply Hk in Hin as [[] | (k & Hkin & E)].
    rewrite Forall_forall in Hpre. specialize (Hpre k Hkin).
    unfold safeLabel in Hpre, Hs. rewrite E in Hpre. congruence. }
  unfold safeLabel in Hs. apply negb_false_iff in Hs.
  assert (G : getProp o' (labelOf s) = Inherited)
    by (unfold getProp; now rewrite Hown, Hs).
  cbn [groupSkills]. cbv zeta. rewrite G. cbv iota. now rewrite G.
Qed.

(** Either every label is safe, or there is a first skill whose label is
    not. *)
Lemma first_unsafe_label skills :
  Forall (fun k => safeLabel k = true) skills
  \/ exists pre s post,
       skills = pre ++ s :: post
       /\ Forall (fun k => safeLabel k = true) pre
       /\ safeLabel s = false.
Proof.
  induction skills as [| k skills IH]; [left; constructor |].
  destruct (safeLabel k) eqn:Hk.
  - destruct IH as [IH | (pre & s & post & -> & Hpre & Hs)].
    + left. now constructor.
    + right. exists (k :: pre), s, post.
      split; [reflexivity |]. split; [now constructor | exact Hs].
  - right. exists [], k, skills. split; [reflexivity |].
    split; [constructor | exact Hk].
Qed.

(** X12.  A skill whose label is a property name of [Object.prototype]
    stops the grouping with a TypeError, whatever was grouped before it and
    whatever follows: no menu is built, also not for the skills with other
    labels; and the menu is built exactly when no label is such a name. *)
Theorem unsafe_label_stops_the_grouping :
  forall (pre : list SkillRecord) (s : SkillRecord) (post : list SkillRecord),
    Forall (fun k => safeLabel k = true) pre ->
    safeLabel s = false ->
    (exists e, groupForDisplay (pre ++ s :: post) = inl e)
    /\ forall skills,
         (exists choices, groupForDisplay skills = inr choices)
         <-> Forall (fun k => safeLabel k = true) skills.
Proof.
  intros pre s post Hpre Hs. split.
  - unfold groupForDisplay. rewrite (groupSkills_unsafe _ _ _ Hpre Hs).
    eexists. reflexivity.
  - intros skills. unfold groupForDisplay. split.
    + intros [choices Hrun].
      destruct (first_unsafe_label skills)
        as [Hall | (pre' & s' & post' & -> & Hpre' & Hs')]; [exact Hall |].
      rewrite (groupSkills_unsafe _ _ _ Hpre' Hs') in Hrun. discriminate.
    + intros Hall.
      destruct (groupSkills_safe skills [] Hall) as (o & -> & _).
      eexists. reflexivity.
Qed.

Lemma unsafe_label_stops_the_grouping_witness :
  exists e,
    groupForDisplay ([skillIn "fmt" "Alpha"; skillIn "doc" "Beta"]
                     ++ skillIn "lint" "toString" :: [skillIn "fmt2" "Alpha"])
    = inl e.
Proof.
  apply (unsafe_label_stops_the_grouping
           [skillIn "fmt" "Alpha"; skillIn "doc" "Beta"]
           (skillIn "lint" "toString") [skillIn "fmt2" "Alpha"]).
  - repeat constructor.
  - reflexivity.
Defined.

(** ** The installer, continued *)

Lemma isPrefix_refl p : isPrefix p p = true.
Proof.
  induction p as [| x p IH]; simpl; [reflexivity |].
  now rewrite strEqb_refl, IH.
Qed.

Lemma isPrefix_snoc q :
  forall base x,
    isPrefix q (base ++ [x]) = true ->
    isPrefix q base = true \/ q = base ++ [x].
Proof.
  induction q as [| y q IH]; intros base x H; [now left |].
  destruct base as [| b base].
  - simpl in H. apply andb_true_iff in H as [Hy Hq].
    apply strEqb_eq in Hy. subst y.
    destruct q; [now right | discriminate].
  - simpl in H. apply andb_true_iff in H as [Hy Hq].
    destruct (IH _ _ Hq) as [Hp | ->].
    + left. simpl. now rewrite Hy, Hp.
    + right. apply strEqb_eq in Hy. now subst y.
Qed.

Lemma runPlan_names leftover base skills :
  forall d x,
    In x (opNames (fst (fst (runPlan leftover base d skills)))) ->
    exists s, In s skills /\ name s = x.
Proof.
  induction skills as [| k skills IH]; intros d x Hx; [contradiction |].
  cbn [runPlan] in Hx.
  destruct (copyDecision leftover (path k) (base ++ [name k])
              (lookupPath (path k) (updateDir base (dropEntry (name k)) d)))
    as [b [e |]].
  - simpl in Hx. destruct Hx as [<- | []].
    exists k. split; [now left | reflexivity].
  - specialize (IH (updateDir base (bindEntry (name k) b) d) x).
    destruct (runPlan leftover base
                (updateDir base (bindEntry (name k) b) d) skills)
      as [[ops log] err].
    simpl in *. destruct Hx as [<- | Hx].
    + exists k. split; [now left | reflexivity].
    + destruct (IH Hx) as (s & Hs & E). exists s. split; [now right | exact E].
Qed.

(** A path that is neither on the way to the target directory nor at or
    below the target path of a selected skill resolves after the run as it
    did before. *)
Lemma installSkills_frame leftover overwrite skills targetDir w q :
  isPrefix q (targetPathOf targetDir) = false ->
  (forall k, In k skills ->
             isPrefix (targetSkillPathOf targetDir k) q = false) ->
  lookupPath q
    (disk (snd (installSkills leftover overwrite skills targetDir w)))
  = lookupPath q (disk w).
Proof.
  intros Hq Hk.
  rewrite installSkills_general.
  set (base := targetPathOf targetDir) in *.
  destruct (ensureDirAt base (disk w)) as [d' |] eqn:Hens; [| reflexivity].
  destruct (runPlan leftover base d' skills) as [[ops log] err] eqn:Hplan.
  cbn [snd disk]. rewrite lookup_applyOps_apart.
  - now apply (ensureDirAt_lookup_other base q (disk w) d').
  - intros x Hx.
    destruct (runPlan_names leftover base skills d' x) as (k & Hin & <-);
      [now rewrite Hplan |].
    specialize (Hk k Hin). unfold targetSkillPathOf in Hk. fold base in Hk.
    unfold apart. rewrite Hk.
    destruct (isPrefix q (base ++ [name k])) eqn:E; [| reflexivity].
    apply isPrefix_snoc in E as [E | ->]; [congruence |].
    now rewrite isPrefix_refl in Hk.
Qed.

Lemma isPrefix_app_cons_neq base x y rel :
  x <> y -> isPrefix (base ++ [x]) (base ++ y :: rel) = false.
Proof.
  intros Hne. induction base as [| b base IH]; simpl.
  - apply strEqb_neq in Hne. now rewrite Hne.
  - now rewrite strEqb_refl.
Qed.

Lemma isPrefix_longer base y rel : isPrefix (base ++ y :: rel) base = false.
Proof.
  induction base as [| b base IH]; simpl; [reflexivity |].
  now rewrite strEqb_refl.
Qed.

(** X13.  An installation writes below the target paths of the selected
    skills and nowhere else.  Whatever the selection and however the run
    ends, a path that is neither on the way to [<targetDir>/.claude/skills]
    nor at or below the target path of a selected skill resolves after the
    run as it did before: the repository and the rest of the working
    directory are left alone.  In particular a skill installed earlier
    under a name that no selected skill has stays as it is, with all that
    is below it. *)
Theorem install_touches_only_targets :
  forall (leftover : node -> option node)
         (overwrite : node -> node -> option node * option fserror)
         (skills : list SkillRecord)
         (targetDir : fspath) (w : world),
    let after :=
      disk (snd (installSkills leftover overwrite skills targetDir w)) in
    (forall q,
        isPrefix q (targetPathOf targetDir) = false ->
        (forall k, In k skills ->
                   isPrefix (targetSkillPathOf targetDir k) q = false) ->
        lookupPath q after = lookupPath q (disk w))
    /\ (forall x rel,
          (forall k, In k skills -> name k <> x) ->
          lookupPath (targetPathOf targetDir ++ x :: rel) after
          = lookupPath (targetPathOf targetDir ++ x :: rel) (disk w)).
Proof.
  intros leftover overwrite skills targetDir w after. subst after. split.
  - intros q Hq Hk. now apply installSkills_frame.
  - intros x rel Hother. apply installSkills_frame.
    + apply isPrefix_longer.
    + intros k Hin. unfold targetSkillPathOf.
      apply isPrefix_app_cons_neq. now apply Hother.
Qed.

Lemma install_touches_only_targets_witness :
  lookupPath [js "repo"; js "B"; js "bar"]
    (disk (snd (installSkills partialCopy mergeCopy [fooA; barB] [js "work"]
        demoWorld)))
  = lookupPath [js "repo"; js "B"; js "bar"] (disk demoWorld).
Proof.
  destruct (install_touches_only_targets partialCopy mergeCopy [fooA; barB] [js
      "work"]
              demoWorld) as [Hframe _].
  apply Hframe.
  - reflexivity.
  - intros k [<- | [<- | []]]; reflexivity.
Defined.

(** X14.  A successful installation copies the whole skill.  For a skill
    that no later skill of the selection shares its name with, every path
    below its target resolves, after the run, as the same path below its
    source did before: files and subdirectories arrive unchanged, and
    nothing else is found there. *)
Theorem install_copies_the_whole_skill :
  forall (leftover : node -> option node)
         (overwrite : node -> node -> option node * option fserror)
         (targetDir : fspath)
         (p1 : list SkillRecord) (k : SkillRecord) (p2 : list SkillRecord)
         (w w' : world),
    sourcesApart targetDir (p1 ++ k :: p2) = true ->
    ~ In (name k) (map name p2) ->
    installSkills leftover overwrite (p1 ++ k :: p2) targetDir w
    = (Returned tt, w') ->
    pathExists (path k) (disk w) = true
    /\ forall rel,
         lookupPath (targetSkillPathOf targetDir k ++ rel) (disk w')
         = lookupPath (path k ++ rel) (disk w).
Proof.
  intros leftover overwrite targetDir p1 k p2 w w' Hap Hlast Hrun.
  rewrite (installSkills_run _ _ _ _ _ Hap) in Hrun.
  set (base := targetPathOf targetDir) in *.
  set (skills := p1 ++ k :: p2) in *.
  destruct (ensureDirAt base (disk w)) as [d' |] eqn:Hd'; [| discriminate].
  assert (Hok : forallb (copySucceeds leftover (disk w)) skills = true).
  { apply installPlan_returns.
    destruct (installPlan leftover (disk w) skills) as [[ops log] err].
    destruct err; [discriminate | reflexivity]. }
  rewrite (installPlan_ok _ _ _ Hok) in Hrun. injection Hrun as <-.
  assert (Hs : copySucceeds leftover (disk w) k = true).
  { rewrite forallb_forall in Hok. apply Hok. subst skills.
    apply in_or_app. right. now left. }
  destruct (copySucceeds_source _ _ _ Hs) as (t & Ht & _).
  split; [unfold pathExists; now rewrite Ht |].
  intros rel. cbn [disk]. rewrite !lookupPath_app, Ht.
  unfold targetSkillPathOf. fold base.
  destruct (lookupPath_target base (name k)
              (applyOps (bindingsOf (disk w) skills)) d')
    as (l & es & _ & ->);
    [now apply (ensureDirAt_isDir _ _ _ Hd') |].
  subst skills. unfold bindingsOf. rewrite map_app. cbn [map].
  rewrite applyOps_last_binding, Ht; [reflexivity |].
  apply not_In_inNames. unfold opNames. now rewrite map_map.
Qed.

Lemma install_copies_the_whole_skill_witness :
  pathExists (path fooA) (disk demoWorld) = true
  /\ forall rel,
       lookupPath (targetSkillPathOf [js "work"] fooA ++ rel)
         (disk (snd (installSkills partialCopy mergeCopy ([] ++ fooA :: [])
                       [js "work"] demoWorld)))
       = lookupPath (path fooA ++ rel) (disk demoWorld).
Proof.
  apply (install_copies_the_whole_skill partialCopy mergeCopy [js "work"] []
      fooA []).
  - reflexivity.
  - intros [].
  - reflexivity.
Defined.

Lemma ensureDirAt_blocked p :
  forall base d c,
    isPrefix p base = true ->
    lookupPath p d = Some (File c) ->
    ensureDirAt base d = None.
Proof.
  induction p as [| x p IH]; intros base d c Hp Hl.
  - simpl in Hl. injection Hl as ->. now destruct base.
  - destruct base as [| b base]; [discriminate |].
    simpl in Hp. apply andb_true_iff in Hp as [Hx Hp].
    apply strEqb_eq in Hx. subst b.
    destruct d as [c' | l es]; [discriminate |].
    simpl in Hl. simpl.
    destruct (lookupEntry x es) as [child |]; [| discriminate].
    now rewrite (IH _ _ _ Hp Hl).
Qed.

(** X15.  A file in the way of the target directory stops the installer
    before it touches anything.  When [<targetDir>], [<targetDir>/.claude]
    or [<targetDir>/.claude/skills] is a file, [installSkills] throws from
    [fs.ensureDir]: the disk is as it was, no line is printed but the error
    of the handler, and the exit code is 1, whatever was selected. *)
Theorem file_in_the_way_stops_the_install :
  forall (leftover : node -> option node)
         (overwrite : node -> node -> option node * option fserror)
         (skills : list SkillRecord)
         (targetDir : fspath) (w : world) (p : fspath) (c : option jsstring),
    isPrefix p (targetPathOf targetDir) = true ->
    lookupPath p (disk w) = Some (File c) ->
    exists e,
      installSkills leftover overwrite skills targetDir w = (Thrown e, w)
      /\ epath e = targetPathOf targetDir
      /\ mainInstall leftover overwrite skills targetDir w
         = (1, mkWorld (disk w) (console w ++ [MsgError e])).
Proof.
  intros leftover overwrite skills targetDir w p c Hp Hl.
  exists (mkdirError (targetPathOf targetDir) (disk w)).
  assert (Hrun : installSkills leftover overwrite skills targetDir w
                 = (Thrown (mkdirError (targetPathOf targetDir) (disk w)), w)).
  { rewrite installSkills_general.
    now rewrite (ensureDirAt_blocked _ _ _ _ Hp Hl). }
  split; [exact Hrun |]. split; [reflexivity |].
  unfold mainInstall. now rewrite Hrun.
Qed.

Lemma file_in_the_way_stops_the_install_witness :
  exists e,
    installSkills partialCopy mergeCopy
      [mkSkill (js "foo") (js "Foo") (js "No description") []
               [js "repo"; js "foo"]]
      [js "work"] (mkWorld blockedDisk [])
    = (Thrown e, mkWorld blockedDisk [])
    /\ epath e = targetPathOf [js "work"]
    /\ mainInstall partialCopy mergeCopy
         [mkSkill (js "foo") (js "Foo") (js "No description") []
                  [js "repo"; js "foo"]]
         [js "work"] (mkWorld blockedDisk [])
       = (1, mkWorld (disk (mkWorld blockedDisk []))
               (console (mkWorld blockedDisk []) ++ [MsgError e])).
Proof.
  apply (file_in_the_way_stops_the_install partialCopy mergeCopy _ [js "work"]
           (mkWorld blockedDisk []) [js "work"; js ".claude"]
           (Some (js "notes"))); reflexivity.
Defined.





(** ** Configuration, [main] and the command line *)

Lemma lookupEntry_addEntry y x t es :
  lookupEntry y (addEntry x t es)
  = if strEqb y x then Some t else lookupEntry y es.
Proof.
  unfold addEntry, hasEntry.
  destruct (lookupEntry x es) as [c |] eqn:E.
  - rewrite lookupEntry_alterEntry, E. reflexivity.
  - rewrite lookupEntry_app. destruct (strEqb y x) eqn:Eyx.
    + apply strEqb_eq in Eyx. subst y. rewrite E. simpl.
      now rewrite strEqb_refl.
    + destruct (lookupEntry y es); [reflexivity |]. simpl. now rewrite Eyx.
Qed.

Lemma isPrefix_app_inv p r q :
  isPrefix (p ++ r) q = true -> isPrefix p q = true.
Proof.
  revert q. induction p as [| x p IH]; intros q H; [reflexivity |].
  destruct q as [| y q]; [discriminate |].
  simpl in *. apply andb_true_iff in H as [Hx Hp].
  now rewrite Hx, (IH _ Hp).
Qed.


Lemma removePath_frame base x d q :
  apart q (base ++ [x]) = true ->
  lookupPath q (removePath (base ++ [x]) d) = lookupPath q d.
Proof.
  intros Hq. rewrite removePath_snoc.
  apply (lookupPath_updateDir_apart base x); [| exact Hq].
  intros es y Hy. now apply dropEntry_keeps.
Qed.

Lemma writeFileAt_written base x text d d2 :
  writeFileAt (base ++ [x]) text d = inr d2 ->
  lookupPath (base ++ [x]) d2 = Some (File (Some text))
  /\ forall q, apart q (base ++ [x]) = true ->
               lookupPath q d2 = lookupPath q d.
Proof.
  unfold writeFileAt. rewrite removelast_last. intros H.
  assert (Hd2 : isDirAt base d = true
                /\ d2 = updateDir base (addEntry x (File (Some text))) d).
  { unfold isDirAt.
    destruct (lookupPath (base ++ [x]) d) as [[c | l es] |];
      destruct (lookupPath base d) as [[c' | l' es'] |];
      try discriminate; injection H as <-; now rewrite placeAt_snoc. }
  destruct Hd2 as [Hdir ->]. split.
  - destruct (lookupPath_target base x (addEntry x (File (Some text))) d Hdir)
      as (l & es & _ & ->).
    now rewrite lookupEntry_addEntry, strEqb_refl.
  - intros q Hq. apply (lookupPath_updateDir_apart base x); [| exact Hq].
    intros es y Hy. now rewrite lookupEntry_addEntry, Hy.
Qed.

Lemma initConfig_frame env typed d st d' ls :
  initConfig env typed d = (st, d', ls) ->
  forall q, apart q (CONFIG_FILE env) = true ->
            lookupPath q d' = lookupPath q d.
Proof.
  unfold initConfig. intros H q Hq.
  destruct (promptRepositoryPath env typed d) as [p |];
    [| injection H as _ <- _; reflexivity].
  destruct (ensureDirAt (CONFIG_DIR env) d) as [d1 |] eqn:Hens;
    [| injection H as _ <- _; reflexivity].
  assert (H1 : lookupPath q d1 = lookupPath q d).
  { apply (ensureDirAt_lookup_other (CONFIG_DIR env) q d d1); [| exact Hens].
    unfold CONFIG_FILE in Hq. now apply apart_target_base in Hq. }
  destruct (writeFileAt (CONFIG_FILE env)
              (jsonStringify env
                 (JObject [(js "repositoryPath", JString p)])) d1)
    as [e | d2] eqn:Hw; injection H as _ <- _; [exact H1 |].
  destruct (writeFileAt_written _ _ _ _ _ Hw) as [_ Hframe].
  now rewrite Hframe.
Qed.

Lemma mainWithRepository_frame env v ticks d out q :
  apart q (targetPathOf (cwd env)) = true ->
  lookupPath q (diskAfter (mainWithRepository env v ticks d out))
  = lookupPath q d.
Proof.
  intros Hq. unfold mainWithRepository.
  destruct (match v with
            | JString s =>
                match lookupPath (resolvePath env s) d with
                | Some repo => Some (s, repo)
                | None => None
                end
            | _ => None
            end) as [[s repo] |]; [| reflexivity].
  destruct (length (found (scanRun repo (resolvePath env s))) =? 0);
    [reflexivity |].
  destruct (groupForDisplay (found (scanRun repo (resolvePath env s))))
    as [e | choices]; [reflexivity |].
  destruct (promptSelection ticks choices) as [selected |]; [| reflexivity].
  unfold installSelected.
  pose proof (installSkills_frame (copyLeftover env) (copyOverwrite env)
                selected (cwd env)
                (mkWorld d []) q) as Hframe.
  unfold apart in Hq. apply andb_true_iff in Hq as [Hq1 Hq2].
  apply negb_true_iff in Hq1, Hq2.
  destruct (installSkills (copyLeftover env) (copyOverwrite env) selected
              (cwd env) (mkWorld d [])) as [[[] | e] w]; cbn [diskAfter];
    cbn [snd disk] in Hframe; apply Hframe; try exact Hq1;
    intros k _; unfold targetSkillPathOf;
    destruct (isPrefix (targetPathOf (cwd env) ++ [name k]) q) eqn:E;
    try reflexivity; apply isPrefix_app_inv in E; congruence.
Qed.

Lemma main_frame env u d q :
  apart q (CONFIG_FILE env) = true ->
  apart q (targetPathOf (cwd env)) = true ->
  lookupPath q (diskAfter (main env u d)) = lookupPath q d.
Proof.
  intros Hc Ht. unfold main.
  destruct (loadConfig env d) as [config loadLines].
  destruct (configuredRepository config) as [v |].
  - now apply mainWithRepository_frame.
  - destruct (initConfig env (typed u) d) as [[st d'] ls] eqn:Hinit.
    pose proof (initConfig_frame _ _ _ _ _ _ Hinit q Hc) as Hd'.
    destruct st as [p | e |]; cbn [diskAfter]; try exact Hd'.
    now rewrite mainWithRepository_frame.
Qed.

(** X18.  The program writes in two places only.  Whatever the arguments,
    the answers of the user and the disk, a path that lies neither on the
    configuration file's path nor on the path of [<cwd>/.claude/skills]
    (not above them, not at them, not below) resolves after the run as it
    did before, and so does every path below it.  A repository at such a
    path is left as it was; one that overlaps [<cwd>/.claude/skills] is not
    covered. *)
Theorem program_writes_only_its_own_places :
  forall (env : environment) (args : list jsstring) (u : user) (d : node)
         (q : fspath),
    apart q (CONFIG_FILE env) = true ->
    apart q (targetPathOf (cwd env)) = true ->
    lookupPath q (diskAfter (skillManager env args u d)) = lookupPath q d
    /\ forall rel,
         lookupPath (q ++ rel) (diskAfter (skillManager env args u d))
         = lookupPath (q ++ rel) d.
Proof.
  intros env args u d q Hc Ht.
  assert (H : lookupPath q (diskAfter (skillManager env args u d))
              = lookupPath q d).
  { unfold skillManager. destruct (commandOf args).
    - cbn [diskAfter]. unfold CONFIG_FILE in *. now apply removePath_frame.
    - reflexivity.
    - pose proof (main_frame env u d q Hc Ht) as H.
      destruct (ended (main env u d)); exact H. }
  split; [exact H |]. intros rel. now rewrite !lookupPath_app, H.
Qed.

Lemma program_writes_only_its_own_places_witness :
  ended (skillManager demoEnv [] (mkUser [js "repo"] [[]; [0; 1]]) freshDisk)
  = Exited 0
  /\ lookupPath [js "repo"]
       (diskAfter (skillManager demoEnv [] (mkUser [js "repo"] [[]; [0; 1]])
                     freshDisk))
     = lookupPath [js "repo"] freshDisk.
Proof.
  split; [vm_compute; reflexivity |].
  apply (program_writes_only_its_own_places demoEnv []
           (mkUser [js "repo"] [[]; [0; 1]]) freshDisk [js "repo"]);
    reflexivity.
Defined.

Lemma mainWithRepository_printed env v ticks d out :
  exists rest, printed (mainWithRepository env v ticks d out) = out ++ rest.
Proof.
  unfold mainWithRepository.
  destruct (match v with
            | JString s =>
                match lookupPath (resolvePath env s) d with
                | Some repo => Some (s, repo)
                | None => None
                end
            | _ => None
            end) as [[s repo] |]; [| eexists; reflexivity].
  destruct (length (found (scanRun repo (resolvePath env s))) =? 0).
  { eexists. cbn [printed]. rewrite <- app_assoc. reflexivity. }
  destruct (groupForDisplay (found (scanRun repo (resolvePath env s))))
    as [e | choices].
  { eexists. cbn [printed]. rewrite <- app_assoc. reflexivity. }
  destruct (promptSelection ticks choices) as [selected |].
  2:{ eexists. cbn [printed]. rewrite <- app_assoc. reflexivity. }
  unfold installSelected.
  destruct (installSkills (copyLeftover env) (copyOverwrite env) selected
              (cwd env) (mkWorld d [])) as [[[] | e] w];
    eexists; cbn [printed]; rewrite <- !app_assoc; reflexivity.
Qed.




Lemma promptRepositoryPath_sound env typed d p :
  promptRepositoryPath env typed d = Some p ->
  isEmpty p = false /\ pathExists (resolvePath env p) d = true.
Proof.
  induction typed as [| input later IH]; intros H; [discriminate |].
  cbn [promptRepositoryPath] in H. cbv zeta in H.
  destruct (pathExists (resolvePath env
              (if isEmpty input then defaultRepository env else input)) d)
    eqn:E; [| now apply IH].
  injection H as <-. split; [| exact E].
  destruct (isEmpty input) eqn:Ei; [| exact Ei].
  unfold defaultRepository, pathJoin. now destruct (homedir env).
Qed.

(** X20.  The setup is remembered.  When [initConfig] returns with the
    path [p] (and the platform reads back the JSON it writes), [p] names
    something that exists, the configuration file now holds [p], and every
    later run of [main] on that disk goes on with [p] without asking
    again. *)
Theorem setup_is_remembered :
  forall (env : environment) (typed : list jsstring) (d : node)
         (p : jsstring) (d' : node) (ls : list line),
    jsonParse env
      (jsonStringify env (JObject [(js "repositoryPath", JString p)]))
    = Some (JObject [(js "repositoryPath", JString p)]) ->
    initConfig env typed d = (Done p, d', ls) ->
    pathExists (resolvePath env p) d = true
    /\ loadConfig env d' = (JObject [(js "repositoryPath", JString p)], [])
    /\ forall u,
         main env u d'
         = mainWithRepository env (JString p) (ticked u) d' [LineBanner].
Proof.
  intros env typed d p d' ls Hjson Hinit. unfold initConfig in Hinit.
  destruct (promptRepositoryPath env typed d) as [p0 |] eqn:Hp;
    [| discriminate].
  destruct (ensureDirAt (CONFIG_DIR env) d) as [d1 |]; [| discriminate].
  destruct (writeFileAt (CONFIG_FILE env)
              (jsonStringify env
                 (JObject [(js "repositoryPath", JString p0)])) d1)
    as [e | d2] eqn:Hw; [discriminate |].
  injection Hinit as -> -> _.
  destruct (promptRepositoryPath_sound _ _ _ _ Hp) as [Hne Hex].
  unfold CONFIG_FILE in Hw.
  destruct (writeFileAt_written _ _ _ _ _ Hw) as [Hfile _].
  assert (Hload : loadConfig env d'
                  = (JObject [(js "repositoryPath", JString p)], [])).
  { unfold loadConfig, CONFIG_FILE. rewrite Hfile. cbn [readFile].
    now rewrite Hjson. }
  split; [exact Hex |]. split; [exact Hload |].
  intros u. unfold main. rewrite Hload.
  unfold configuredRepository.
  cbn [truthy repositoryPathOf lookupProp].
  rewrite strEqb_refl. cbn [truthy]. now rewrite Hne.
Qed.

Lemma setup_is_remembered_witness :
  exists d',
    pathExists (resolvePath demoEnv (js "repo")) freshDisk = true
    /\ loadConfig demoEnv d'
       = (JObject [(js "repositoryPath", JString (js "repo"))], [])
    /\ forall u,
         main demoEnv u d'
         = mainWithRepository demoEnv (JString (js "repo")) (ticked u) d'
             [LineBanner].
Proof.
  eexists.
  eapply (setup_is_remembered demoEnv [js "nowhere"; js "repo"] freshDisk
            (js "repo")).
  - reflexivity.
  - vm_compute. reflexivity.
Defined.

Lemma StronglySorted_app {A} (R : A -> A -> Prop) l1 l2 :
  StronglySorted R l1 -> StronglySorted R l2 ->
  (forall a b, In a l1 -> In b l2 -> R a b) ->
  StronglySorted R (l1 ++ l2).
Proof.
  induction l1 as [| x l1 IH]; intros H1 H2 Hx; [exact H2 |].
  inversion H1 as [| ? ? Hs Hf]; subst. simpl. constructor.
  - apply IH; [exact Hs | exact H2 |]. intros a b Ha Hb. apply Hx;
      [now right | exact Hb].
  - apply Forall_app. split; [exact Hf |].
    apply Forall_forall. intros b Hb. apply Hx; [now left | exact Hb].
Qed.

Lemma withLabel_In c skills s :
  In s (withLabel c skills) <-> In s skills /\ labelOf s = c.
Proof.
  unfold withLabel. rewrite filter_In.
  split; intros [H1 H2]; (split; [exact H1 |]); now apply strEqb_eq.
Qed.

Lemma same_label_sorted c l :
  (forall s, In s l -> labelOf s = c) -> StronglySorted menuOrder l.
Proof.
  induction l as [| a l IH]; intros H; constructor.
  - apply IH. intros s Hs. apply H. now right.
  - apply Forall_forall. intros b Hb. unfold menuOrder, strLe.
    rewrite (H a) by now left. rewrite (H b) by now right.
    apply strLeb_refl.
Qed.

Lemma groups_in_menuOrder skills cats :
  StronglySorted strLe cats ->
  StronglySorted menuOrder (flat_map (fun c => withLabel c skills) cats).
Proof.
  induction cats as [| c cats IH]; intros Hs; [constructor |].
  inversion Hs as [| ? ? Hs' Hf]; subst. cbn [flat_map].
  apply StronglySorted_app.
  - apply (same_label_sorted c). intros s Hin. now apply withLabel_In in Hin.
  - now apply IH.
  - intros a b Ha Hb. apply withLabel_In in Ha as [_ Ha].
    apply in_flat_map in Hb as (c' & Hc' & Hb).
    apply withLabel_In in Hb as [_ Hb].
    unfold menuOrder. rewrite Ha, Hb.
    rewrite Forall_forall in Hf. now apply Hf.
Qed.

(** The skills of a menu are skills that were grouped, in the order of
    their labels. *)
Lemma menu_values skills choices :
  groupForDisplay skills = inr choices ->
  incl (choiceValues choices) skills
  /\ StronglySorted menuOrder (choiceValues choices).
Proof.
  intros Hrun.
  assert (Hsafe : Forall (fun k => safeLabel k = true) skills).
  { destruct (first_unsafe_label skills)
      as [Hall | (pre & s & post & -> & Hpre & Hs)]; [exact Hall |].
    unfold groupForDisplay in Hrun.
    rewrite (groupSkills_unsafe _ _ _ Hpre Hs) in Hrun. discriminate. }
  destruct (groupSkills_safe skills [] Hsafe) as (o & Ho & Hin & _).
  unfold groupForDisplay in Hrun. rewrite Ho in Hrun. injection Hrun as <-.
  assert (Hb : buildChoices o
               = flat_map
                   (fun c => Separator c :: map SkillChoice (withLabel c skills))
                   (sortedCategories o)).
  { unfold buildChoices. apply flat_map_ext. intros c. now rewrite Hin. }
  destruct (choiceValues_groups (fun c => withLabel c skills)
              (sortedCategories o)) as [Hvals _].
  rewrite Hb, Hvals. split.
  - intros s Hs. apply in_flat_map in Hs as (c & _ & Hs).
    now apply withLabel_In in Hs.
  - apply groups_in_menuOrder. apply sortKeys_sorted.
Qed.

Lemma filter_positions {A} (R : A -> A -> Prop) (f : nat * A -> bool) l :
  forall start,
    incl (map snd (filter f (combine (seq start (length l)) l))) l
    /\ (StronglySorted R l ->
        StronglySorted R (map snd (filter f (combine (seq start (length l)) l)))).
Proof.
  induction l as [| a l IH]; intros start.
  - split; [intros x [] | intros _; constructor].
  - destruct (IH (S start)) as [Hincl Hsorted]. cbn [length seq combine filter].
    split.
    + destruct (f (start, a)); cbn [map snd].
      * intros x [<- | Hx]; [now left | right; now apply Hincl].
      * intros x Hx. right. now apply Hincl.
    + intros Hs. inversion Hs as [| ? ? Hs' Hf]; subst.
      destruct (f (start, a)); cbn [map snd]; [| now apply Hsorted].
      constructor; [now apply Hsorted |].
      apply Forall_forall. intros b Hb. rewrite Forall_forall in Hf.
      apply Hf. now apply Hincl.
Qed.

Lemma promptSelection_answer ticked choices selected :
  promptSelection ticked choices = Some selected ->
  selected <> []
  /\ exists ticks, selected = selectedBy ticks (choiceValues choices).
Proof.
  induction ticked as [| ticks later IH]; intros H; [discriminate |].
  cbn [promptSelection] in H. cbv zeta in H.
  destruct (length (selectedBy ticks (choiceValues choices)) =? 0) eqn:E;
    [now apply IH |].
  injection H as <-. split; [| now exists ticks].
  intros Hnil. rewrite Hnil in E. discriminate.
Qed.

(** X21.  What [main] installs.  When [main] gets as far as installing,
    it has scanned the directory that the repository path resolves to; the
    selection it installs is not empty, holds only records of that scan,
    and is in the order of the menu, by label, whatever the order in which
    the boxes were ticked; the disk it leaves is the one [installSkills]
    leaves for that selection and the working directory. *)
Theorem main_installs_a_selection_of_the_scan :
  forall (env : environment) (v : json) (ticks : list (list nat)) (d : node)
         (out : list line),
    ended (mainWithRepository env v ticks d out) = Resolved ->
    exists s repo selected w',
      v = JString s
      /\ lookupPath (resolvePath env s) d = Some repo
      /\ selected <> []
      /\ incl selected (scanSkills repo (resolvePath env s))
      /\ StronglySorted menuOrder selected
      /\ installSkills (copyLeftover env) (copyOverwrite env) selected
           (cwd env) (mkWorld d [])
         = (Returned tt, w')
      /\ diskAfter (mainWithRepository env v ticks d out) = disk w'.
Proof.
  intros env v ticks d out. unfold mainWithRepository.
  destruct v as [| b | z | s | items | props]; try discriminate.
  destruct (lookupPath (resolvePath env s) d) as [repo |] eqn:Hrepo;
    [| discriminate].
  fold (scanSkills repo (resolvePath env s)).
  destruct (length (scanSkills repo (resolvePath env s)) =? 0);
    [discriminate |].
  destruct (groupForDisplay (scanSkills repo (resolvePath env s)))
    as [e | choices] eqn:Hmenu; [discriminate |].
  destruct (promptSelection ticks choices) as [selected |] eqn:Hsel;
    [| discriminate].
  unfold installSelected.
  destruct (installSkills (copyLeftover env) (copyOverwrite env) selected
              (cwd env) (mkWorld d [])) as [[[] | e] w'] eqn:Hrun; [| discriminate].
  intros _. exists s, repo, selected, w'.
  destruct (menu_values _ _ Hmenu) as [Hincl Hsorted].
  destruct (promptSelection_answer _ _ _ Hsel) as [Hne [picked ->]].
  destruct (filter_positions menuOrder
              (fun iv => existsb (Nat.eqb (fst iv)) picked)
              (choiceValues choices) 0) as [Hsub Hord].
  split; [reflexivity |]. split; [exact Hrepo |]. split; [exact Hne |].
  split; [| split; [| split; [exact Hrun | reflexivity]]].
  - intros k Hk. apply Hincl. now apply Hsub.
  - now apply Hord.
Qed.

Lemma main_installs_a_selection_of_the_scan_witness :
  exists s repo selected w',
    JString (js "repo") = JString s
    /\ lookupPath (resolvePath demoEnv s) freshDisk = Some repo
    /\ selected <> []
    /\ incl selected (scanSkills repo (resolvePath demoEnv s))
    /\ StronglySorted menuOrder selected
    /\ installSkills (copyLeftover demoEnv) (copyOverwrite demoEnv) selected
         (cwd demoEnv) (mkWorld freshDisk [])
       = (Returned tt, w')
    /\ diskAfter (mainWithRepository demoEnv (JString (js "repo")) [[1; 0]]
                    freshDisk [])
       = disk w'.
Proof.
  apply (main_installs_a_selection_of_the_scan demoEnv (JString (js "repo"))
           [[1; 0]] freshDisk []).
  vm_compute. reflexivity.
Defined.

(** X22.  One category that collides with a property of
    [Object.prototype] blocks every installation.  With a configuration in
    place, as soon as the scan of the repository returns a skill with such
    a label, [main] throws the TypeError of the grouping, before any menu
    is shown, and the run ends in the handler with exit code 1: the disk is
    as it was, and the last line printed is the error line of the
    handler. *)
Theorem unsafe_category_blocks_every_install :
  forall (env : environment) (args : list jsstring) (u : user) (d : node)
         (s : jsstring) (repo : node) (k : SkillRecord),
    commandOf args = CmdMain ->
    configuredRepository (fst (loadConfig env d)) = Some (JString s) ->
    lookupPath (resolvePath env s) d = Some repo ->
    In k (scanSkills repo (resolvePath env s)) ->
    safeLabel k = false ->
    let r := skillManager env args u d in
    ended r = Exited 1
    /\ diskAfter r = d
    /\ exists e shown,
         ended (main env u d) = Rejected (GroupingFailure e)
         /\ printed (main env u d) = shown
         /\ printed r = shown ++ [LineError (GroupingFailure e)].
Proof.
  intros env args u d s repo k Hcmd Hconf Hrepo Hk Hunsafe r. subst r.
  set (skills := scanSkills repo (resolvePath env s)) in *.
  assert (Hlen : (length skills =? 0) = false)
    by (destruct skills; [contradiction | reflexivity]).
  destruct (first_unsafe_label skills)
    as [Hall | (pre & bad & post & E & Hpre & Hbad)].
  { rewrite Forall_forall in Hall. rewrite (Hall k Hk) in Hunsafe.
    discriminate. }
  assert (Hgroup : groupForDisplay skills
                   = inl (PushIsNotAFunction (labelOf bad))).
  { unfold groupForDisplay.
    now rewrite E, (groupSkills_unsafe _ _ _ Hpre Hbad). }
  unfold skillManager. rewrite Hcmd. unfold main.
  destruct (loadConfig env d) as [config loadLines]. cbn [fst] in Hconf.
  rewrite Hconf. unfold mainWithRepository. rewrite Hrepo.
  change (found (scanRun repo (resolvePath env s))) with skills.
  cbv zeta. rewrite Hlen, Hgroup. cbn [ended diskAfter printed].
  split; [reflexivity |]. split; [reflexivity |].
  eexists. eexists. repeat split.
Qed.

Lemma unsafe_category_blocks_every_install_witness :
  let u := mkUser [] [[0]] in
  let r := skillManager demoEnv [] u unsafeDisk in
  ended r = Exited 1
  /\ diskAfter r = unsafeDisk
  /\ exists e shown,
       ended (main demoEnv u unsafeDisk) = Rejected (GroupingFailure e)
       /\ printed (main demoEnv u unsafeDisk) = shown
       /\ printed r = shown ++ [LineError (GroupingFailure e)].
Proof.
  intros u r.
  eapply (unsafe_category_blocks_every_install demoEnv [] u
            unsafeDisk (js "repo") _
           (skillOf (js "lint") (js "name: Lint") (js "constructor")
              [js "repo"; js "constructor"; js "lint"])).
  - reflexivity.
  - vm_compute. reflexivity.
  - reflexivity.
  - vm_compute. right. left. reflexivity.
  - reflexivity.
Defined.

(** X24.  A configuration file that cannot be used never stops the
    program.  When the file exists but cannot be read as a file, or holds
    no JSON, [loadConfig] prints one line, returns [null], changes
    nothing, and [main] goes on with the first-time setup. *)
Theorem broken_configuration_starts_the_setup :
  forall (env : environment) (u : user) (d : node) (n : node),
    lookupPath (CONFIG_FILE env) d = Some n ->
    (forall text, n = File (Some text) -> jsonParse env text = None) ->
    exists why rest,
      loadConfig env d = (JNull, [LineLoadFailed why])
      /\ printed (main env u d)
         = LineBanner :: LineLoadFailed why :: LineFirstTime :: rest.
Proof.
  intros env u d n Hn Hbad.
  assert (Hload : exists why, loadConfig env d = (JNull, [LineLoadFailed why])).
  { unfold loadConfig. rewrite Hn.
    destruct n as [[text |] | l es]; cbn [readFile]; eauto.
    rewrite (Hbad text eq_refl). eauto. }
  destruct Hload as [why Hload]. exists why.
  unfold main. rewrite Hload. cbn [configuredRepository truthy].
  destruct (initConfig env (typed u) d) as [[st d'] ls] eqn:Hinit.
  assert (Hls : exists more, ls = LineFirstTime :: more).
  { unfold initConfig in Hinit.
    destruct (promptRepositoryPath env (typed u) d);
      [| injection Hinit as _ _ <-; eauto].
    destruct (ensureDirAt (CONFIG_DIR env) d);
      [| injection Hinit as _ _ <-; eauto].
    destruct (writeFileAt _ _ _); injection Hinit as _ _ <-; eauto. }
  destruct Hls as [more ->].
  destruct st as [p | e |]; try (eexists; split; [reflexivity |];
                                 reflexivity).
  destruct (mainWithRepository_printed env (JString p) (ticked u) d'
              ((LineBanner :: [LineLoadFailed why])
               ++ LineFirstTime :: more)) as [rest ->].
  eexists. split; [reflexivity |]. cbn [app]. reflexivity.
Qed.

Lemma broken_configuration_starts_the_setup_witness :
  exists why rest,
    loadConfig demoEnv lockedConfigDisk = (JNull, [LineLoadFailed why])
    /\ printed (main demoEnv (mkUser [] []) lockedConfigDisk)
       = LineBanner :: LineLoadFailed why :: LineFirstTime :: rest.
Proof.
  apply (broken_configuration_starts_the_setup demoEnv (mkUser [] [])
           lockedConfigDisk (File None)).
  - reflexivity.
  - intros text H. discriminate H.
Defined.







